(** * AIQA span exporter: buffering, redaction, batching and flush

    A shallow embedding of [AIQASpanExporter] (aiqa-exporter.ts) and of the
    data filters it shares with tracing.ts.  JavaScript values are a tagged
    variant, the exporter object is a record threaded through every method,
    and the suspension points of [flush] (its [await]s) are explicit, so
    that what the event loop runs in between can be stated. *)

From Stdlib Require Import ZArith Ascii String Floats.SpecFloat.
From stdpp Require Import base strings list gmap pretty.

Local Open Scope string_scope.
Local Open Scope list_scope.
Set Warnings "-register-all,-clear-no-such-hyp".

(** ** JavaScript strings (ASCII fragment) *)

Module JsString.

(** [String.prototype.toLowerCase], on the ASCII letters. *)
Definition lowerAscii (c : ascii) : ascii :=
  let n := Ascii.nat_of_ascii c in
  if (65 <=? n)%nat && (n <=? 90)%nat then Ascii.ascii_of_nat (n + 32) else c.

Fixpoint toLowerCase (s : string) : string :=
  match s with
  | EmptyString => EmptyString
  | String c s' => String (lowerAscii c) (toLowerCase s')
  end.

(** [s.startsWith(p)] *)
Definition startsWith (p s : string) : bool := String.prefix p s.

(** [s.includes(needle)] *)
Fixpoint includes (needle s : string) : bool :=
  startsWith needle s ||
  match s with
  | EmptyString => false
  | String _ s' => includes needle s'
  end.

(** [s.split(sep)] for a one-character separator: always at least one part. *)
Fixpoint split (sep : ascii) (s : string) : list string :=
  match s with
  | EmptyString => [EmptyString]
  | String c s' =>
      if Ascii.eqb c sep then EmptyString :: split sep s'
      else match split sep s' with
           | p :: ps => String c p :: ps
           | [] => [String c EmptyString]
           end
  end.

(** White space removed by [trim]: tab, line feed, vertical tab, form feed,
    carriage return and space. *)
Definition isWhiteSpace (c : ascii) : bool :=
  let n := Ascii.nat_of_ascii c in
  ((9 <=? n)%nat && (n <=? 13)%nat) || (n =? 32)%nat.

Fixpoint trimStart (s : string) : string :=
  match s with
  | EmptyString => EmptyString
  | String c s' => if isWhiteSpace c then trimStart s' else s
  end.

Definition trim (s : string) : string :=
  String.rev (trimStart (String.rev (trimStart s))).

(** [parts.join(sep)] *)
Fixpoint join (sep : string) (parts : list string) : string :=
  match parts with
  | [] => ""
  | [p] => p
  | p :: ps => p +:+ sep +:+ join sep ps
  end.

End JsString.

(** ** JavaScript values *)

(** The values a span attribute can hold.  An object is the ordered list of
    its own enumerable entries, as [Object.entries] lists them. *)
Inductive JsValue : Type :=
| JsUndefined
| JsNull
| JsBool (b : bool)
| JsNumber (x : spec_float)
| JsStr (s : string)
| JsArray (items : list JsValue)
| JsObject (entries : list (string * JsValue)).

(** Induction principle that reaches the values nested in arrays and
    objects. *)
Section JsValue_nested_ind.
Variable P : JsValue -> Prop.
Hypothesis Hundef : P JsUndefined.
Hypothesis Hnull : P JsNull.
Hypothesis Hbool : forall b, P (JsBool b).
Hypothesis Hnum : forall x, P (JsNumber x).
Hypothesis Hstr : forall s, P (JsStr s).
Hypothesis Harr : forall items, Forall P items -> P (JsArray items).
Hypothesis Hobj :
  forall entries, Forall (fun kv => P (snd kv)) entries -> P (JsObject entries).

Fixpoint JsValue_nested_ind (v : JsValue) : P v :=
  match v with
  | JsUndefined => Hundef
  | JsNull => Hnull
  | JsBool b => Hbool b
  | JsNumber x => Hnum x
  | JsStr s => Hstr s
  | JsArray items =>
      Harr items
        ((fix all (l : list JsValue) : Forall P l :=
            match l with
            | [] => List.Forall_nil P
            | x :: l' => List.Forall_cons P x l' (JsValue_nested_ind x) (all l')
            end) items)
  | JsObject entries =>
      Hobj entries
        ((fix all (l : list (string * JsValue))
            : Forall (fun kv => P (snd kv)) l :=
            match l with
            | [] => List.Forall_nil _
            | kv :: l' =>
                List.Forall_cons _ kv l' (JsValue_nested_ind (snd kv)) (all l')
            end) entries)
  end.
End JsValue_nested_ind.

(** [!value] is false: the value is truthy.  The falsy values are
    [undefined], [null], [false], [+0], [-0], [NaN] and the empty string. *)
Definition truthy (v : JsValue) : bool :=
  match v with
  | JsUndefined | JsNull => false
  | JsBool b => b
  | JsNumber (S754_zero _) | JsNumber S754_nan => false
  | JsNumber _ => true
  | JsStr EmptyString => false
  | JsStr _ => true
  | JsArray _ | JsObject _ => true
  end.

(** ** Data filters (aiqa-exporter.ts and tracing.ts, same code) *)

Section DataFilters.

(** [process.env.AIQA_DATA_FILTERS]; [None] when the variable is unset. *)
Variable AIQA_DATA_FILTERS : option string.

Definition getEnabledFilters : gset string :=
  let filtersEnv :=
    match AIQA_DATA_FILTERS with
    | Some (String c s) => String c s
    | _ => "RemovePasswords, RemoveJWT"
    end in
  match filtersEnv with
  | EmptyString => ∅
  | _ =>
      list_to_set
        (filter (fun f => f ≠ EmptyString)
           (map JsString.trim (JsString.split "," filtersEnv)))
  end.

Definition has (filters : gset string) (name : string) : bool :=
  bool_decide (name ∈ filters).

Definition isJWTToken (value : JsValue) : bool :=
  match value with
  | JsStr value =>
      let parts := JsString.split "." value in
      (length parts =? 3)%nat && JsString.startsWith "eyJ" value
      && forallb (fun p => (0 <? String.length p)%nat) parts
  | _ => false
  end.

Definition isAPIKey (value : JsValue) : bool :=
  match value with
  | JsStr value =>
      let trimmed := JsString.trim value in
      let apiKeyPrefixes :=
        ["sk-"; "pk-"; "AKIA"; "ghp_"; "gho_"; "ghu_"; "ghs_"; "ghr_"] in
      existsb (fun prefix => JsString.startsWith prefix trimmed) apiKeyPrefixes
  | _ => false
  end.

(** The mask token. *)
Definition MASK : JsValue := JsStr "****".

Definition applyDataFilters (key : string) (value : JsValue) : JsValue :=
  if negb (truthy value) then value
  else
    let enabledFilters := getEnabledFilters in
    let keyLower := JsString.toLowerCase key in
    if has enabledFilters "RemovePasswords"
       && JsString.includes "password" keyLower then MASK
    else if has enabledFilters "RemoveJWT" && isJWTToken value then MASK
    else if has enabledFilters "RemoveAuthHeaders"
            && String.eqb keyLower "authorization" then MASK
    else if has enabledFilters "RemoveAPIKeys" then
      let apiKeyKeyPatterns := ["api_key"; "apikey"; "api-key"; "apikey"] in
      if existsb (fun pattern => JsString.includes pattern keyLower)
           apiKeyKeyPatterns then MASK
      else if isAPIKey value then MASK
      else value
    else value.

(** Whether some enabled rule fires on the pair, that is, whether
    [applyDataFilters] takes one of its [return '****'] exits. *)
Definition keyRule (key : string) : bool :=
  let enabledFilters := getEnabledFilters in
  let keyLower := JsString.toLowerCase key in
  (has enabledFilters "RemovePasswords" && JsString.includes "password" keyLower)
  || (has enabledFilters "RemoveAuthHeaders"
      && String.eqb keyLower "authorization")
  || (has enabledFilters "RemoveAPIKeys"
      && existsb (fun pattern => JsString.includes pattern keyLower)
           ["api_key"; "apikey"; "api-key"; "apikey"]).

Definition valueRule (value : JsValue) : bool :=
  let enabledFilters := getEnabledFilters in
  (has enabledFilters "RemoveJWT" && isJWTToken value)
  || (has enabledFilters "RemoveAPIKeys" && isAPIKey value).

Definition masks (key : string) (value : JsValue) : bool :=
  truthy value && (keyRule key || valueRule value).

(** [filterDataRecursive].  The source recurses on
    [applyDataFilters(k, v)], which is either [v] itself or the mask
    string; the recursion is written on those two cases so that it is
    structural, and [filterDataRecursive_object] below recovers the
    source's equation. *)
Fixpoint filterDataRecursive (data : JsValue) : JsValue :=
  match data with
  | JsUndefined | JsNull => data
  | JsArray items => JsArray (map filterDataRecursive items)
  | JsObject entries =>
      JsObject
        (map (fun kv =>
                (fst kv,
                 if masks (fst kv) (snd kv)
                 then applyDataFilters "" MASK
                 else filterDataRecursive (snd kv)))
           entries)
  | _ => applyDataFilters "" data
  end.

End DataFilters.

(** ** Spans *)

(** [HrTime]: seconds and nanoseconds. *)
Definition HrTime : Type := Z * Z.

Record SpanStatus := { code : Z; message : option string }.

Record InstrumentationLibrary := { libraryName : string; version : option string }.

(** The tracer's [ReadableSpan], restricted to what [serializeSpan] reads. *)
Module ReadableSpan.
Record SpanContext := { traceId : string; spanId : string; traceFlags : Z }.
Record Link := { context : SpanContext; linkAttributes : JsValue }.
Record TimedEvent :=
  { eventName : string; time : HrTime; eventAttributes : JsValue }.
Record t := {
  name : string;
  kind : Z;
  parentSpanId : option string;
  startTime : HrTime;
  endTime : HrTime;
  status : SpanStatus;
  attributes : JsValue;
  links : list Link;
  events : list TimedEvent;
  resourceAttributes : JsValue;
  spanContext : SpanContext;
  duration : HrTime;
  ended : bool;
  instrumentationLibrary : InstrumentationLibrary
}.
End ReadableSpan.

Module SerializableSpan.
Record Link :=
  { contextTraceId : string; contextSpanId : string; linkAttributes : JsValue }.
Record Event :=
  { eventName : string; time : HrTime; eventAttributes : JsValue }.
Record t := {
  name : string;
  kind : Z;
  parentSpanId : option string;
  startTime : HrTime;
  endTime : HrTime;
  status : SpanStatus;
  attributes : JsValue;
  links : list Link;
  events : list Event;
  resourceAttributes : JsValue;
  traceId : string;
  spanId : string;
  traceFlags : Z;
  duration : HrTime;
  ended : bool;
  instrumentationLibrary : InstrumentationLibrary
}.
End SerializableSpan.

(** The identity key of a buffered span: [`${traceId}:${spanId}`]. *)
Definition spanKey (span : SerializableSpan.t) : string :=
  SerializableSpan.traceId span +:+ ":" +:+ SerializableSpan.spanId span.

(** ** The exporter object *)

Inductive ExportResultCode := SUCCESS | FAILED.

(** What the exporter does to the outside, in the order it does it. *)
Inductive Effect :=
| ResultCallback (result : ExportResultCode)
| ConsoleLog (text : string)
| ConsoleDebug (text : string)
| ConsoleWarn (text : string)
| ConsoleError (text : string)
| Fetch (url authorization : string) (body : list SerializableSpan.t).

(** How a call ends: it returns, or it throws [new Error(message)]. *)
Inductive Completion :=
| Returned
| Threw (message : string).

(** What the awaited [fetch] settles to. *)
Inductive FetchOutcome :=
| FetchRejected (message : string)
| FetchResponse (ok : bool) (status : Z) (statusText : string)
    (text : option string).

(** The fields of [AIQASpanExporter], and the effects it has had so far.
    [flushTimer] tells whether the interval timer is set; [flushLock] is a
    promise and lives with the promises, in [Runtime] below. *)
Record AIQASpanExporter := {
  serverUrl : string;
  apiKey : string;
  flushIntervalMs : Z;
  maxBatchSizeBytes : Z;
  maxBufferSpans : Z;
  buffer : list SerializableSpan.t;
  bufferSpanKeys : gset string;
  flushTimer : bool;
  shutdownRequested : bool;
  effects : list Effect
}.

Definition withBuffer (this : AIQASpanExporter) b : AIQASpanExporter :=
  {| serverUrl := serverUrl this; apiKey := apiKey this;
     flushIntervalMs := flushIntervalMs this;
     maxBatchSizeBytes := maxBatchSizeBytes this;
     maxBufferSpans := maxBufferSpans this;
     buffer := b; bufferSpanKeys := bufferSpanKeys this;
     flushTimer := flushTimer this;
     shutdownRequested := shutdownRequested this; effects := effects this |}.

Definition withBufferSpanKeys (this : AIQASpanExporter) ks : AIQASpanExporter :=
  {| serverUrl := serverUrl this; apiKey := apiKey this;
     flushIntervalMs := flushIntervalMs this;
     maxBatchSizeBytes := maxBatchSizeBytes this;
     maxBufferSpans := maxBufferSpans this;
     buffer := buffer this; bufferSpanKeys := ks;
     flushTimer := flushTimer this;
     shutdownRequested := shutdownRequested this; effects := effects this |}.

Definition withShutdown (this : AIQASpanExporter) : AIQASpanExporter :=
  {| serverUrl := serverUrl this; apiKey := apiKey this;
     flushIntervalMs := flushIntervalMs this;
     maxBatchSizeBytes := maxBatchSizeBytes this;
     maxBufferSpans := maxBufferSpans this;
     buffer := buffer this; bufferSpanKeys := bufferSpanKeys this;
     flushTimer := false;
     shutdownRequested := true; effects := effects this |}.

(** The bodies of the requests sent so far, oldest first. *)
Definition fetched (this : AIQASpanExporter) : list (list SerializableSpan.t) :=
  flat_map (fun e => match e with
                     | Fetch _ _ body => [body]
                     | _ => []
                     end)
    (effects this).

Definition emit (this : AIQASpanExporter) (e : Effect) : AIQASpanExporter :=
  {| serverUrl := serverUrl this; apiKey := apiKey this;
     flushIntervalMs := flushIntervalMs this;
     maxBatchSizeBytes := maxBatchSizeBytes this;
     maxBufferSpans := maxBufferSpans this;
     buffer := buffer this; bufferSpanKeys := bufferSpanKeys this;
     flushTimer := flushTimer this;
     shutdownRequested := shutdownRequested this;
     effects := effects this ++ [e] |}.

(** [serverUrl.replace(/\/$/, '')] *)
Definition removeTrailingSlash (url : string) : string :=
  match String.rev url with
  | String "/" r => String.rev r
  | _ => url
  end.

(** The constructor, with its defaults for the fields it does not take;
    [startAutoFlush] sets the timer. *)
Definition newExporter (serverUrl apiKey : string) (flushIntervalSeconds : Z)
  : AIQASpanExporter :=
  {| serverUrl := removeTrailingSlash serverUrl; apiKey := apiKey;
     flushIntervalMs := flushIntervalSeconds * 1000;
     maxBatchSizeBytes := 5 * 1024 * 1024;
     maxBufferSpans := 10000;
     buffer := []; bufferSpanKeys := ∅;
     flushTimer := true;
     shutdownRequested := false; effects := [] |}.

(** ** The exporter's methods *)

(** The locals of [addToBuffer]. *)
Module Add.
Record Locals := {
  duplicatesCount : nat;
  droppedCount : nat;
  serializedSpans : list SerializableSpan.t
}.
Definition init : Locals :=
  {| duplicatesCount := 0; droppedCount := 0; serializedSpans := [] |}.
End Add.

(** The locals of [splitIntoBatches], and the warnings it has printed. *)
Module Split.
Record Locals := {
  batches : list (list SerializableSpan.t);
  currentBatch : list SerializableSpan.t;
  currentBatchSize : Z;
  warnings : list Effect
}.
Definition init : Locals :=
  {| batches := []; currentBatch := []; currentBatchSize := 0;
     warnings := [] |}.
End Split.

(** The locals of [flush] that live across its [await]s; [errors] holds the
    [{ batch, error }] pairs. *)
Module Flush.
Record Locals := {
  batches : list (list SerializableSpan.t);
  i : nat;
  successfullySentSpans : list SerializableSpan.t;
  errors : list (nat * string)
}.
End Flush.

(** *** The event loop

    JavaScript runs one piece of code at a time and switches only at an
    [await].  A call of [flush] is a task that is waiting for the lock it
    read, waiting for a send, or done. *)

(** Who called [flush]: the interval timer, whose callback has a [.catch],
    or host code ([flushSpans], [shutdown]), which gets the promise. *)
Inductive Origin := FromTimer | FromHost.

Inductive Task :=
| AwaitingLock (origin : Origin) (lock : nat)
| AwaitingSend (origin : Origin) (resolveFlush : nat) (locals : Flush.Locals)
    (early : option string)
| Settled (origin : Origin) (result : Completion).

(** Promises are numbered in creation order; [flushLock] is the promise the
    field holds and [resolved] the promises resolved so far. *)
Record Runtime := {
  exporter : AIQASpanExporter;
  flushLock : nat;
  resolved : gset nat;
  promises : nat;
  tasks : list Task
}.

(** What the event loop can run next. *)
Inductive Event :=
| CallExport (spans : list ReadableSpan.t)
| CallFlush
| CallShutdown
| TimerFires
| LockAcquired (task : nat)
| SendSettled (task : nat) (outcome : FetchOutcome).

(** A new exporter: [flushLock = Promise.resolve()] is promise 0. *)
Definition boot (this : AIQASpanExporter) : Runtime :=
  {| exporter := this; flushLock := 0; resolved := {[0]}; promises := 1;
     tasks := [] |}.

Definition spawn (rt : Runtime) (this : AIQASpanExporter) (origin : Origin)
  : Runtime :=
  {| exporter := this; flushLock := flushLock rt; resolved := resolved rt;
     promises := promises rt;
     tasks := tasks rt ++ [AwaitingLock origin (flushLock rt)] |}.

(** The tasks that hold a drained batch list and have a send under way. *)
Definition isSending (t : Task) : bool :=
  match t with
  | AwaitingSend _ _ _ _ => true
  | _ => false
  end.

Definition sending (rt : Runtime) : list nat :=
  List.filter
    (fun t => match tasks rt !! t with
              | Some t => isSending t
              | None => false
              end)
    (seq 0 (length (tasks rt))).

Section Exporter.

(** [process.env.AIQA_DATA_FILTERS], as in the section above. *)
Variable AIQA_DATA_FILTERS : option string.

(** [new Blob([JSON.stringify(span)]).size]: the byte length of a span's
    JSON text, a function of the platform. *)
Variable blobSize : SerializableSpan.t -> Z.

Definition serializeSpan (span : ReadableSpan.t) : SerializableSpan.t :=
  let spanContext := ReadableSpan.spanContext span in
  {| SerializableSpan.name := ReadableSpan.name span;
     SerializableSpan.kind := ReadableSpan.kind span;
     SerializableSpan.parentSpanId := ReadableSpan.parentSpanId span;
     SerializableSpan.startTime := ReadableSpan.startTime span;
     SerializableSpan.endTime := ReadableSpan.endTime span;
     SerializableSpan.status :=
       {| code := code (ReadableSpan.status span);
          message := message (ReadableSpan.status span) |};
     SerializableSpan.attributes :=
       filterDataRecursive AIQA_DATA_FILTERS (ReadableSpan.attributes span);
     SerializableSpan.links :=
       map (fun link =>
              {| SerializableSpan.contextTraceId :=
                   ReadableSpan.traceId (ReadableSpan.context link);
                 SerializableSpan.contextSpanId :=
                   ReadableSpan.spanId (ReadableSpan.context link);
                 SerializableSpan.linkAttributes :=
                   filterDataRecursive AIQA_DATA_FILTERS
                     (ReadableSpan.linkAttributes link) |})
         (ReadableSpan.links span);
     SerializableSpan.events :=
       map (fun event =>
              {| SerializableSpan.eventName := ReadableSpan.eventName event;
                 SerializableSpan.time := ReadableSpan.time event;
                 SerializableSpan.eventAttributes :=
                   filterDataRecursive AIQA_DATA_FILTERS
                     (ReadableSpan.eventAttributes event) |})
         (ReadableSpan.events span);
     SerializableSpan.resourceAttributes :=
       filterDataRecursive AIQA_DATA_FILTERS
         (ReadableSpan.resourceAttributes span);
     SerializableSpan.traceId := ReadableSpan.traceId spanContext;
     SerializableSpan.spanId := ReadableSpan.spanId spanContext;
     SerializableSpan.traceFlags := ReadableSpan.traceFlags spanContext;
     SerializableSpan.duration := ReadableSpan.duration span;
     SerializableSpan.ended := ReadableSpan.ended span;
     SerializableSpan.instrumentationLibrary :=
       ReadableSpan.instrumentationLibrary span |}.

(** *** addToBuffer *)

(** The [for (const span of spans)] loop.  It reads [this.buffer.length]
    and updates [this.bufferSpanKeys]; [this.buffer] is pushed to only
    after the loop. *)
Fixpoint addToBufferLoop (this : AIQASpanExporter) (locals : Add.Locals)
    (spans : list ReadableSpan.t) : AIQASpanExporter * Add.Locals :=
  match spans with
  | [] => (this, locals)
  | span :: rest =>
      if (maxBufferSpans this <=? Z.of_nat (length (buffer this)))%Z then
        addToBufferLoop this
          {| Add.duplicatesCount := Add.duplicatesCount locals;
             Add.droppedCount := S (Add.droppedCount locals);
             Add.serializedSpans := Add.serializedSpans locals |} rest
      else
        let serialized := serializeSpan span in
        let spanKey := spanKey serialized in
        if negb (bool_decide (spanKey ∈ bufferSpanKeys this)) then
          addToBufferLoop
            (withBufferSpanKeys this (bufferSpanKeys this ∪ {[spanKey]}))
            {| Add.duplicatesCount := Add.duplicatesCount locals;
               Add.droppedCount := Add.droppedCount locals;
               Add.serializedSpans := Add.serializedSpans locals ++ [serialized] |}
            rest
        else
          addToBufferLoop this
            {| Add.duplicatesCount := S (Add.duplicatesCount locals);
               Add.droppedCount := Add.droppedCount locals;
               Add.serializedSpans := Add.serializedSpans locals |} rest
  end.

Definition addToBufferCounts (this : AIQASpanExporter)
    (spans : list ReadableSpan.t) : Add.Locals :=
  snd (addToBufferLoop this Add.init spans).

Definition addToBuffer (this : AIQASpanExporter) (spans : list ReadableSpan.t)
  : AIQASpanExporter :=
  let '(this, locals) :=
    addToBufferLoop this Add.init spans in
  let this := withBuffer this (buffer this ++ Add.serializedSpans locals) in
  let this :=
    if (0 <? Add.droppedCount locals)%nat then
      emit this
        (ConsoleWarn
           ("AIQA: WARNING: Buffer full (" +:+ pretty (length (buffer this))
            +:+ " spans), dropped " +:+ pretty (Add.droppedCount locals)
            +:+ " span(s). "
            +:+ "Consider increasing maxBufferSpans or fixing server connectivity."))
    else this in
  if (0 <? Add.duplicatesCount locals)%nat then
    emit this
      (ConsoleDebug
         ("AIQA: export() added " +:+ pretty (length (Add.serializedSpans locals))
          +:+ " span(s) to buffer, skipped "
          +:+ pretty (Add.duplicatesCount locals)
          +:+ " duplicate(s). Total buffered: "
          +:+ pretty (length (buffer this))))
  else this.

(** *** export *)

Definition export (this : AIQASpanExporter) (spans : list ReadableSpan.t)
  : AIQASpanExporter :=
  match spans with
  | [] => emit this (ResultCallback SUCCESS)
  | _ =>
      let this := emit this (ResultCallback SUCCESS) in
      addToBuffer this spans
  end.

(** *** removeSpanKeysFromTracking *)

Fixpoint removeSpanKeysFromTracking (this : AIQASpanExporter)
    (spans : list SerializableSpan.t) : AIQASpanExporter :=
  match spans with
  | [] => this
  | span :: rest =>
      removeSpanKeysFromTracking
        (withBufferSpanKeys this (bufferSpanKeys this ∖ {[spanKey span]}))
        rest
  end.

(** *** splitIntoBatches *)

Definition oversizedWarning (this : AIQASpanExporter)
    (span : SerializableSpan.t) (spanSize : Z) : Effect :=
  ConsoleWarn
    ("AIQA: Span '" +:+ SerializableSpan.name span +:+ "' (traceId="
     +:+ SerializableSpan.traceId span +:+ ") exceeds maxBatchSizeBytes ("
     +:+ pretty spanSize +:+ " bytes > " +:+ pretty (maxBatchSizeBytes this)
     +:+ " bytes). Will attempt to send it anyway.").

Fixpoint splitLoop (this : AIQASpanExporter) (locals : Split.Locals)
    (spans : list SerializableSpan.t) : Split.Locals :=
  match spans with
  | [] => locals
  | span :: rest =>
      let spanSize := blobSize span in
      if (maxBatchSizeBytes this <? spanSize)%Z then
        let locals :=
          if (0 <? length (Split.currentBatch locals))%nat then
            {| Split.batches := Split.batches locals ++ [Split.currentBatch locals];
               Split.currentBatch := []; Split.currentBatchSize := 0;
               Split.warnings := Split.warnings locals |}
          else locals in
        splitLoop this
          {| Split.batches := Split.batches locals ++ [[span]];
             Split.currentBatch := Split.currentBatch locals;
             Split.currentBatchSize := Split.currentBatchSize locals;
             Split.warnings :=
               Split.warnings locals ++ [oversizedWarning this span spanSize] |}
          rest
      else
        let locals :=
          if (0 <? length (Split.currentBatch locals))%nat
             && (maxBatchSizeBytes this <? Split.currentBatchSize locals + spanSize)%Z
          then
            {| Split.batches := Split.batches locals ++ [Split.currentBatch locals];
               Split.currentBatch := []; Split.currentBatchSize := 0;
               Split.warnings := Split.warnings locals |}
          else locals in
        splitLoop this
          {| Split.batches := Split.batches locals;
             Split.currentBatch := Split.currentBatch locals ++ [span];
             Split.currentBatchSize := Split.currentBatchSize locals + spanSize;
             Split.warnings := Split.warnings locals |}
          rest
  end.

Definition splitLocals (this : AIQASpanExporter)
    (spans : list SerializableSpan.t) : Split.Locals :=
  splitLoop this Split.init spans.

(** The value [splitIntoBatches] returns. *)
Definition splitIntoBatches (this : AIQASpanExporter)
    (spans : list SerializableSpan.t) : list (list SerializableSpan.t) :=
  match spans with
  | [] => []
  | _ =>
      let locals := splitLocals this spans in
      if (0 <? length (Split.currentBatch locals))%nat
      then Split.batches locals ++ [Split.currentBatch locals]
      else Split.batches locals
  end.

(** The warnings [splitIntoBatches] prints, one per oversized span. *)
Definition splitWarnings (this : AIQASpanExporter)
    (spans : list SerializableSpan.t) : list Effect :=
  Split.warnings (splitLocals this spans).

(** *** sendSpans *)

(** [sendSpans] up to its [await fetch(...)]: it throws at once when the
    server URL is unset, and issues the request otherwise. *)
Definition sendSpansRequest (this : AIQASpanExporter)
    (spans : list SerializableSpan.t) : AIQASpanExporter * option string :=
  match serverUrl this with
  | EmptyString =>
      (this, Some "AIQA_SERVER_URL is not set. Cannot send spans to server.")
  | _ =>
      (emit this
         (Fetch (serverUrl this +:+ "/span") ("ApiKey " +:+ apiKey this) spans),
       None)
  end.

(** [sendSpans] from the point where [fetch] has settled. *)
Definition sendSpansResponse (outcome : FetchOutcome) : Completion :=
  match outcome with
  | FetchRejected message => Threw message
  | FetchResponse ok status statusText text =>
      if negb ok then
        let errorText := default "Unknown error" text in
        Threw ("Failed to send spans: " +:+ pretty status +:+ " "
               +:+ statusText +:+ " - " +:+ errorText)
      else Returned
  end.

(** What [await this.sendSpans(batch)] gives the caller. *)
Definition sendSpansCompletion (early : option string)
    (outcome : FetchOutcome) : Completion :=
  match early with
  | Some message => Threw message
  | None => sendSpansResponse outcome
  end.

(** *** flush *)

(** From the acquisition of the lock to the first [await] of a send, or
    to the early [return]: [None] when [flush] returns early. *)
Definition flushBegin (this : AIQASpanExporter)
  : AIQASpanExporter * option Flush.Locals :=
  let spansToFlush := buffer this in
  let this := withBuffer this [] in
  match spansToFlush with
  | [] => (this, None)
  | _ =>
      match serverUrl this with
      | EmptyString =>
          let this :=
            emit this
              (ConsoleWarn
                 ("AIQA: Skipping flush: AIQA_SERVER_URL is not set. "
                  +:+ pretty (length spansToFlush)
                  +:+ " span(s) will not be sent.")) in
          (removeSpanKeysFromTracking this spansToFlush, None)
      | _ =>
          let batches := splitIntoBatches this spansToFlush in
          let this := fold_left emit (splitWarnings this spansToFlush) this in
          let this :=
            if (1 <? length batches)%nat then
              emit this
                (ConsoleLog
                   ("AIQA: flush() splitting " +:+ pretty (length spansToFlush)
                    +:+ " spans into " +:+ pretty (length batches)
                    +:+ " batches"))
            else this in
          (this,
           Some {| Flush.batches := batches; Flush.i := 0;
                   Flush.successfullySentSpans := [];
                   Flush.errors := [] |})
      end
  end.

(** [batches[i]] *)
Definition currentSend (locals : Flush.Locals) : list SerializableSpan.t :=
  nth (Flush.i locals) (Flush.batches locals) [].

(** The head of a loop iteration: the call [this.sendSpans(batches[i])]
    up to the [await]. *)
Definition flushSend (this : AIQASpanExporter) (locals : Flush.Locals)
  : AIQASpanExporter * option string :=
  sendSpansRequest this (currentSend locals).

(** [this.buffer.push(...remainingBatch)] for each remaining batch. *)
Definition pushBack (this : AIQASpanExporter)
    (remaining : list (list SerializableSpan.t)) : AIQASpanExporter :=
  fold_left
    (fun this remainingBatch => withBuffer this (buffer this ++ remainingBatch))
    remaining this.

(** The rest of the iteration, once the awaited send has completed: the
    [try] continuation or the [catch] block, and [i++]. *)
Definition flushSettle (this : AIQASpanExporter) (locals : Flush.Locals)
    (sent : Completion) : AIQASpanExporter * Flush.Locals :=
  let batches := Flush.batches locals in
  let i := Flush.i locals in
  match sent with
  | Returned =>
      (this,
       {| Flush.batches := batches; Flush.i := i + 1;
          Flush.successfullySentSpans :=
            Flush.successfullySentSpans locals ++ currentSend locals;
          Flush.errors := Flush.errors locals |})
  | Threw message =>
      let errorMsg :=
        "batch " +:+ pretty (i + 1) +:+ "/" +:+ pretty (length batches)
        +:+ ": " +:+ message in
      let this := emit this (ConsoleError ("AIQA: Error sending " +:+ errorMsg)) in
      let this :=
        if (i + 1 <? length batches)%nat
        then pushBack this (drop (i + 1) batches)
        else this in
      (this,
       {| Flush.batches := batches; Flush.i := i + 1;
          Flush.successfullySentSpans := Flush.successfullySentSpans locals;
          Flush.errors := Flush.errors locals ++ [(i + 1, errorMsg)] |})
  end.

(** The outer [catch] block of [flush]. *)
Definition flushCatch (this : AIQASpanExporter) (message : string)
  : AIQASpanExporter * Completion :=
  let this :=
    emit this
      (ConsoleError ("AIQA: Error flushing spans to server: " +:+ message)) in
  if shutdownRequested this then (this, Threw message) else (this, Returned).

(** The message of the error [flush] throws after the loop. *)
Definition errorSummary (errors : list (nat * string)) : string :=
  "Failed to send some spans: " +:+ JsString.join "; " (map snd errors).

(** After the loop: release the keys of what was sent, throw if a batch
    failed, and let the outer [catch] decide. *)
Definition flushEnd (this : AIQASpanExporter) (locals : Flush.Locals)
  : AIQASpanExporter * Completion :=
  let this :=
    if (0 <? length (Flush.successfullySentSpans locals))%nat
    then removeSpanKeysFromTracking this (Flush.successfullySentSpans locals)
    else this in
  if (0 <? length (Flush.errors locals))%nat
  then flushCatch this (errorSummary (Flush.errors locals))
  else (this, Returned).

(** One run of [flush] with the lock free.  [network k] is what the
    [fetch] of batch [k] settles to, and [arrivals k] are the [export]
    calls the event loop runs while that send is awaited.  [flushAwait]
    is the call of [sendSpans] and its [await], [flushIteration] one turn
    of the [for] loop. *)
Definition flushAwait (network : nat -> FetchOutcome)
    (arrivals : nat -> list (list ReadableSpan.t))
    (this : AIQASpanExporter) (locals : Flush.Locals)
  : AIQASpanExporter * Completion :=
  let '(this, early) := flushSend this locals in
  (fold_left export (arrivals (Flush.i locals)) this,
   sendSpansCompletion early (network (Flush.i locals))).

Definition flushIteration (network : nat -> FetchOutcome)
    (arrivals : nat -> list (list ReadableSpan.t))
    (this : AIQASpanExporter) (locals : Flush.Locals)
  : AIQASpanExporter * Flush.Locals :=
  let '(this, sent) := flushAwait network arrivals this locals in
  flushSettle this locals sent.

Fixpoint flushLoop (network : nat -> FetchOutcome)
    (arrivals : nat -> list (list ReadableSpan.t)) (iterations : nat)
    (this : AIQASpanExporter) (locals : Flush.Locals)
  : AIQASpanExporter * Flush.Locals :=
  match iterations with
  | 0 => (this, locals)
  | S iterations =>
      let '(this, locals) := flushIteration network arrivals this locals in
      flushLoop network arrivals iterations this locals
  end.

Definition flush (network : nat -> FetchOutcome)
    (arrivals : nat -> list (list ReadableSpan.t)) (this : AIQASpanExporter)
  : AIQASpanExporter * Completion :=
  match flushBegin this with
  | (this, None) => (this, Returned)
  | (this, Some locals) =>
      let '(this, locals) :=
        flushLoop network arrivals (length (Flush.batches locals))
          this locals in
      flushEnd this locals
  end.

(** The exporter as [flush] finds it when it resumes from the [await] of
    send [k], and how that send completed. *)
Definition flushResume (network : nat -> FetchOutcome)
    (arrivals : nat -> list (list ReadableSpan.t)) (k : nat)
    (this : AIQASpanExporter) : AIQASpanExporter * Completion :=
  match flushBegin this with
  | (this, None) => (this, Returned)
  | (this, Some locals) =>
      let '(this, locals) := flushLoop network arrivals k this locals in
      flushAwait network arrivals this locals
  end.

(** *** shutdown and the auto-flush timer *)

Definition shutdown (network : nat -> FetchOutcome)
    (arrivals : nat -> list (list ReadableSpan.t)) (this : AIQASpanExporter)
  : AIQASpanExporter * Completion :=
  flush network arrivals (withShutdown this).

(** The [.catch] handler of the timer callback. *)
Definition autoFlushCatch (this : AIQASpanExporter) (flushed : Completion)
  : AIQASpanExporter * Completion :=
  match flushed with
  | Returned => (this, Returned)
  | Threw message =>
      (emit this (ConsoleError ("AIQA: Error in auto-flush: " +:+ message)),
       Returned)
  end.

(** One firing of the [setInterval] callback; the completion is what the
    callback hands back to the host's event loop. *)
Definition autoFlushTick (network : nat -> FetchOutcome)
    (arrivals : nat -> list (list ReadableSpan.t)) (this : AIQASpanExporter)
  : AIQASpanExporter * Completion :=
  if negb (shutdownRequested this) then
    let '(this, flushed) := flush network arrivals this in
    autoFlushCatch this flushed
  else (this, Returned).

(** *** flush as a task of the event loop *)

(** The [finally] block and the settling of the promise [flush]
    returned; a timer task passes through the callback's [.catch]. *)
Definition finishTask (rt : Runtime) (task : nat) (origin : Origin)
    (resolveFlush : nat) (this : AIQASpanExporter) (result : Completion)
  : Runtime :=
  let '(this, result) :=
    match origin with
    | FromTimer => autoFlushCatch this result
    | FromHost => (this, result)
    end in
  {| exporter := this; flushLock := flushLock rt;
     resolved := resolved rt ∪ {[resolveFlush]};
     promises := promises rt;
     tasks := <[task := Settled origin result]> (tasks rt) |}.

(** The loop test [i < batches.length], and what follows it. *)
Definition continueTask (rt : Runtime) (task : nat) (origin : Origin)
    (resolveFlush : nat) (this : AIQASpanExporter) (locals : Flush.Locals)
  : Runtime :=
  if (Flush.i locals <? length (Flush.batches locals))%nat then
    let '(this, early) := flushSend this locals in
    {| exporter := this; flushLock := flushLock rt;
       resolved := resolved rt; promises := promises rt;
       tasks :=
         <[task := AwaitingSend origin resolveFlush locals early]> (tasks rt) |}
  else
    let '(this, result) := flushEnd this locals in
    finishTask rt task origin resolveFlush this result.

Definition step (rt : Runtime) (event : Event) : option Runtime :=
  match event with
  | CallExport spans =>
      Some {| exporter := export (exporter rt) spans;
              flushLock := flushLock rt; resolved := resolved rt;
              promises := promises rt; tasks := tasks rt |}
  | CallFlush => Some (spawn rt (exporter rt) FromHost)
  | CallShutdown => Some (spawn rt (withShutdown (exporter rt)) FromHost)
  | TimerFires =>
      if flushTimer (exporter rt) then
        if negb (shutdownRequested (exporter rt))
        then Some (spawn rt (exporter rt) FromTimer)
        else Some rt
      else None
  | LockAcquired task =>
      match tasks rt !! task with
      | Some (AwaitingLock origin lock) =>
          if bool_decide (lock ∈ resolved rt) then
            let resolveFlush := promises rt in
            let rt :=
              {| exporter := exporter rt; flushLock := resolveFlush;
                 resolved := resolved rt; promises := S (promises rt);
                 tasks := tasks rt |} in
            match flushBegin (exporter rt) with
            | (this, None) =>
                Some (finishTask rt task origin resolveFlush this Returned)
            | (this, Some locals) =>
                Some (continueTask rt task origin resolveFlush this locals)
            end
          else None
      | _ => None
      end
  | SendSettled task outcome =>
      match tasks rt !! task with
      | Some (AwaitingSend origin resolveFlush locals early) =>
          let sent := sendSpansCompletion early outcome in
          let '(this, locals) := flushSettle (exporter rt) locals sent in
          Some (continueTask rt task origin resolveFlush this locals)
      | _ => None
      end
  end.

Fixpoint run (rt : Runtime) (events : list Event) : option Runtime :=
  match events with
  | [] => Some rt
  | event :: events =>
      match step rt event with
      | Some rt => run rt events
      | None => None
      end
  end.

End Exporter.

(** ** Sample data *)

Definition sampleSpan (traceId spanId : string) (attributes : JsValue)
  : ReadableSpan.t :=
  {| ReadableSpan.name := "operation"; ReadableSpan.kind := 0;
     ReadableSpan.parentSpanId := None;
     ReadableSpan.startTime := (0, 0)%Z; ReadableSpan.endTime := (1, 0)%Z;
     ReadableSpan.status := {| code := 0; message := None |};
     ReadableSpan.attributes := attributes; ReadableSpan.links := [];
     ReadableSpan.events := []; ReadableSpan.resourceAttributes := JsObject [];
     ReadableSpan.spanContext :=
       {| ReadableSpan.traceId := traceId; ReadableSpan.spanId := spanId;
          ReadableSpan.traceFlags := 1 |};
     ReadableSpan.duration := (1, 0)%Z; ReadableSpan.ended := true;
     ReadableSpan.instrumentationLibrary :=
       {| libraryName := "example-tracer"; version := None |} |}.

(** [n] spans of one trace with the span ids ["0"], ["1"], ... *)
Definition freshSpans (n : Z) : list ReadableSpan.t :=
  map (fun i : nat => sampleSpan "trace" (pretty i) JsNull) (seq 0 (Z.to_nat n)).

(** An exporter as tracing.ts constructs it, with the class's defaults. *)
Definition collector : AIQASpanExporter :=
  newExporter "http://localhost:3000" "key" 5.

(** A platform on which every span serializes to three mebibytes, so that
    no two spans fit the default budget of five. *)
Definition threeMebibytes (span : SerializableSpan.t) : Z := 3 * 1024 * 1024.

Definition accepted : FetchOutcome := FetchResponse true 200 "OK" None.
Definition refused : FetchOutcome := FetchRejected "fetch failed".

(** No [export] call while a send is awaited. *)
Definition quiet : nat -> list (list ReadableSpan.t) := fun _ => [].

(** The first send is refused, the later ones are accepted. *)
Definition firstRefused (k : nat) : FetchOutcome :=
  match k with
  | 0 => refused
  | _ => accepted
  end.

(** The second send is refused, the others are accepted. *)
Definition secondRefused (k : nat) : FetchOutcome :=
  match k with
  | 1 => refused
  | _ => accepted
  end.

(** One span is exported while the first send is awaited. *)
Definition oneDuringFirst (k : nat) : list (list ReadableSpan.t) :=
  match k with
  | 0 => [[sampleSpan "trace" "9" JsNull]]
  | _ => []
  end.

(** Host code exports a span and calls [flush] twice in a row; both calls
    find the initial lock resolved and resume in turn.  While the request
    of the first is on the wire, another span is exported and [flush] is
    called once more. *)
Definition threeFlushes : list Event :=
  [CallExport (freshSpans 1); CallFlush; CallFlush;
   LockAcquired 0; LockAcquired 1;
   CallExport [sampleSpan "trace" "9" JsNull]; CallFlush; LockAcquired 2].

(** ** Vocabulary of the properties *)

(** The serialized size of a batch: the sum of its entries' sizes. *)
Definition batchBytes (blobSize : SerializableSpan.t -> Z)
    (batch : list SerializableSpan.t) : Z :=
  fold_right Z.add 0%Z (map blobSize batch).

(** A span whose own size is over the budget. *)
Definition oversized (blobSize : SerializableSpan.t -> Z)
    (this : AIQASpanExporter) (span : SerializableSpan.t) : bool :=
  (maxBatchSizeBytes this <? blobSize span)%Z.

(** A batch within the budget, or a lone oversized span. *)
Definition withinBudget (blobSize : SerializableSpan.t -> Z)
    (this : AIQASpanExporter) (batch : list SerializableSpan.t) : Prop :=
  (batchBytes blobSize batch <= maxBatchSizeBytes this)%Z
  \/ exists span, batch = [span] /\ oversized blobSize this span = true.

(** The invariant of the batcher's loop for the size bound. *)
Definition sized (blobSize : SerializableSpan.t -> Z)
    (this : AIQASpanExporter) (locals : Split.Locals) : Prop :=
  Split.currentBatchSize locals = batchBytes blobSize (Split.currentBatch locals)
  /\ (Split.currentBatch locals = []
      \/ (batchBytes blobSize (Split.currentBatch locals)
          <= maxBatchSizeBytes this)%Z)
  /\ Forall (withinBudget blobSize this) (Split.batches locals).

(** The fields no method but [shutdown] assigns. *)
Definition settings (this : AIQASpanExporter) :=
  (serverUrl this, apiKey this, flushIntervalMs this, maxBatchSizeBytes this,
   maxBufferSpans this, flushTimer this, shutdownRequested this).

(** [this'] comes from [this] by steps that leave the settings alone and
    only push to the buffer and to the effects. *)
Definition extends (this this' : AIQASpanExporter) : Prop :=
  settings this' = settings this
  /\ (exists pushed, buffer this' = buffer this ++ pushed)
  /\ (exists done, effects this' = effects this ++ done).

(** The locals [flush] enters its loop with. *)
Definition firstLocals (blobSize : SerializableSpan.t -> Z)
    (this : AIQASpanExporter) : Flush.Locals :=
  {| Flush.batches := splitIntoBatches blobSize this (buffer this);
     Flush.i := 0; Flush.successfullySentSpans := []; Flush.errors := [] |}.

(** The locals of [flush] only grow along its loop. *)
Definition grows (locals locals' : Flush.Locals) : Prop :=
  (exists sent,
      Flush.successfullySentSpans locals'
      = Flush.successfullySentSpans locals ++ sent)
  /\ (exists failed, Flush.errors locals' = Flush.errors locals ++ failed).

(** The sends [from], [from + 1], ... of a task settle one after the other,
    with nothing else running in between. *)
Definition settleEvents (task : nat) (network : nat -> FetchOutcome)
    (from count : nat) : list Event :=
  map (fun k => SendSettled task (network k)) (seq from count).


(** Flatten nested appends and concatenations. *)
Ltac flat :=
  repeat first
    [ rewrite concat_app | rewrite app_nil_r | rewrite <- app_assoc
    | progress cbn [concat app] ].

(** ** Further vocabulary *)

(** The buffered spans have pairwise distinct keys, all of them tracked. *)
Definition bufferTracked (this : AIQASpanExporter) : Prop :=
  NoDup (map spanKey (buffer this))
  /\ Forall (fun span => spanKey span ∈ bufferSpanKeys this) (buffer this).

(** The string leaves of a value. *)
Fixpoint strings (v : JsValue) : list string :=
  match v with
  | JsStr s => [s]
  | JsArray items => flat_map strings items
  | JsObject entries => flat_map (fun kv => strings (snd kv)) entries
  | _ => []
  end.

(** The entries of the objects of a value, at every depth. *)
Fixpoint allEntries (v : JsValue) : list (string * JsValue) :=
  match v with
  | JsArray items => flat_map allEntries items
  | JsObject entries => flat_map (fun kv => kv :: allEntries (snd kv)) entries
  | _ => []
  end.

(** [redacts v w]: [w] is [v] with some truthy values, at any depth,
    replaced by the mask token; keys, order and lengths are those of [v]. *)
Inductive redacts : JsValue -> JsValue -> Prop :=
| redacts_same v : redacts v v
| redacts_mask v : truthy v = true -> redacts v MASK
| redacts_array items items' :
    Forall2 redacts items items' -> redacts (JsArray items) (JsArray items')
| redacts_object entries entries' :
    Forall2 (fun kv kv' => fst kv = fst kv' /\ redacts (snd kv) (snd kv'))
      entries entries' ->
    redacts (JsObject entries) (JsObject entries').

(** The requests put on the wire so far, oldest first. *)
Definition isFetch (e : Effect) : bool :=
  match e with
  | Fetch _ _ _ => true
  | _ => false
  end.

Definition requests (this : AIQASpanExporter) : list Effect :=
  List.filter isFetch (effects this).

(** The request [sendSpans] makes for a batch. *)
Definition spanRequest (this : AIQASpanExporter)
    (batch : list SerializableSpan.t) : Effect :=
  Fetch (serverUrl this +:+ "/span") ("ApiKey " +:+ apiKey this) batch.

(** Every send of the flush is accepted. *)
Definition allAccepted (network : nat -> FetchOutcome) (sends : nat) : Prop :=
  forall k, k < sends -> sendSpansResponse (network k) = Returned.

(** The batch [batch] could not have taken the first span of the batch
    [next] that follows it: that span is oversized, or [batch] is a lone
    oversized span, or the two together are over the budget. *)
Definition tight (blobSize : SerializableSpan.t -> Z) (this : AIQASpanExporter)
    (batch next : list SerializableSpan.t) : Prop :=
  match next with
  | [] => True
  | span :: _ =>
      oversized blobSize this span = true
      \/ (exists x, batch = [x] /\ oversized blobSize this x = true)
      \/ (maxBatchSizeBytes this < batchBytes blobSize batch + blobSize span)%Z
  end.

(** Each element of [l] is related to the one after it. *)
Definition adjacent {A} (R : A -> A -> Prop) (l : list A) : Prop :=
  forall i a b, l !! i = Some a -> l !! S i = Some b -> R a b.

(** The invariant of the batcher's loop for the greedy filling. *)
Definition filled (blobSize : SerializableSpan.t -> Z)
    (this : AIQASpanExporter) (locals : Split.Locals) : Prop :=
  adjacent (tight blobSize this) (Split.batches locals)
  /\ (forall batch, last (Split.batches locals) = Some batch ->
       tight blobSize this batch (Split.currentBatch locals))
  /\ (Split.currentBatch locals = [] ->
      forall batch, last (Split.batches locals) = Some batch ->
      exists x, batch = [x] /\ oversized blobSize this x = true)
  /\ Split.currentBatchSize locals
     = batchBytes blobSize (Split.currentBatch locals).

(** A platform on which every span serializes to one kibibyte. *)
Definition oneKibibyte (span : SerializableSpan.t) : Z := 1024.

(** A lock somebody will open: the promise is resolved already, or a flush
    that has a send under way holds its resolver and calls it in its
    [finally]. *)
Definition held (rt : Runtime) (lock : nat) : Prop :=
  lock ∈ resolved rt
  \/ exists task origin locals early,
       tasks rt !! task = Some (AwaitingSend origin lock locals early).

(** The lock in the field and every lock a call of [flush] waits for are
    held. *)
Definition lockServed (rt : Runtime) : Prop :=
  held rt (flushLock rt)
  /\ forall task origin lock,
       tasks rt !! task = Some (AwaitingLock origin lock) -> held rt lock.

(** A flush that awaits a send is inside its loop. *)
Definition inLoop (rt : Runtime) : Prop :=
  forall task origin resolveFlush locals early,
    tasks rt !! task = Some (AwaitingSend origin resolveFlush locals early) ->
    Flush.i locals < length (Flush.batches locals).

Definition isSettled (t : Task) : bool :=
  match t with
  | Settled _ _ => true
  | _ => false
  end.

(** Events that resume a call of [flush] under way, every send settling
    with [outcome]; no new call is made. *)
Definition resumes (outcome : FetchOutcome) (event : Event) : Prop :=
  match event with
  | LockAcquired _ => True
  | SendSettled _ settled => settled = outcome
  | _ => False
  end.

(** The runtime right after [flush] has replaced the lock by a new
    promise. *)
Definition locked (rt : Runtime) : Runtime :=
  {| exporter := exporter rt; flushLock := promises rt;
     resolved := resolved rt; promises := S (promises rt);
     tasks := tasks rt |}.

(** Every span a request carries satisfies [P]. *)
Definition bodyOK (P : SerializableSpan.t -> Prop) (e : Effect) : Prop :=
  match e with
  | Fetch _ _ body => Forall P body
  | _ => True
  end.

(** Every span the exporter holds or has sent satisfies [P]. *)
Definition pipeOK (P : SerializableSpan.t -> Prop) (this : AIQASpanExporter)
  : Prop :=
  Forall P (buffer this) /\ Forall (bodyOK P) (requests this).

Definition taskOK (P : SerializableSpan.t -> Prop) (t : Task) : Prop :=
  match t with
  | AwaitingSend _ _ locals _ => Forall (Forall P) (Flush.batches locals)
  | _ => True
  end.

(** The same of a runtime, the batches that flushes under way hold
    included. *)
Definition sendsOnly (P : SerializableSpan.t -> Prop) (rt : Runtime) : Prop :=
  pipeOK P (exporter rt) /\ Forall (taskOK P) (tasks rt).

(** Every span the event hands to [export] satisfies [Q]. *)
Definition exportsOnly (Q : ReadableSpan.t -> Prop) (event : Event) : Prop :=
  match event with
  | CallExport spans => Forall Q spans
  | _ => True
  end.


(** A platform on which every span serializes to six mebibytes, over the
    default budget of five. *)
Definition sixMebibytes (span : SerializableSpan.t) : Z := 6 * 1024 * 1024.



(** A platform on which span ["1"] serializes to six mebibytes, over the
    default budget of five, and every other span to one kibibyte. *)
Definition oneLargeSpan (span : SerializableSpan.t) : Z :=
  if String.eqb (SerializableSpan.spanId span) "1" then 6 * 1024 * 1024
  else 1024.


(** * Properties *)

(** ** Redaction *)

Section RedactionProperties.

Variable env : option string.

Lemma applyDataFilters_masks key value :
  applyDataFilters env key value = if masks env key value then MASK else value.
Proof.
  unfold applyDataFilters, masks, keyRule, valueRule.
  cbv zeta.
  destruct (truthy value); [|reflexivity].
  cbn [negb andb].
  destruct (has _ "RemovePasswords"), (JsString.includes "password" _);
    cbn [andb orb]; try reflexivity;
    destruct (has _ "RemoveJWT"), (isJWTToken value);
    cbn [andb orb]; rewrite ?orb_true_r; try reflexivity;
    destruct (has _ "RemoveAuthHeaders"), (String.eqb _ _);
    cbn [andb orb]; try reflexivity;
    destruct (has _ "RemoveAPIKeys"); cbn [andb orb]; try reflexivity;
    destruct (existsb _ _); cbn [andb orb]; try reflexivity;
    destruct (isAPIKey value); reflexivity.
Qed.

(** The empty key, under which leaves are filtered, triggers no key
    rule. *)
Lemma keyRule_empty : keyRule env "" = false.
Proof.
  unfold keyRule. cbn. rewrite !andb_false_r. reflexivity.
Qed.

(** The mask token is a fixed point of the filter under every key. *)
Lemma applyDataFilters_MASK key : applyDataFilters env key MASK = MASK.
Proof.
  rewrite applyDataFilters_masks. destruct (masks env key MASK); reflexivity.
Qed.

(** The equations of the source's [filterDataRecursive]. *)
Lemma filterDataRecursive_object entries :
  filterDataRecursive env (JsObject entries) =
  JsObject
    (map (fun kv =>
            (fst kv,
             filterDataRecursive env (applyDataFilters env (fst kv) (snd kv))))
       entries).
Proof.
  cbn [filterDataRecursive]. f_equal. apply map_ext. intros [k v]. cbn [fst snd].
  f_equal. rewrite (applyDataFilters_masks k v).
  destruct (masks env k v); reflexivity.
Qed.

Lemma filterDataRecursive_leaf data :
  match data with
  | JsBool _ | JsNumber _ | JsStr _ => True
  | _ => False
  end ->
  filterDataRecursive env data = applyDataFilters env "" data.
Proof. destruct data; intros H; try contradiction; reflexivity. Qed.

(** A value on which no rule fires under [key] is still one after it
    has been filtered. *)
Lemma masks_filterDataRecursive key data :
  masks env key data = false ->
  masks env key (filterDataRecursive env data) = false.
Proof.
  intros Hm.
  assert (Hleaf : masks env "" data = false).
  { unfold masks in *. rewrite keyRule_empty.
    destruct (truthy data); [|reflexivity].
    cbn [andb orb] in *. apply orb_false_iff in Hm. apply Hm. }
  destruct data; cbn [filterDataRecursive]; try assumption;
    rewrite applyDataFilters_masks, Hleaf; assumption.
Qed.

Lemma filterDataRecursive_idempotent data :
  filterDataRecursive env (filterDataRecursive env data)
  = filterDataRecursive env data.
Proof.
  induction data as [| |b|x|s|items IH|entries IH] using JsValue_nested_ind;
    try reflexivity.
  - cbn [filterDataRecursive]. rewrite applyDataFilters_masks.
    destruct (masks env "" (JsBool b)) eqn:E; [apply applyDataFilters_MASK|].
    cbn [filterDataRecursive]. rewrite applyDataFilters_masks, E. reflexivity.
  - cbn [filterDataRecursive]. rewrite applyDataFilters_masks.
    destruct (masks env "" (JsNumber x)) eqn:E; [apply applyDataFilters_MASK|].
    cbn [filterDataRecursive]. rewrite applyDataFilters_masks, E. reflexivity.
  - cbn [filterDataRecursive]. rewrite applyDataFilters_masks.
    destruct (masks env "" (JsStr s)) eqn:E; [apply applyDataFilters_MASK|].
    cbn [filterDataRecursive]. rewrite applyDataFilters_masks, E. reflexivity.
  - cbn [filterDataRecursive]. f_equal. rewrite map_map.
    induction IH as [|x l Hx _ IHl]; [reflexivity|].
    cbn [map]. rewrite Hx, IHl. reflexivity.
  - rewrite !filterDataRecursive_object. f_equal. rewrite map_map.
    induction IH as [|[k v] l Hv _ IHl]; [reflexivity|].
    cbn [map fst snd] in *. rewrite IHl. f_equal. f_equal.
    rewrite (applyDataFilters_masks k v).
    destruct (masks env k v) eqn:E.
    + change (filterDataRecursive env MASK) with (applyDataFilters env "" MASK).
      rewrite !applyDataFilters_MASK.
      change (filterDataRecursive env MASK) with (applyDataFilters env "" MASK).
      apply applyDataFilters_MASK.
    + rewrite applyDataFilters_masks, (masks_filterDataRecursive _ _ E).
      exact Hv.
Qed.

End RedactionProperties.

(** ** The batcher *)

Lemma Forall_snoc {A} (P : A -> Prop) (l : list A) (x : A) :
  Forall P l -> P x -> Forall P (l ++ [x]).
Proof.
  intros Hl Hx. apply Forall_app. split; [exact Hl|].
  constructor; [exact Hx|constructor].
Qed.

Section BatcherProperties.

Variable blobSize : SerializableSpan.t -> Z.
Variable this : AIQASpanExporter.

Lemma batchBytes_app b1 b2 :
  batchBytes blobSize (b1 ++ b2)
  = (batchBytes blobSize b1 + batchBytes blobSize b2)%Z.
Proof.
  unfold batchBytes. induction b1 as [|x b1 IH]; cbn; [reflexivity|].
  cbn in IH. rewrite IH. lia.
Qed.

Lemma length_pos_nonempty {A} (l : list A) :
  (0 <? length l)%nat = true <-> l <> [].
Proof.
  destruct l; cbn; split; intros H; congruence.
Qed.

(** The loop only moves spans: what is in [batches] and [currentBatch]
    afterwards is what was there before, followed by the spans read. *)
Lemma splitLoop_concat spans : forall locals,
  concat (Split.batches (splitLoop blobSize this locals spans))
    ++ Split.currentBatch (splitLoop blobSize this locals spans)
  = concat (Split.batches locals) ++ Split.currentBatch locals ++ spans.
Proof.
  induction spans as [|span rest IH]; intros locals.
  - cbn. rewrite app_nil_r. reflexivity.
  - cbn [splitLoop]. cbv zeta.
    destruct (maxBatchSizeBytes this <? blobSize span)%Z.
    + rewrite IH. cbn [Split.batches Split.currentBatch].
      destruct (0 <? length (Split.currentBatch locals))%nat eqn:E;
        cbn [Split.batches Split.currentBatch].
      * flat. reflexivity.
      * destruct (Split.currentBatch locals); [|discriminate].
        flat. reflexivity.
    + rewrite IH. cbn [Split.batches Split.currentBatch].
      destruct ((0 <? length (Split.currentBatch locals))%nat
                && (maxBatchSizeBytes this
                    <? Split.currentBatchSize locals + blobSize span)%Z);
        cbn [Split.batches Split.currentBatch].
      * flat. reflexivity.
      * flat. reflexivity.
Qed.

Lemma splitLoop_nonempty spans : forall locals,
  Forall (fun batch => batch <> []) (Split.batches locals) ->
  Forall (fun batch => batch <> [])
    (Split.batches (splitLoop blobSize this locals spans)).
Proof.
  induction spans as [|span rest IH]; intros locals Hne; [exact Hne|].
  cbn [splitLoop]. cbv zeta.
  destruct (maxBatchSizeBytes this <? blobSize span)%Z.
  - apply IH. cbn [Split.batches].
    destruct (0 <? length (Split.currentBatch locals))%nat eqn:E;
      cbn [Split.batches].
    + apply length_pos_nonempty in E.
      apply Forall_snoc; [apply Forall_snoc; assumption|discriminate].
    + apply Forall_snoc; [assumption|discriminate].
  - apply IH. cbn [Split.batches].
    destruct (0 <? length (Split.currentBatch locals))%nat eqn:E;
      cbn [andb Split.batches]; [|assumption].
    destruct (maxBatchSizeBytes this
              <? Split.currentBatchSize locals + blobSize span)%Z;
      cbn [Split.batches]; [|assumption].
    apply length_pos_nonempty in E.
    apply Forall_snoc; assumption.
Qed.

Lemma splitLoop_sized spans : forall locals,
  sized blobSize this locals ->
  sized blobSize this (splitLoop blobSize this locals spans).
Proof.
  induction spans as [|span rest IH]; intros locals (Hsz & Hcur & Hall);
    [repeat split; assumption|].
  cbn [splitLoop]. cbv zeta.
  destruct (maxBatchSizeBytes this <? blobSize span)%Z eqn:Hbig.
  - apply IH. unfold sized. cbn [Split.batches Split.currentBatch
                                 Split.currentBatchSize].
    assert (Hlone : withinBudget blobSize this [span]).
    { right. exists span. split; [reflexivity|exact Hbig]. }
    destruct (0 <? length (Split.currentBatch locals))%nat eqn:E;
      cbn [Split.batches Split.currentBatch Split.currentBatchSize].
    + apply length_pos_nonempty in E.
      split; [reflexivity|]. split; [left; reflexivity|].
      apply Forall_snoc; [apply Forall_snoc; [assumption|]|exact Hlone].
      left. destruct Hcur as [Hcur|Hcur]; [contradiction|exact Hcur].
    + split; [assumption|]. split; [assumption|].
      apply Forall_snoc; assumption.
  - apply Z.ltb_ge in Hbig.
    apply IH. unfold sized.
    destruct (0 <? length (Split.currentBatch locals))%nat eqn:E;
      cbn [andb].
    + apply length_pos_nonempty in E.
      destruct Hcur as [Hcur|Hcur]; [contradiction|].
      destruct (maxBatchSizeBytes this
                <? Split.currentBatchSize locals + blobSize span)%Z eqn:Hfull;
        cbn [Split.batches Split.currentBatch Split.currentBatchSize].
      * split; [unfold batchBytes; cbn; lia|].
        split; [right; unfold batchBytes; cbn; lia|].
        apply Forall_snoc; [assumption|]. left. exact Hcur.
      * apply Z.ltb_ge in Hfull.
        rewrite batchBytes_app.
        split; [unfold batchBytes at 2; cbn; lia|].
        split; [right; unfold batchBytes at 2; cbn; lia|assumption].
    + destruct (Split.currentBatch locals) eqn:Hc; [|discriminate].
      cbn [Split.batches Split.currentBatch Split.currentBatchSize].
      rewrite ?Hc. cbn [app].
      split; [rewrite Hsz; unfold batchBytes; cbn; lia|].
      split; [right; unfold batchBytes; cbn; lia|assumption].
Qed.

(** One warning per oversized span, in order. *)
Lemma splitLoop_warnings spans : forall locals,
  Split.warnings (splitLoop blobSize this locals spans)
  = Split.warnings locals
    ++ map (fun span => oversizedWarning this span (blobSize span))
         (List.filter (oversized blobSize this) spans).
Proof.
  induction spans as [|span rest IH]; intros locals.
  - cbn. rewrite app_nil_r. reflexivity.
  - cbn [splitLoop List.filter]. cbv zeta. unfold oversized at 1.
    destruct (maxBatchSizeBytes this <? blobSize span)%Z.
    + rewrite IH. cbn [Split.warnings map].
      destruct (0 <? length (Split.currentBatch locals))%nat;
        cbn [Split.warnings]; rewrite <- app_assoc; reflexivity.
    + rewrite IH. cbn [Split.warnings].
      destruct ((0 <? length (Split.currentBatch locals))%nat
                && (maxBatchSizeBytes this
                    <? Split.currentBatchSize locals + blobSize span)%Z);
        reflexivity.
Qed.

Lemma splitIntoBatches_concat spans :
  concat (splitIntoBatches blobSize this spans) = spans.
Proof.
  destruct spans as [|span rest]; [reflexivity|].
  unfold splitIntoBatches, splitLocals.
  set (spans := span :: rest).
  pose proof (splitLoop_concat spans Split.init) as H.
  cbn [Split.init Split.batches Split.currentBatch concat app] in H.
  destruct (0 <? length _)%nat eqn:E.
  - rewrite concat_app. cbn. rewrite app_nil_r. exact H.
  - destruct (Split.currentBatch _); [|discriminate].
    rewrite app_nil_r in H. exact H.
Qed.

Lemma splitIntoBatches_nonempty spans :
  Forall (fun batch => batch <> []) (splitIntoBatches blobSize this spans).
Proof.
  destruct spans as [|span rest]; [constructor|].
  unfold splitIntoBatches, splitLocals.
  set (spans := span :: rest).
  pose proof (splitLoop_nonempty spans Split.init (Forall_nil_2 _)) as H.
  destruct (0 <? length _)%nat eqn:E; [|exact H].
  apply length_pos_nonempty in E.
  apply Forall_snoc; assumption.
Qed.

Lemma splitIntoBatches_withinBudget spans :
  Forall (withinBudget blobSize this) (splitIntoBatches blobSize this spans).
Proof.
  destruct spans as [|span rest]; [constructor|].
  unfold splitIntoBatches, splitLocals.
  set (spans := span :: rest).
  assert (H0 : sized blobSize this Split.init).
  { repeat split; [left; reflexivity|constructor]. }
  destruct (splitLoop_sized spans Split.init H0) as (_ & Hcur & Hall).
  destruct (0 <? length _)%nat eqn:E; [|exact Hall].
  apply length_pos_nonempty in E.
  apply Forall_snoc; [exact Hall|].
  left. destruct Hcur as [Hcur|Hcur]; [contradiction|exact Hcur].
Qed.

End BatcherProperties.

(** ** The buffer *)

Section BufferProperties.

Variable env : option string.

Lemma withBufferSpanKeys_id this :
  withBufferSpanKeys this (bufferSpanKeys this) = this.
Proof. destruct this; reflexivity. Qed.

(** The loop of [addToBuffer] changes nothing of the exporter but the
    tracked keys. *)
Lemma addToBufferLoop_keys_only spans : forall this locals,
  exists keys,
    fst (addToBufferLoop env this locals spans) = withBufferSpanKeys this keys.
Proof.
  induction spans as [|span rest IH]; intros this locals.
  - exists (bufferSpanKeys this). symmetry. apply withBufferSpanKeys_id.
  - cbn [addToBufferLoop]. cbv zeta.
    destruct (maxBufferSpans this <=? Z.of_nat (length (buffer this)))%Z;
      [apply IH|].
    destruct (negb _); [|apply IH].
    destruct (IH (withBufferSpanKeys this
                    (bufferSpanKeys this
                     ∪ {[spanKey (serializeSpan env span)]}))
                {| Add.duplicatesCount := Add.duplicatesCount locals;
                   Add.droppedCount := Add.droppedCount locals;
                   Add.serializedSpans :=
                     Add.serializedSpans locals ++ [serializeSpan env span] |})
      as [keys Hkeys].
    exists keys. rewrite Hkeys. reflexivity.
Qed.

Lemma addToBufferLoop_buffer spans this locals :
  buffer (fst (addToBufferLoop env this locals spans)) = buffer this.
Proof.
  destruct (addToBufferLoop_keys_only spans this locals) as [keys ->].
  reflexivity.
Qed.

(** Against a full buffer every span of the call is dropped. *)
Lemma addToBufferLoop_full spans : forall this locals,
  (maxBufferSpans this <= Z.of_nat (length (buffer this)))%Z ->
  addToBufferLoop env this locals spans
  = (this,
     {| Add.duplicatesCount := Add.duplicatesCount locals;
        Add.droppedCount := Add.droppedCount locals + length spans;
        Add.serializedSpans := Add.serializedSpans locals |}).
Proof.
  induction spans as [|span rest IH]; intros this locals Hfull.
  - cbn. rewrite Nat.add_0_r. destruct locals; reflexivity.
  - cbn [addToBufferLoop].
    apply Z.leb_le in Hfull. rewrite Hfull. apply Z.leb_le in Hfull.
    rewrite IH by exact Hfull. cbn [Add.duplicatesCount Add.droppedCount
                                     Add.serializedSpans length].
    do 2 f_equal. lia.
Qed.

(** Below capacity at the start of the call, spans with new, pairwise
    distinct keys are all accepted, however many they are. *)
Lemma addToBufferLoop_fresh spans : forall this locals,
  (Z.of_nat (length (buffer this)) < maxBufferSpans this)%Z ->
  NoDup (map (fun span => spanKey (serializeSpan env span)) spans) ->
  Forall (fun span => spanKey (serializeSpan env span) ∉ bufferSpanKeys this)
    spans ->
  snd (addToBufferLoop env this locals spans)
  = {| Add.duplicatesCount := Add.duplicatesCount locals;
       Add.droppedCount := Add.droppedCount locals;
       Add.serializedSpans :=
         Add.serializedSpans locals ++ map (serializeSpan env) spans |}
  /\ bufferSpanKeys (fst (addToBufferLoop env this locals spans))
     = bufferSpanKeys this
       ∪ list_to_set (map (fun span => spanKey (serializeSpan env span)) spans).
Proof.
  induction spans as [|span rest IH]; intros this locals Hroom Hnodup Hnew.
  - cbn. rewrite app_nil_r. split; [destruct locals; reflexivity|].
    set_solver.
  - cbn [addToBufferLoop]. cbv zeta.
    apply Z.leb_gt in Hroom. rewrite Hroom. apply Z.leb_gt in Hroom.
    apply Forall_cons in Hnew as [Hspan Hrest].
    cbn [map] in Hnodup. apply NoDup_cons in Hnodup as [Hnotin Hnodup].
    rewrite bool_decide_eq_false_2 by exact Hspan. cbn [negb].
    destruct (IH (withBufferSpanKeys this
                    (bufferSpanKeys this
                     ∪ {[spanKey (serializeSpan env span)]}))
                {| Add.duplicatesCount := Add.duplicatesCount locals;
                   Add.droppedCount := Add.droppedCount locals;
                   Add.serializedSpans :=
                     Add.serializedSpans locals ++ [serializeSpan env span] |}
                Hroom Hnodup) as [Hloc Hkeys].
    + cbn [bufferSpanKeys withBufferSpanKeys].
      apply Forall_forall. intros other Hother.
      rewrite Forall_forall in Hrest.
      intros [Hin|Hin]%elem_of_union; [exact (Hrest _ Hother Hin)|].
      apply elem_of_singleton in Hin. apply Hnotin. rewrite <- Hin.
      apply list_elem_of_fmap. exists other. split; [reflexivity|exact Hother].
    + rewrite Hloc, Hkeys.
      cbn [Add.duplicatesCount Add.droppedCount Add.serializedSpans
             bufferSpanKeys withBufferSpanKeys map].
      rewrite <- app_assoc. split; [reflexivity|].
      cbn [list_to_set]. set_solver.
Qed.

End BufferProperties.

(** ** Flush: what every step preserves *)

Lemma extends_refl this : extends this this.
Proof.
  split; [reflexivity|]. split; exists []; rewrite app_nil_r; reflexivity.
Qed.

Lemma extends_trans a b c : extends a b -> extends b c -> extends a c.
Proof.
  intros (Hs1 & [p1 Hb1] & [d1 He1]) (Hs2 & [p2 Hb2] & [d2 He2]).
  split; [congruence|]. split.
  - exists (p1 ++ p2). rewrite Hb2, Hb1, app_assoc. reflexivity.
  - exists (d1 ++ d2). rewrite He2, He1, app_assoc. reflexivity.
Qed.

Lemma extends_emit this e : extends this (emit this e).
Proof.
  split; [reflexivity|]. split; [exists []; cbn; rewrite app_nil_r; reflexivity|].
  exists [e]. reflexivity.
Qed.

Lemma extends_withBufferSpanKeys this keys :
  extends this (withBufferSpanKeys this keys).
Proof.
  split; [reflexivity|]. split; exists []; cbn; rewrite app_nil_r; reflexivity.
Qed.

Lemma extends_push this pushed :
  extends this (withBuffer this (buffer this ++ pushed)).
Proof.
  split; [reflexivity|]. split; [exists pushed; reflexivity|].
  exists []. cbn. rewrite app_nil_r. reflexivity.
Qed.

Lemma extends_serverUrl a b : extends a b -> serverUrl b = serverUrl a.
Proof. intros [Hs _]. unfold settings in Hs. congruence. Qed.

Lemma extends_shutdownRequested a b :
  extends a b -> shutdownRequested b = shutdownRequested a.
Proof. intros [Hs _]. unfold settings in Hs. congruence. Qed.

Lemma extends_maxBatchSizeBytes a b :
  extends a b -> maxBatchSizeBytes b = maxBatchSizeBytes a.
Proof. intros [Hs _]. unfold settings in Hs. congruence. Qed.

Lemma extends_effects a b e : extends a b -> In e (effects a) -> In e (effects b).
Proof.
  intros (_ & _ & [done ->]) Hin. apply in_or_app. left. exact Hin.
Qed.

Section FlushFrames.

Variable env : option string.
Variable blobSize : SerializableSpan.t -> Z.
Variable network : nat -> FetchOutcome.
Variable arrivals : nat -> list (list ReadableSpan.t).

Lemma extends_addToBuffer this spans : extends this (addToBuffer env this spans).
Proof.
  unfold addToBuffer.
  destruct (addToBufferLoop env this Add.init spans) as [this' locals] eqn:E.
  destruct (addToBufferLoop_keys_only env spans this Add.init) as [keys Hk].
  rewrite E in Hk. cbn [fst] in Hk. subst this'.
  eapply extends_trans; [apply (extends_withBufferSpanKeys this keys)|].
  eapply extends_trans; [apply extends_push|].
  destruct (0 <? Add.droppedCount locals)%nat;
    destruct (0 <? Add.duplicatesCount locals)%nat;
    repeat first [apply extends_refl
                 | eapply extends_trans; [apply extends_emit|]].
Qed.

Lemma extends_export this spans : extends this (export env this spans).
Proof.
  destruct spans as [|span rest]; [apply extends_emit|].
  unfold export. eapply extends_trans; [apply extends_emit|].
  apply extends_addToBuffer.
Qed.

Lemma extends_exports calls : forall this,
  extends this (fold_left (export env) calls this).
Proof.
  induction calls as [|spans calls IH]; intros this; [apply extends_refl|].
  cbn [fold_left]. eapply extends_trans; [apply extends_export|apply IH].
Qed.

Lemma pushBack_buffer remaining : forall this,
  buffer (pushBack this remaining) = buffer this ++ concat remaining.
Proof.
  induction remaining as [|batch rest IH]; intros this.
  - cbn. rewrite app_nil_r. reflexivity.
  - unfold pushBack in *. cbn [fold_left concat]. rewrite IH. cbn [buffer withBuffer].
    rewrite app_assoc. reflexivity.
Qed.

Lemma extends_pushBack remaining : forall this,
  extends this (pushBack this remaining).
Proof.
  induction remaining as [|batch rest IH]; intros this; [apply extends_refl|].
  unfold pushBack in *. cbn [fold_left].
  eapply extends_trans; [apply extends_push|apply IH].
Qed.

Lemma pushBack_bufferSpanKeys remaining : forall this,
  bufferSpanKeys (pushBack this remaining) = bufferSpanKeys this.
Proof.
  induction remaining as [|batch rest IH]; intros this; [reflexivity|].
  unfold pushBack in *. cbn [fold_left]. rewrite IH. reflexivity.
Qed.

Lemma extends_flushSend this locals :
  extends this (fst (flushSend this locals)).
Proof.
  unfold flushSend, sendSpansRequest.
  destruct (serverUrl this); [apply extends_refl|apply extends_emit].
Qed.

Lemma extends_flushAwait this locals :
  extends this (fst (flushAwait env network arrivals this locals)).
Proof.
  unfold flushAwait.
  pose proof (extends_flushSend this locals) as H.
  destruct (flushSend this locals) as [this' early]. cbn [fst] in *.
  eapply extends_trans; [exact H|apply extends_exports].
Qed.

(** The [catch] block of the loop pushes the batches after the failed
    one to the end of the buffer, in their order. *)
Lemma flushSettle_Threw_buffer this locals message :
  buffer (fst (flushSettle this locals (Threw message)))
  = buffer this ++ concat (drop (S (Flush.i locals)) (Flush.batches locals)).
Proof.
  unfold flushSettle. cbn [fst]. rewrite Nat.add_1_r.
  destruct (S (Flush.i locals) <? length (Flush.batches locals))%nat eqn:E.
  - rewrite pushBack_buffer. reflexivity.
  - apply Nat.ltb_ge in E. rewrite drop_ge by exact E.
    cbn. rewrite app_nil_r. reflexivity.
Qed.

Lemma flushSettle_Returned this locals :
  flushSettle this locals Returned
  = (this,
     {| Flush.batches := Flush.batches locals; Flush.i := Flush.i locals + 1;
        Flush.successfullySentSpans :=
          Flush.successfullySentSpans locals ++ currentSend locals;
        Flush.errors := Flush.errors locals |}).
Proof. reflexivity. Qed.

Lemma extends_flushSettle this locals sent :
  extends this (fst (flushSettle this locals sent)).
Proof.
  destruct sent as [|message]; [apply extends_refl|].
  unfold flushSettle. cbn [fst].
  eapply extends_trans; [apply extends_emit|].
  destruct (_ <? _)%nat; [apply extends_pushBack|apply extends_refl].
Qed.

Lemma flushSettle_locals this locals sent :
  Flush.batches (snd (flushSettle this locals sent)) = Flush.batches locals
  /\ Flush.i (snd (flushSettle this locals sent)) = S (Flush.i locals).
Proof.
  destruct sent; cbn; rewrite Nat.add_1_r; split; reflexivity.
Qed.

Lemma extends_flushIteration this locals :
  extends this (fst (flushIteration env network arrivals this locals)).
Proof.
  unfold flushIteration.
  pose proof (extends_flushAwait this locals) as H.
  destruct (flushAwait env network arrivals this locals) as [this' sent].
  cbn [fst] in H. eapply extends_trans; [exact H|apply extends_flushSettle].
Qed.

Lemma flushIteration_locals this locals :
  Flush.batches (snd (flushIteration env network arrivals this locals))
  = Flush.batches locals
  /\ Flush.i (snd (flushIteration env network arrivals this locals))
     = S (Flush.i locals).
Proof.
  unfold flushIteration.
  destruct (flushAwait env network arrivals this locals) as [this' sent].
  apply flushSettle_locals.
Qed.

Lemma extends_flushLoop iterations : forall this locals,
  extends this (fst (flushLoop env network arrivals iterations this locals)).
Proof.
  induction iterations as [|n IH]; intros this locals; [apply extends_refl|].
  cbn [flushLoop].
  pose proof (extends_flushIteration this locals) as H.
  destruct (flushIteration env network arrivals this locals) as [this' locals'].
  cbn [fst] in H. eapply extends_trans; [exact H|apply IH].
Qed.

Lemma flushLoop_locals iterations : forall this locals,
  Flush.batches (snd (flushLoop env network arrivals iterations this locals))
  = Flush.batches locals
  /\ Flush.i (snd (flushLoop env network arrivals iterations this locals))
     = Flush.i locals + iterations.
Proof.
  induction iterations as [|n IH]; intros this locals.
  - cbn. split; [reflexivity|lia].
  - cbn [flushLoop].
    pose proof (flushIteration_locals this locals) as [Hb Hi].
    destruct (flushIteration env network arrivals this locals) as [this' locals'].
    cbn [snd] in Hb, Hi. destruct (IH this' locals') as [Hb' Hi'].
    rewrite Hb', Hi', Hb, Hi. split; [reflexivity|lia].
Qed.

(** Running [a + b] turns is running [a] turns, then [b]. *)
Lemma flushLoop_add a b : forall this locals,
  flushLoop env network arrivals (a + b) this locals
  = let '(this, locals) := flushLoop env network arrivals a this locals in
    flushLoop env network arrivals b this locals.
Proof.
  induction a as [|a IH]; intros this locals; [reflexivity|].
  cbn [Nat.add flushLoop].
  destruct (flushIteration env network arrivals this locals) as [this' locals'].
  apply IH.
Qed.

End FlushFrames.

(** ** Flush *)

Section FlushProperties.

Variable env : option string.
Variable blobSize : SerializableSpan.t -> Z.
Variable network : nat -> FetchOutcome.
Variable arrivals : nat -> list (list ReadableSpan.t).

(** The batcher reads nothing of the exporter but the byte budget. *)
Lemma splitLoop_budget a b spans : forall locals,
  maxBatchSizeBytes a = maxBatchSizeBytes b ->
  splitLoop blobSize a locals spans = splitLoop blobSize b locals spans.
Proof.
  induction spans as [|span rest IH]; intros locals Heq; [reflexivity|].
  cbn [splitLoop]. unfold oversizedWarning. rewrite Heq.
  cbv zeta. destruct (maxBatchSizeBytes b <? blobSize span)%Z;
    apply IH; exact Heq.
Qed.

Lemma splitIntoBatches_budget a b spans :
  maxBatchSizeBytes a = maxBatchSizeBytes b ->
  splitIntoBatches blobSize a spans = splitIntoBatches blobSize b spans.
Proof.
  intros Heq. unfold splitIntoBatches, splitLocals.
  rewrite (splitLoop_budget a b spans Split.init Heq). reflexivity.
Qed.

Lemma extends_emits es : forall this, extends this (fold_left emit es this).
Proof.
  induction es as [|e es IH]; intros this; [apply extends_refl|].
  cbn [fold_left]. eapply extends_trans; [apply extends_emit|apply IH].
Qed.

Lemma emits_bufferSpanKeys es : forall this,
  bufferSpanKeys (fold_left emit es this) = bufferSpanKeys this.
Proof.
  induction es as [|e es IH]; intros this; [reflexivity|].
  cbn [fold_left]. rewrite IH. reflexivity.
Qed.

(** With spans to send and a server to send them to, [flush] drains the
    buffer and enters its loop. *)
Lemma emits_buffer es : forall this,
  buffer (fold_left emit es this) = buffer this.
Proof.
  induction es as [|e es IH]; intros this; [reflexivity|].
  cbn [fold_left]. rewrite IH. reflexivity.
Qed.

Lemma flushBegin_loop this :
  buffer this <> [] -> serverUrl this <> "" ->
  exists drained,
    flushBegin blobSize this = (drained, Some (firstLocals blobSize this))
    /\ buffer drained = []
    /\ bufferSpanKeys drained = bufferSpanKeys this
    /\ settings drained = settings this.
Proof.
  intros Hbuf Hurl. unfold flushBegin, firstLocals. cbv zeta.
  destruct (buffer this) as [|span rest] eqn:Eb; [contradiction|].
  cbn [serverUrl withBuffer].
  destruct (serverUrl this) as [|c url] eqn:Eu; [contradiction|].
  rewrite (splitIntoBatches_budget (withBuffer this []) this) by reflexivity.
  eexists. split; [reflexivity|].
  set (warned := fold_left emit _ _).
  assert (Hs : settings warned = settings this).
  { destruct (extends_emits
                (splitWarnings blobSize (withBuffer this []) (span :: rest))
                (withBuffer this [])) as [Hs _]. exact Hs. }
  assert (Hk : bufferSpanKeys warned = bufferSpanKeys this).
  { unfold warned. rewrite emits_bufferSpanKeys. reflexivity. }
  assert (Hb : buffer warned = []).
  { unfold warned. rewrite emits_buffer. reflexivity. }
  destruct (1 <? length _)%nat; cbn [buffer bufferSpanKeys emit];
    repeat split; assumption.
Qed.

(** [removeSpanKeysFromTracking] deletes the keys of the spans it is
    given and touches nothing else. *)
Lemma removeSpanKeysFromTracking_spec spans : forall this,
  removeSpanKeysFromTracking this spans
  = withBufferSpanKeys this
      (bufferSpanKeys this ∖ list_to_set (map spanKey spans)).
Proof.
  induction spans as [|span rest IH]; intros this.
  - cbn. rewrite difference_empty_L. symmetry. apply withBufferSpanKeys_id.
  - cbn [removeSpanKeysFromTracking map list_to_set]. rewrite IH.
    cbn [bufferSpanKeys withBufferSpanKeys].
    replace (bufferSpanKeys this ∖ {[spanKey span]}
             ∖ list_to_set (map spanKey rest))
      with (bufferSpanKeys this
            ∖ ({[spanKey span]} ∪ list_to_set (map spanKey rest)))
      by set_solver.
    destruct this; reflexivity.
Qed.

(** What the end of [flush] does: the buffer is left alone, the keys of
    the spans sent are released, and the outcome depends on [errors]. *)
Lemma flushEnd_buffer this locals :
  buffer (fst (flushEnd this locals)) = buffer this.
Proof.
  unfold flushEnd, flushCatch. cbv zeta.
  rewrite removeSpanKeysFromTracking_spec.
  destruct (0 <? length (Flush.successfullySentSpans locals))%nat;
    destruct (0 <? length (Flush.errors locals))%nat; cbn;
    try destruct (shutdownRequested this); reflexivity.
Qed.

Lemma flushEnd_bufferSpanKeys this locals :
  bufferSpanKeys (fst (flushEnd this locals))
  = bufferSpanKeys this
    ∖ list_to_set (map spanKey (Flush.successfullySentSpans locals)).
Proof.
  unfold flushEnd, flushCatch. cbv zeta.
  rewrite removeSpanKeysFromTracking_spec.
  destruct (Flush.successfullySentSpans locals) as [|span rest] eqn:E;
    destruct (Flush.errors locals) as [|e es];
    cbn [length Nat.ltb Nat.leb fst];
    try destruct (shutdownRequested _);
    cbn [fst bufferSpanKeys withBufferSpanKeys emit map list_to_set];
    try rewrite difference_empty_L; reflexivity.
Qed.


(** The request of a send goes out whenever the server URL is set, and
    the send then completes as the response says. *)
Lemma flushAwait_sent this locals :
  serverUrl this <> "" ->
  snd (flushAwait env network arrivals this locals)
  = sendSpansResponse (network (Flush.i locals))
  /\ In (currentSend locals)
       (fetched (fst (flushAwait env network arrivals this locals))).
Proof.
  intros Hurl. unfold flushAwait, flushSend, sendSpansRequest.
  destruct (serverUrl this) as [|c url] eqn:Eu; [contradiction|].
  cbn [fst snd sendSpansCompletion]. split; [reflexivity|].
  set (sent := emit this _).
  destruct (extends_exports env (arrivals (Flush.i locals)) sent)
    as (_ & _ & [done Hdone]).
  unfold fetched. rewrite Hdone. unfold sent. cbn [effects emit].
  rewrite !flat_map_app. cbn [flat_map].
  apply in_or_app. left. apply in_or_app. right. left. reflexivity.
Qed.

Lemma extends_fetched a b body :
  extends a b -> In body (fetched a) -> In body (fetched b).
Proof.
  intros (_ & _ & [done Hdone]). unfold fetched. rewrite Hdone, flat_map_app.
  intros Hin. apply in_or_app. left. exact Hin.
Qed.

Lemma grows_refl locals : grows locals locals.
Proof. split; exists []; rewrite app_nil_r; reflexivity. Qed.

Lemma grows_trans a b c : grows a b -> grows b c -> grows a c.
Proof.
  intros [[s1 H1] [f1 G1]] [[s2 H2] [f2 G2]]. split.
  - exists (s1 ++ s2). rewrite H2, H1, app_assoc. reflexivity.
  - exists (f1 ++ f2). rewrite G2, G1, app_assoc. reflexivity.
Qed.

Lemma grows_flushSettle this locals sent :
  grows locals (snd (flushSettle this locals sent)).
Proof.
  destruct sent; cbn; split; eexists; try reflexivity;
    rewrite app_nil_r; reflexivity.
Qed.

Lemma grows_flushLoop iterations : forall this locals,
  grows locals (snd (flushLoop env network arrivals iterations this locals)).
Proof.
  induction iterations as [|n IH]; intros this locals; [apply grows_refl|].
  cbn [flushLoop]. unfold flushIteration.
  destruct (flushAwait env network arrivals this locals) as [this' sent].
  pose proof (grows_flushSettle this' locals sent) as H.
  destruct (flushSettle this' locals sent) as [this'' locals''].
  cbn [snd] in H. eapply grows_trans; [exact H|apply IH].
Qed.

Lemma extends_flushEnd this locals :
  extends this (fst (flushEnd this locals)).
Proof.
  unfold flushEnd, flushCatch. cbv zeta.
  rewrite removeSpanKeysFromTracking_spec.
  set (released := if (0 <? _)%nat then _ else this).
  assert (H : extends this released).
  { unfold released. destruct (0 <? _)%nat;
      [apply extends_withBufferSpanKeys|apply extends_refl]. }
  destruct (0 <? length (Flush.errors locals))%nat; [|exact H].
  destruct (shutdownRequested _); cbn [fst];
    (eapply extends_trans; [exact H|apply extends_emit]).
Qed.

(** [flush] seen from its send number [k]: the loop has run [k] turns
    ([thisK], [localsK]), runs turn [k], and what it reaches in the end
    ([thisL], [localsL]) extends what turn [k] leaves. *)
Lemma flush_around_send this k :
  buffer this <> [] -> serverUrl this <> "" ->
  k < length (splitIntoBatches blobSize this (buffer this)) ->
  exists thisK localsK thisL localsL,
    flushResume env blobSize network arrivals k this
    = flushAwait env network arrivals thisK localsK
    /\ Flush.i localsK = k
    /\ Flush.batches localsK = splitIntoBatches blobSize this (buffer this)
    /\ settings thisK = settings this
    /\ flush env blobSize network arrivals this = flushEnd thisL localsL
    /\ extends (fst (flushIteration env network arrivals thisK localsK)) thisL
    /\ grows (snd (flushIteration env network arrivals thisK localsK)) localsL
    /\ settings thisL = settings this.
Proof.
  intros Hbuf Hurl Hk.
  destruct (flushBegin_loop this Hbuf Hurl) as (drained & Hbegin & _ & _ & Hs).
  unfold flushResume, flush. rewrite Hbegin.
  set (bs := splitIntoBatches blobSize this (buffer this)) in *.
  change (Flush.batches (firstLocals blobSize this)) with bs.
  replace (length bs) with (k + S (length bs - k - 1)) by lia.
  rewrite flushLoop_add.
  pose proof (extends_flushLoop env network arrivals k drained
                (firstLocals blobSize this)) as HextK.
  pose proof (flushLoop_locals env network arrivals k drained
                (firstLocals blobSize this)) as [HbK HiK].
  destruct (flushLoop env network arrivals k drained (firstLocals blobSize this))
    as [thisK localsK].
  cbn [fst snd] in *. cbn [flushLoop].
  pose proof (extends_flushLoop env network arrivals (length bs - k - 1)
                (fst (flushIteration env network arrivals thisK localsK))
                (snd (flushIteration env network arrivals thisK localsK)))
    as HextL.
  pose proof (grows_flushLoop (length bs - k - 1)
                (fst (flushIteration env network arrivals thisK localsK))
                (snd (flushIteration env network arrivals thisK localsK)))
    as HgrowL.
  pose proof (extends_flushIteration env network arrivals thisK localsK)
    as HextI.
  destruct (flushIteration env network arrivals thisK localsK)
    as [this1 locals1] eqn:EI.
  cbn [fst snd] in *.
  destruct (flushLoop env network arrivals (length bs - k - 1) this1 locals1)
    as [thisL localsL] eqn:EL.
  cbn [fst snd] in *.
  exists thisK, localsK, thisL, localsL. rewrite EI. cbn [fst snd].
  assert (HsK : settings thisK = settings this).
  { destruct HextK as [HsK _]. congruence. }
  split; [reflexivity|]. split; [exact HiK|]. split; [exact HbK|].
  split; [exact HsK|]. split; [reflexivity|].
  split; [exact HextL|]. split; [exact HgrowL|].
  destruct HextI as [HsI _]. destruct HextL as [HsL _]. congruence.
Qed.

Lemma settings_serverUrl a b :
  settings a = settings b -> serverUrl a = serverUrl b.
Proof. unfold settings. congruence. Qed.

Lemma settings_shutdownRequested a b :
  settings a = settings b -> shutdownRequested a = shutdownRequested b.
Proof. unfold settings. congruence. Qed.


(** Every batch is put on the wire, whatever happened to the ones
    before it. *)
Lemma flush_fetches_all this j :
  buffer this <> [] -> serverUrl this <> "" ->
  j < length (splitIntoBatches blobSize this (buffer this)) ->
  In (nth j (splitIntoBatches blobSize this (buffer this)) [])
    (fetched (fst (flush env blobSize network arrivals this))).
Proof.
  intros Hbuf Hurl Hj.
  destruct (flush_around_send this j Hbuf Hurl Hj)
    as (thisK & localsK & thisL & localsL
        & _ & Hi & Hb & HsK & Hflush & Hext & _ & _).
  rewrite Hflush.
  eapply extends_fetched; [apply extends_flushEnd|].
  eapply extends_fetched; [exact Hext|].
  unfold flushIteration.
  assert (HurlK : serverUrl thisK <> "").
  { rewrite (settings_serverUrl _ _ HsK). exact Hurl. }
  destruct (flushAwait_sent thisK localsK HurlK) as [_ Hin].
  destruct (flushAwait env network arrivals thisK localsK) as [thisA sent].
  cbn [fst] in *.
  eapply extends_fetched; [apply extends_flushSettle|].
  unfold currentSend in Hin. rewrite Hi, Hb in Hin. exact Hin.
Qed.



End FlushProperties.

(** ** The buffer, continued *)

Section AppendProperties.

Variable env : option string.

Lemma addToBuffer_buffer this spans :
  buffer (addToBuffer env this spans)
  = buffer this ++ Add.serializedSpans (addToBufferCounts env this spans).
Proof.
  unfold addToBuffer, addToBufferCounts.
  pose proof (addToBufferLoop_buffer env spans this Add.init) as Hb.
  destruct (addToBufferLoop env this Add.init spans) as [this' locals].
  cbn [fst snd] in *.
  destruct (0 <? Add.droppedCount locals)%nat;
    destruct (0 <? Add.duplicatesCount locals)%nat;
    cbn [buffer emit withBuffer]; rewrite Hb; reflexivity.
Qed.

Lemma addToBuffer_bufferSpanKeys this spans :
  bufferSpanKeys (addToBuffer env this spans)
  = bufferSpanKeys (fst (addToBufferLoop env this Add.init spans)).
Proof.
  unfold addToBuffer.
  destruct (addToBufferLoop env this Add.init spans) as [this' locals].
  cbn [fst].
  destruct (0 <? Add.droppedCount locals)%nat;
    destruct (0 <? Add.duplicatesCount locals)%nat; reflexivity.
Qed.

(** [addToBuffer] prints to the console and does nothing else to the
    outside. *)
Lemma addToBuffer_effects this spans :
  exists logged,
    effects (addToBuffer env this spans) = effects this ++ logged
    /\ Forall (fun e => match e with
                        | ConsoleWarn _ | ConsoleDebug _ => True
                        | _ => False
                        end) logged.
Proof.
  unfold addToBuffer.
  destruct (addToBufferLoop_keys_only env spans this Add.init) as [keys Hk].
  destruct (addToBufferLoop env this Add.init spans) as [this' locals].
  cbn [fst] in Hk. subst this'.
  destruct (0 <? Add.droppedCount locals)%nat;
    destruct (0 <? Add.duplicatesCount locals)%nat;
    cbn [effects emit withBuffer withBufferSpanKeys];
    [eexists [_; _] | eexists [_] | eexists [_] | exists []];
    (split; [rewrite ?app_nil_r, <- ?app_assoc; reflexivity|]);
    repeat constructor.
Qed.

Lemma export_addToBuffer this spans :
  export env this spans
  = addToBuffer env (emit this (ResultCallback SUCCESS)) spans.
Proof.
  destruct spans as [|span rest]; [|reflexivity].
  cbn. destruct this; cbn. rewrite app_nil_r. reflexivity.
Qed.

(** What the loop of [addToBuffer] decides does not depend on the
    effects so far. *)
Lemma addToBufferLoop_emit e spans : forall this locals,
  addToBufferLoop env (emit this e) locals spans
  = (emit (fst (addToBufferLoop env this locals spans)) e,
     snd (addToBufferLoop env this locals spans)).
Proof.
  induction spans as [|span rest IH]; intros this locals; [reflexivity|].
  cbn [addToBufferLoop buffer maxBufferSpans bufferSpanKeys emit]. cbv zeta.
  destruct (maxBufferSpans this <=? Z.of_nat (length (buffer this)))%Z;
    [apply IH|].
  destruct (negb _); [|apply IH].
  rewrite <- IH. reflexivity.
Qed.

Lemma export_buffer this spans :
  buffer (export env this spans)
  = buffer this ++ Add.serializedSpans (addToBufferCounts env this spans).
Proof.
  rewrite export_addToBuffer, addToBuffer_buffer.
  unfold addToBufferCounts. rewrite addToBufferLoop_emit. reflexivity.
Qed.

Lemma export_bufferSpanKeys this spans :
  bufferSpanKeys (export env this spans)
  = bufferSpanKeys (fst (addToBufferLoop env this Add.init spans)).
Proof.
  rewrite export_addToBuffer, addToBuffer_bufferSpanKeys.
  rewrite addToBufferLoop_emit. reflexivity.
Qed.

Lemma freshSpans_keys n :
  map (fun span => spanKey (serializeSpan env span)) (freshSpans n)
  = map (fun i : nat => "trace:" +:+ pretty i) (seq 0 (Z.to_nat n)).
Proof. unfold freshSpans. rewrite map_map. reflexivity. Qed.

Lemma freshSpans_NoDup n :
  NoDup (map (fun span => spanKey (serializeSpan env span)) (freshSpans n)).
Proof.
  rewrite freshSpans_keys. apply NoDup_fmap_2; [|apply NoDup_seq].
  intros i j Heq. apply (inj pretty). exact (String.app_inj "trace:" _ _ Heq).
Qed.

Lemma freshSpans_length n : length (freshSpans n) = Z.to_nat n.
Proof. unfold freshSpans. rewrite length_map, length_seq. reflexivity. Qed.

(** A new exporter takes any number of fresh spans in one call. *)
Lemma addToBuffer_freshSpans n :
  Add.serializedSpans (addToBufferCounts env collector (freshSpans n))
  = map (serializeSpan env) (freshSpans n)
  /\ Add.droppedCount (addToBufferCounts env collector (freshSpans n)) = 0
  /\ bufferSpanKeys (fst (addToBufferLoop env collector Add.init (freshSpans n)))
     = list_to_set
         (map (fun span => spanKey (serializeSpan env span)) (freshSpans n)).
Proof.
  unfold addToBufferCounts.
  destruct (addToBufferLoop_fresh env (freshSpans n) collector Add.init)
    as [Hloc Hkeys].
  - cbn. lia.
  - apply freshSpans_NoDup.
  - apply Forall_forall. intros span _. cbn. set_solver.
  - rewrite Hloc, Hkeys. cbn [Add.serializedSpans Add.droppedCount Add.init app].
    split; [reflexivity|]. split; [reflexivity|].
    cbn [bufferSpanKeys collector newExporter]. set_solver.
Qed.

Lemma export_freshSpans n :
  (0 <= n)%Z ->
  maxBufferSpans (export env collector (freshSpans n)) = 10000%Z
  /\ Z.of_nat (length (buffer (export env collector (freshSpans n)))) = n
  /\ Add.droppedCount (addToBufferCounts env collector (freshSpans n)) = 0
  /\ bufferSpanKeys (export env collector (freshSpans n))
     = list_to_set (map (fun i : nat => "trace:" +:+ pretty i)
                      (seq 0 (Z.to_nat n))).
Proof.
  intros Hn.
  destruct (addToBuffer_freshSpans n) as (Hser & Hdrop & Hkeys).
  pose proof (freshSpans_length n) as Hlen.
  pose proof (freshSpans_keys n) as Hk.
  generalize dependent (freshSpans n). intros spans Hser Hdrop Hkeys Hlen Hk.
  split.
  - destruct (extends_export env collector spans) as [Hs _].
    unfold settings in Hs. injection Hs as _ _ _ _ Hmax _ _.
    rewrite Hmax. reflexivity.
  - split; [|split; [exact Hdrop|]].
    + rewrite export_buffer, Hser. cbn [buffer collector newExporter app].
      rewrite length_map, Hlen. lia.
    + rewrite export_bufferSpanKeys, Hkeys, Hk. reflexivity.
Qed.

End AppendProperties.

(** ** Flush, continued *)

Section FlushOutcomes.

Variable env : option string.
Variable blobSize : SerializableSpan.t -> Z.
Variable network : nat -> FetchOutcome.
Variable arrivals : nat -> list (list ReadableSpan.t).




(** *** The event loop: a timer task never settles with an error *)







End FlushOutcomes.

(** ** One flush alone on the event loop is [flush] *)

Section LoneFlush.

Variable env : option string.
Variable blobSize : SerializableSpan.t -> Z.
Variable network : nat -> FetchOutcome.

Lemma flushIteration_quiet this locals :
  flushIteration env network quiet this locals
  = flushSettle (fst (flushSend this locals)) locals
      (sendSpansCompletion (snd (flushSend this locals))
         (network (Flush.i locals))).
Proof.
  unfold flushIteration, flushAwait.
  destruct (flushSend this locals) as [this' early]. reflexivity.
Qed.

(** A task that is alone and has send [i] under way runs the rest of the
    loop of [flush] and its end. *)
Lemma lone_task_loop remaining : forall rt this locals origin resolveFlush,
  tasks rt
  = [AwaitingSend origin resolveFlush locals (snd (flushSend this locals))] ->
  exporter rt = fst (flushSend this locals) ->
  Flush.i locals + S remaining = length (Flush.batches locals) ->
  exists rt',
    run env blobSize rt
      (settleEvents 0 network (Flush.i locals) (S remaining)) = Some rt'
    /\ rt' = finishTask rt 0 origin resolveFlush
               (fst (flushEnd
                       (fst (flushLoop env network quiet (S remaining)
                               this locals))
                       (snd (flushLoop env network quiet (S remaining)
                               this locals))))
               (snd (flushEnd
                       (fst (flushLoop env network quiet (S remaining)
                               this locals))
                       (snd (flushLoop env network quiet (S remaining)
                               this locals)))).
Proof.
  induction remaining as [|remaining IH];
    intros rt this locals origin resolveFlush Htasks Hexp Hi.
  - unfold settleEvents. cbn [seq map run step].
    rewrite Htasks. cbn [lookup list_lookup]. rewrite Hexp.
    cbn [flushLoop]. rewrite flushIteration_quiet.
    pose proof (flushSettle_locals (fst (flushSend this locals)) locals
                  (sendSpansCompletion (snd (flushSend this locals))
                     (network (Flush.i locals)))) as [Hb Hi'].
    destruct (flushSettle _ locals _) as [this1 locals1].
    cbn [fst snd] in *. unfold continueTask.
    assert (Hend : (Flush.i locals1 <? length (Flush.batches locals1))%nat
                   = false) by (apply Nat.ltb_ge; rewrite Hb, Hi'; lia).
    rewrite Hend.
    destruct (flushEnd this1 locals1) as [thisE result].
    eexists. split; reflexivity.
  - unfold settleEvents. cbn [seq map run step].
    rewrite Htasks. cbn [lookup list_lookup]. rewrite Hexp.
    cbn [flushLoop]. rewrite flushIteration_quiet.
    pose proof (flushSettle_locals (fst (flushSend this locals)) locals
                  (sendSpansCompletion (snd (flushSend this locals))
                     (network (Flush.i locals)))) as [Hb Hi'].
    destruct (flushSettle _ locals _) as [this1 locals1].
    cbn [fst snd] in *. unfold continueTask.
    assert (Hmore : (Flush.i locals1 <? length (Flush.batches locals1))%nat
                    = true) by (apply Nat.ltb_lt; rewrite Hb, Hi'; lia).
    rewrite Hmore.
    destruct (flushSend this1 locals1) as [this2 early2] eqn:Esend.
    set (rt1 := {| exporter := this2; flushLock := flushLock rt;
                   resolved := resolved rt; promises := promises rt;
                   tasks := <[0 := AwaitingSend origin resolveFlush locals1
                                     early2]> (tasks rt) |}).
    destruct (IH rt1 this1 locals1 origin resolveFlush) as (rt' & Hrun & Hrt').
    + unfold rt1. cbn [tasks]. rewrite Htasks, Esend. reflexivity.
    + unfold rt1. cbn [exporter]. rewrite Esend. reflexivity.
    + rewrite Hb, Hi'. lia.
    + exists rt'. unfold settleEvents in Hrun. rewrite Hi' in Hrun.
      split; [exact Hrun|].
      rewrite Hrt'. unfold finishTask, rt1. cbn [flushLock resolved promises tasks].
      rewrite Htasks. reflexivity.
Qed.

(** On its own, with nothing exported meanwhile, a call of [flush] from
    host code leaves the exporter as [flush] leaves it and settles as
    [flush] completes. *)
Lemma lone_flush_agrees this :
  buffer this <> [] -> serverUrl this <> "" ->
  exists rt,
    run env blobSize (boot this)
      (CallFlush :: LockAcquired 0
       :: settleEvents 0 network 0
            (length (splitIntoBatches blobSize this (buffer this))))
    = Some rt
    /\ exporter rt = fst (flush env blobSize network quiet this)
    /\ tasks rt = [Settled FromHost (snd (flush env blobSize network quiet this))].
Proof.
  intros Hbuf Hurl.
  destruct (flushBegin_loop blobSize this Hbuf Hurl)
    as (drained & Hbegin & _ & _ & _).
  assert (Hn : exists n,
             length (splitIntoBatches blobSize this (buffer this)) = S n).
  { destruct (splitIntoBatches blobSize this (buffer this)) as [|b bs] eqn:E.
    - pose proof (splitIntoBatches_concat blobSize this (buffer this)) as Hc.
      rewrite E in Hc. cbn in Hc. symmetry in Hc. contradiction.
    - exists (length bs). reflexivity. }
  destruct Hn as [n Hn].
  cbn [run step boot spawn exporter tasks app flushLock resolved promises
         lookup list_lookup].
  rewrite bool_decide_eq_true_2 by set_solver.
  rewrite Hbegin. unfold continueTask.
  cbn [firstLocals Flush.i Flush.batches]. rewrite Hn. cbn [Nat.ltb Nat.leb].
  destruct (flushSend drained (firstLocals blobSize this)) as [sent early]
    eqn:Esend.
  match goal with
  | |- exists rt, run _ _ ?rt0 _ = _ /\ _ =>
      destruct (lone_task_loop n rt0 drained (firstLocals blobSize this)
                  FromHost 1) as (rt & Hrun & Hrt)
  end.
  - cbn [tasks]. rewrite Esend. reflexivity.
  - cbn [exporter]. rewrite Esend. reflexivity.
  - cbn [firstLocals Flush.i Flush.batches]. rewrite Hn. reflexivity.
  - exists rt. split; [exact Hrun|].
    unfold flush. rewrite Hbegin.
    cbn [firstLocals Flush.batches]. rewrite Hn.
    rewrite Hrt. unfold finishTask.
    fold (firstLocals blobSize this).
    destruct (flushLoop env network quiet (S n) drained
                (firstLocals blobSize this)) as [thisL localsL].
    cbn [fst snd]. destruct (flushEnd thisL localsL) as [thisE result].
    split; reflexivity.
Qed.

End LoneFlush.

(** ** The claims *)

(** C7. Redaction is idempotent: for every value, however nested, and every
    setting of the enabled filters, filtering twice gives what filtering
    once gives; the mask token is itself left alone under every key, so a
    masked value is not matched into another mask. *)
Theorem redaction_idempotent (env : option string) (data : JsValue) :
  filterDataRecursive env (filterDataRecursive env data)
  = filterDataRecursive env data
  /\ (forall key, applyDataFilters env key MASK = MASK)
  /\ filterDataRecursive env MASK = MASK.
Proof.
  split; [apply filterDataRecursive_idempotent|].
  split; [intros key; apply applyDataFilters_MASK|].
  apply (applyDataFilters_MASK env "").
Qed.

(** C5. The batches of [splitIntoBatches], concatenated, are the input
    list: the same entries in the same order, none lost or repeated; no
    batch is empty, and an empty input gives no batch. *)
Theorem splitIntoBatches_preserves_order (blobSize : SerializableSpan.t -> Z)
    (this : AIQASpanExporter) (spans : list SerializableSpan.t) :
  concat (splitIntoBatches blobSize this spans) = spans
  /\ Forall (fun batch => batch <> []) (splitIntoBatches blobSize this spans)
  /\ splitIntoBatches blobSize this [] = [].
Proof.
  split; [apply splitIntoBatches_concat|].
  split; [apply splitIntoBatches_nonempty|reflexivity].
Qed.

(** C1, at an input the code can receive: a new exporter, with the class's
    [maxBufferSpans] of 10000, is handed 10001 spans with distinct ids in
    one [export] call.  The capacity test reads [this.buffer.length], which
    the loop does not change, so no span is dropped and the buffer ends up
    longer than its maximum. *)
Theorem export_exceeds_maxBufferSpans :
  let this := export None collector (freshSpans 10001) in
  maxBufferSpans this = 10000%Z
  /\ Z.of_nat (length (buffer this)) = 10001%Z
  /\ Add.droppedCount (addToBufferCounts None collector (freshSpans 10001)) = 0.
Proof.
  cbv zeta.
  destruct (export_freshSpans None 10001) as (Hmax & Hlen & Hdrop & _); [lia|].
  split; [exact Hmax|]. split; [exact Hlen|exact Hdrop].
Qed.


(** C10. Every call of [export] invokes the result callback exactly once,
    with SUCCESS, before it touches the buffer: the callback is the first
    effect of the call, what follows is console output of [addToBuffer],
    and the buffer and the tracked keys end up as [addToBuffer] leaves
    them, whatever is dropped or skipped. *)
Theorem export_calls_back_once (env : option string) (this : AIQASpanExporter)
    (spans : list ReadableSpan.t) :
  export env this spans
  = addToBuffer env (emit this (ResultCallback SUCCESS)) spans
  /\ exists logged,
       effects (export env this spans)
       = effects this ++ ResultCallback SUCCESS :: logged
       /\ Forall (fun e => match e with
                           | ConsoleWarn _ | ConsoleDebug _ => True
                           | _ => False
                           end) logged.
Proof.
  split; [apply export_addToBuffer|].
  rewrite export_addToBuffer.
  destruct (addToBuffer_effects env (emit this (ResultCallback SUCCESS)) spans)
    as (logged & Heff & Hlog).
  exists logged. split; [|exact Hlog].
  rewrite Heff. cbn [effects emit]. rewrite <- app_assoc. reflexivity.
Qed.


(** C9, at a schedule the event loop can run: two calls of [flush] made in
    a row both pass the initial lock; the second, finding the buffer
    drained, returns and resolves the lock it installed while the request
    of the first is still on the wire, and a third call then drains and
    sends at the same time.  Tasks 0 and 2 each hold a drained batch with
    its request out and neither has settled. *)
Theorem two_flushes_in_flight :
  exists rt,
    run None threeMebibytes (boot collector) threeFlushes = Some rt
    /\ sending rt = [0; 2]
    /\ fetched (exporter rt)
       = [[serializeSpan None (sampleSpan "trace" "0" JsNull)];
          [serializeSpan None (sampleSpan "trace" "9" JsNull)]].
Proof. eexists. vm_compute. repeat split; reflexivity. Qed.

(** * Further properties of the code *)

(** ** addToBuffer and export *)

Section AppendExtras.

Variable env : option string.

Lemma addToBufferLoop_counts spans : forall this locals,
  let after := snd (addToBufferLoop env this locals spans) in
  Add.duplicatesCount after + Add.droppedCount after
  + length (Add.serializedSpans after)
  = Add.duplicatesCount locals + Add.droppedCount locals
    + length (Add.serializedSpans locals) + length spans.
Proof.
  induction spans as [|span rest IH]; intros this locals; cbv zeta.
  - cbn. lia.
  - cbn [addToBufferLoop]. cbv zeta.
    destruct (maxBufferSpans this <=? Z.of_nat (length (buffer this)))%Z.
    + rewrite IH. cbn [Add.duplicatesCount Add.droppedCount
                         Add.serializedSpans length]. lia.
    + destruct (negb _); rewrite IH;
        cbn [Add.duplicatesCount Add.droppedCount Add.serializedSpans length];
        rewrite ?length_app; cbn [length]; lia.
Qed.

(** What the loop accepts: a sublist of the serialized input, with
    pairwise distinct keys that were not tracked, all tracked afterwards. *)
Lemma addToBufferLoop_accepted spans : forall this locals,
  exists accepted,
    Add.serializedSpans (snd (addToBufferLoop env this locals spans))
    = Add.serializedSpans locals ++ accepted
    /\ sublist accepted (map (serializeSpan env) spans)
    /\ NoDup (map spanKey accepted)
    /\ Forall (fun span => spanKey span ∉ bufferSpanKeys this) accepted
    /\ bufferSpanKeys (fst (addToBufferLoop env this locals spans))
       = bufferSpanKeys this ∪ list_to_set (map spanKey accepted).
Proof.
  induction spans as [|span rest IH]; intros this locals.
  - exists []. cbn. rewrite app_nil_r.
    repeat split; try constructor. set_solver.
  - cbn [addToBufferLoop map]. cbv zeta.
    destruct (maxBufferSpans this <=? Z.of_nat (length (buffer this)))%Z.
    { destruct (IH this
                  {| Add.duplicatesCount := Add.duplicatesCount locals;
                     Add.droppedCount := S (Add.droppedCount locals);
                     Add.serializedSpans := Add.serializedSpans locals |})
        as (accepted & Hser & Hsub & Hnd & Hnew & Hkeys).
      exists accepted. repeat split; try assumption.
      apply sublist_cons. exact Hsub. }
    destruct (bool_decide _) eqn:Etracked; cbn [negb].
    { destruct (IH this
                  {| Add.duplicatesCount := S (Add.duplicatesCount locals);
                     Add.droppedCount := Add.droppedCount locals;
                     Add.serializedSpans := Add.serializedSpans locals |})
        as (accepted & Hser & Hsub & Hnd & Hnew & Hkeys).
      exists accepted. repeat split; try assumption.
      apply sublist_cons. exact Hsub. }
    apply bool_decide_eq_false_1 in Etracked.
    destruct (IH (withBufferSpanKeys this
                    (bufferSpanKeys this
                     ∪ {[spanKey (serializeSpan env span)]}))
                {| Add.duplicatesCount := Add.duplicatesCount locals;
                   Add.droppedCount := Add.droppedCount locals;
                   Add.serializedSpans :=
                     Add.serializedSpans locals ++ [serializeSpan env span] |})
      as (accepted & Hser & Hsub & Hnd & Hnew & Hkeys).
    cbn [bufferSpanKeys withBufferSpanKeys Add.serializedSpans] in *.
    exists (serializeSpan env span :: accepted).
    rewrite Forall_forall in Hnew.
    split; [rewrite Hser, <- app_assoc; reflexivity|].
    split; [apply sublist_skip; exact Hsub|].
    split.
    { cbn [map]. apply NoDup_cons. split; [|exact Hnd].
      intros Hin. apply list_elem_of_fmap in Hin as (other & Heq & Hother).
      apply (Hnew other Hother). rewrite <- Heq. set_solver. }
    split.
    { apply Forall_cons. split; [exact Etracked|].
      apply Forall_forall. intros other Hother Hin.
      apply (Hnew other Hother). set_solver. }
    rewrite Hkeys. cbn [map list_to_set]. set_solver.
Qed.

(** X1. Every span handed to [addToBuffer] is counted exactly once: as
    a duplicate, as dropped, or as accepted. *)
Theorem addToBuffer_counts_every_span (this : AIQASpanExporter)
    (spans : list ReadableSpan.t) :
  Add.duplicatesCount (addToBufferCounts env this spans)
  + Add.droppedCount (addToBufferCounts env this spans)
  + length (Add.serializedSpans (addToBufferCounts env this spans))
  = length spans.
Proof.
  unfold addToBufferCounts.
  pose proof (addToBufferLoop_counts spans this Add.init) as H.
  cbv zeta in H. rewrite H. cbn. lia.
Qed.

(** X2. The spans one call of [addToBuffer] accepts are serialized input
    spans in their arrival order; their keys are pairwise distinct and
    none of them was tracked before the call. *)
Theorem addToBuffer_accepts_new_keys_in_order (this : AIQASpanExporter)
    (spans : list ReadableSpan.t) :
  let accepted := Add.serializedSpans (addToBufferCounts env this spans) in
  sublist accepted (map (serializeSpan env) spans)
  /\ NoDup (map spanKey accepted)
  /\ Forall (fun span => spanKey span ∉ bufferSpanKeys this) accepted.
Proof.
  cbv zeta. unfold addToBufferCounts.
  destruct (addToBufferLoop_accepted spans this Add.init)
    as (accepted & Hser & Hsub & Hnd & Hnew & _).
  rewrite Hser. cbn [Add.init Add.serializedSpans app].
  repeat split; assumption.
Qed.

(** X3. [export] only appends: the buffer afterwards is the buffer before
    followed by the accepted spans, and the tracked keys afterwards are
    the keys tracked before together with the keys of the accepted
    spans. *)
Theorem export_only_appends (this : AIQASpanExporter)
    (spans : list ReadableSpan.t) :
  let accepted := Add.serializedSpans (addToBufferCounts env this spans) in
  buffer (export env this spans) = buffer this ++ accepted
  /\ bufferSpanKeys (export env this spans)
     = bufferSpanKeys this ∪ list_to_set (map spanKey accepted).
Proof.
  cbv zeta. split; [apply export_buffer|].
  rewrite export_bufferSpanKeys. unfold addToBufferCounts.
  destruct (addToBufferLoop_accepted spans this Add.init)
    as (accepted & Hser & _ & _ & _ & Hkeys).
  rewrite Hkeys, Hser. reflexivity.
Qed.

Lemma bufferTracked_export this spans :
  bufferTracked this -> bufferTracked (export env this spans).
Proof.
  intros [Hnd Hall]. unfold bufferTracked.
  rewrite export_buffer, export_bufferSpanKeys. unfold addToBufferCounts.
  destruct (addToBufferLoop_accepted spans this Add.init)
    as (accepted & Hser & _ & Hnd' & Hnew & Hkeys).
  rewrite Hkeys, Hser. cbn [Add.init Add.serializedSpans app].
  rewrite Forall_forall in Hall, Hnew. split.
  - rewrite map_app. apply NoDup_app. split; [exact Hnd|]. split; [|exact Hnd'].
    intros key Hin1 Hin2.
    apply list_elem_of_fmap in Hin1 as (s1 & -> & Hs1).
    apply list_elem_of_fmap in Hin2 as (s2 & Heq & Hs2).
    apply (Hnew s2 Hs2). rewrite <- Heq. apply Hall. exact Hs1.
  - apply Forall_app. split; apply Forall_forall; intros span Hspan.
    + apply elem_of_union_l. apply Hall. exact Hspan.
    + apply elem_of_union_r, elem_of_list_to_set, list_elem_of_fmap.
      exists span. split; [reflexivity|exact Hspan].
Qed.

(** X4. Deduplication as an invariant of [export]: if no two buffered
    spans share a key and the key of every buffered span is tracked, the
    same holds after any call of [export]. *)
Theorem export_keeps_buffer_tracked (this : AIQASpanExporter)
    (spans : list ReadableSpan.t) :
  bufferTracked this -> bufferTracked (export env this spans).
Proof. apply bufferTracked_export. Qed.

(** X5. Against a full buffer [export] stores nothing: buffer and tracked
    keys stay as they are and every span of the call is counted as
    dropped, tracked or not. *)
Theorem export_into_full_buffer (this : AIQASpanExporter)
    (spans : list ReadableSpan.t) :
  (maxBufferSpans this <= Z.of_nat (length (buffer this)))%Z ->
  buffer (export env this spans) = buffer this
  /\ bufferSpanKeys (export env this spans) = bufferSpanKeys this
  /\ addToBufferCounts env this spans
     = {| Add.duplicatesCount := 0; Add.droppedCount := length spans;
          Add.serializedSpans := [] |}.
Proof.
  intros Hfull.
  assert (Hcounts : addToBufferCounts env this spans
                    = {| Add.duplicatesCount := 0;
                         Add.droppedCount := length spans;
                         Add.serializedSpans := [] |}).
  { unfold addToBufferCounts. rewrite addToBufferLoop_full by exact Hfull.
    reflexivity. }
  split; [|split; [|exact Hcounts]].
  - rewrite export_buffer, Hcounts. apply app_nil_r.
  - rewrite export_bufferSpanKeys, addToBufferLoop_full by exact Hfull.
    reflexivity.
Qed.

End AppendExtras.

(** X4 on a new exporter, which holds nothing, and two spans. *)
Lemma export_keeps_buffer_tracked_witness :
  bufferTracked collector
  /\ bufferTracked (export None collector (freshSpans 2)).
Proof.
  assert (Hnew : bufferTracked collector) by (split; constructor).
  split; [exact Hnew|].
  apply (export_keeps_buffer_tracked None collector (freshSpans 2) Hnew).
Defined.

(** X5 on an exporter that holds its maximum of 10000 spans. *)
Lemma export_into_full_buffer_witness :
  let this := export None collector (freshSpans 10000) in
  let spans := freshSpans 3 in
  buffer (export None this spans) = buffer this
  /\ bufferSpanKeys (export None this spans) = bufferSpanKeys this
  /\ addToBufferCounts None this spans
     = {| Add.duplicatesCount := 0; Add.droppedCount := length spans;
          Add.serializedSpans := [] |}.
Proof.
  apply (export_into_full_buffer None
           (export None collector (freshSpans 10000)) (freshSpans 3)).
  destruct (export_freshSpans None 10000) as (Hmax & Hlen & _); [lia|].
  rewrite Hmax, Hlen. lia.
Defined.

(** ** The data filters *)

Section RedactionExtras.

Variable env : option string.

Lemma valueRule_falsy value :
  truthy value = false -> valueRule env value = false.
Proof.
  unfold valueRule. cbv zeta.
  destruct value as [| |b|x|s|items|entries]; cbn [isJWTToken isAPIKey];
    rewrite ?andb_false_r; try reflexivity.
  destruct s; [|discriminate]. intros _. cbn. rewrite !andb_false_r.
  reflexivity.
Qed.

Lemma valueRule_MASK : valueRule env MASK = false.
Proof. unfold valueRule. cbn. rewrite !andb_false_r. reflexivity. Qed.

Lemma masks_split key value :
  masks env key value = truthy value && (keyRule env key || valueRule env value).
Proof. reflexivity. Qed.

(** No value rule fires on what the filter returns. *)
Lemma valueRule_filterDataRecursive data :
  valueRule env (filterDataRecursive env data) = false.
Proof.
  destruct data as [| |b|x|s|items|entries]; cbn [filterDataRecursive];
    try (apply valueRule_falsy; reflexivity);
    try (unfold valueRule; cbn [isJWTToken isAPIKey];
         rewrite ?andb_false_r; reflexivity);
    rewrite applyDataFilters_masks;
    match goal with
    | |- context [masks env "" ?v] =>
        destruct (masks env "" v) eqn:E; [apply valueRule_MASK|];
        rewrite masks_split, keyRule_empty in E; cbn [orb] in E;
        destruct (truthy v) eqn:Et;
        [exact E|apply valueRule_falsy; exact Et]
    end.
Qed.

Lemma filterDataRecursive_MASK : filterDataRecursive env MASK = MASK.
Proof. apply (applyDataFilters_MASK env ""). Qed.

(** Falsy values pass unchanged. *)
Lemma filterDataRecursive_falsy data :
  truthy data = false -> filterDataRecursive env data = data.
Proof.
  intros Hf. destruct data; cbn [filterDataRecursive]; try reflexivity;
    try discriminate; unfold applyDataFilters; rewrite Hf; reflexivity.
Qed.

Lemma filterDataRecursive_clean data :
  Forall (fun kv => masks env (fst kv) (snd kv) = true -> snd kv = MASK)
    (allEntries (filterDataRecursive env data))
  /\ Forall (fun s => valueRule env (JsStr s) = true -> s = "****")
       (strings (filterDataRecursive env data)).
Proof.
  induction data as [| |b|x|s|items IH|entries IH] using JsValue_nested_ind;
    try (split; constructor).
  - cbn [filterDataRecursive]. rewrite applyDataFilters_masks.
    destruct (masks env "" (JsBool b)); split; repeat constructor.
  - cbn [filterDataRecursive]. rewrite applyDataFilters_masks.
    destruct (masks env "" (JsNumber x)); split; repeat constructor.
  - pose proof (valueRule_filterDataRecursive (JsStr s)) as Hv.
    cbn [filterDataRecursive] in *. rewrite applyDataFilters_masks in *.
    destruct (masks env "" (JsStr s)); split; repeat constructor.
    intros Ht. rewrite Hv in Ht. discriminate.
  - cbn [filterDataRecursive allEntries strings].
    induction IH as [|x l [Hx1 Hx2] _ [IH1 IH2]]; [split; constructor|].
    cbn [map flat_map]. split; apply Forall_app; split; assumption.
  - cbn [filterDataRecursive allEntries strings].
    rewrite (applyDataFilters_MASK env "").
    induction IH as [|[k v] l [Hv1 Hv2] _ [IH1 IH2]]; [split; constructor|].
    cbn [map flat_map fst snd] in *.
    destruct (masks env k v) eqn:E.
    + cbn [allEntries strings MASK app].
      split; [constructor; [reflexivity|exact IH1]|].
      constructor; [reflexivity|exact IH2].
    + split.
      * constructor.
        { cbn [fst snd]. intros Hm.
          rewrite (masks_filterDataRecursive env k v E) in Hm. discriminate. }
        apply Forall_app. split; assumption.
      * apply Forall_app. split; assumption.
Qed.

Lemma redacts_filterDataRecursive data :
  redacts data (filterDataRecursive env data).
Proof.
  induction data as [| |b|x|s|items IH|entries IH] using JsValue_nested_ind;
    try apply redacts_same.
  - cbn [filterDataRecursive]. rewrite applyDataFilters_masks.
    destruct (masks env "" (JsBool b)) eqn:E; [|apply redacts_same].
    apply redacts_mask. rewrite masks_split in E.
    apply andb_true_iff in E. apply E.
  - cbn [filterDataRecursive]. rewrite applyDataFilters_masks.
    destruct (masks env "" (JsNumber x)) eqn:E; [|apply redacts_same].
    apply redacts_mask. rewrite masks_split in E.
    apply andb_true_iff in E. apply E.
  - cbn [filterDataRecursive]. rewrite applyDataFilters_masks.
    destruct (masks env "" (JsStr s)) eqn:E; [|apply redacts_same].
    apply redacts_mask. rewrite masks_split in E.
    apply andb_true_iff in E. apply E.
  - cbn [filterDataRecursive]. apply redacts_array.
    induction IH as [|x l Hx _ IHl]; constructor; assumption.
  - cbn [filterDataRecursive]. apply redacts_object.
    rewrite (applyDataFilters_MASK env "").
    induction IH as [|[k v] l Hv _ IHl]; constructor; [|assumption].
    cbn [fst snd] in *. split; [reflexivity|].
    destruct (masks env k v) eqn:E; [|exact Hv].
    apply redacts_mask. rewrite masks_split in E.
    apply andb_true_iff in E. apply E.
Qed.

Lemma filterDataRecursive_disabled data :
  (forall key value, masks env key value = false) ->
  filterDataRecursive env data = data.
Proof.
  intros Hoff.
  induction data as [| |b|x|s|items IH|entries IH] using JsValue_nested_ind;
    try reflexivity;
    try (cbn [filterDataRecursive]; rewrite applyDataFilters_masks, Hoff;
         reflexivity).
  - cbn [filterDataRecursive]. f_equal.
    induction IH as [|x l Hx _ IHl]; [reflexivity|].
    cbn [map]. rewrite Hx, IHl. reflexivity.
  - cbn [filterDataRecursive]. f_equal.
    induction IH as [|[k v] l Hv _ IHl]; [reflexivity|].
    cbn [map fst snd] in *. rewrite Hoff, Hv, IHl. reflexivity.
Qed.

Lemma masks_disabled key value :
  has (getEnabledFilters env) "RemovePasswords" = false ->
  has (getEnabledFilters env) "RemoveJWT" = false ->
  has (getEnabledFilters env) "RemoveAuthHeaders" = false ->
  has (getEnabledFilters env) "RemoveAPIKeys" = false ->
  masks env key value = false.
Proof.
  intros Hp Hj Ha Hk. unfold masks, keyRule, valueRule. cbv zeta.
  rewrite Hp, Hj, Ha, Hk. cbn [andb orb]. apply andb_false_r.
Qed.

(** X6. In what [filterDataRecursive] returns, no enabled rule fires on
    any entry of any object, at any depth, except on entries whose value
    is the mask itself; and no value rule fires on any string but the
    mask. *)
Theorem filterDataRecursive_leaves_nothing_to_mask (data : JsValue) :
  Forall (fun kv => masks env (fst kv) (snd kv) = true -> snd kv = MASK)
    (allEntries (filterDataRecursive env data))
  /\ Forall (fun s => valueRule env (JsStr s) = true -> s = "****")
       (strings (filterDataRecursive env data)).
Proof. apply filterDataRecursive_clean. Qed.


(** X8. With RemovePasswords enabled, every entry of the filtered value
    whose key contains "password", in any letter case and at any depth,
    holds the mask or a falsy value. *)
Theorem filterDataRecursive_masks_every_password (data : JsValue) :
  has (getEnabledFilters env) "RemovePasswords" = true ->
  Forall (fun kv =>
            JsString.includes "password" (JsString.toLowerCase (fst kv))
            = true ->
            snd kv = MASK \/ truthy (snd kv) = false)
    (allEntries (filterDataRecursive env data)).
Proof.
  intros Hpw. destruct (filterDataRecursive_clean data) as [Hclean _].
  eapply Forall_impl; [exact Hclean|]. intros [k w] Hkw Hkey.
  cbn [fst snd] in *.
  destruct (truthy w) eqn:Et; [left|right; reflexivity].
  apply Hkw. rewrite masks_split, Et. unfold keyRule. cbv zeta.
  rewrite Hpw, Hkey. reflexivity.
Qed.

(** X9. [filterDataRecursive] changes a value in one way only: some
    truthy values in it are replaced by the mask.  Keys, their order, the
    length of arrays and every falsy value stay as they are. *)
Theorem filterDataRecursive_only_masks (data : JsValue) :
  redacts data (filterDataRecursive env data).
Proof. apply redacts_filterDataRecursive. Qed.

(** X10. With none of the four filters enabled, [filterDataRecursive]
    returns its argument. *)
Theorem filterDataRecursive_identity_when_disabled (data : JsValue) :
  has (getEnabledFilters env) "RemovePasswords" = false ->
  has (getEnabledFilters env) "RemoveJWT" = false ->
  has (getEnabledFilters env) "RemoveAuthHeaders" = false ->
  has (getEnabledFilters env) "RemoveAPIKeys" = false ->
  filterDataRecursive env data = data.
Proof.
  intros Hp Hj Ha Hk. apply filterDataRecursive_disabled.
  intros key value. apply masks_disabled; assumption.
Qed.

(** X11. Filtering composes across the two files: attribute values that
    were filtered one by one, as [setSpanAttribute] and [withTracing]
    store them, come out of the filtering of the whole attribute map, as
    [serializeSpan] does it, unchanged, except that a truthy value under
    a key on which a key rule fires becomes the mask. *)
Theorem filterDataRecursive_of_filtered_attributes
    (attributes : list (string * JsValue)) :
  filterDataRecursive env
    (JsObject
       (map (fun kv => (fst kv, filterDataRecursive env (snd kv))) attributes))
  = JsObject
      (map (fun kv =>
              (fst kv,
               if keyRule env (fst kv)
                  && truthy (filterDataRecursive env (snd kv))
               then MASK
               else filterDataRecursive env (snd kv)))
         attributes).
Proof.
  cbn [filterDataRecursive]. f_equal. rewrite map_map.
  apply map_ext. intros [k v]. cbn [fst snd]. f_equal.
  rewrite masks_split, valueRule_filterDataRecursive, orb_false_r.
  rewrite (andb_comm (keyRule env k)).
  destruct (truthy (filterDataRecursive env v) && keyRule env k);
    [apply applyDataFilters_MASK|apply filterDataRecursive_idempotent].
Qed.

End RedactionExtras.


(** X8 with the filters of an unset AIQA_DATA_FILTERS. *)
Lemma filterDataRecursive_masks_every_password_witness :
  Forall (fun kv =>
            JsString.includes "password" (JsString.toLowerCase (fst kv))
            = true ->
            snd kv = MASK \/ truthy (snd kv) = false)
    (allEntries
       (filterDataRecursive None
          (JsObject [("user", JsObject [("dbPassword", JsStr "secret123")]);
                     ("password", JsStr "")]))).
Proof.
  apply (filterDataRecursive_masks_every_password None). reflexivity.
Defined.

(** X10 with AIQA_DATA_FILTERS set to a name that is no filter. *)
Lemma filterDataRecursive_identity_when_disabled_witness :
  filterDataRecursive (Some "Off")
    (JsObject [("password", JsStr "secret123")])
  = JsObject [("password", JsStr "secret123")].
Proof.
  apply (filterDataRecursive_identity_when_disabled (Some "Off"));
    reflexivity.
Defined.

(** ** flush and shutdown *)

Section FlushExtras.

Variable env : option string.
Variable blobSize : SerializableSpan.t -> Z.
Variable network : nat -> FetchOutcome.

Lemma requests_emit this e :
  requests (emit this e)
  = requests this ++ (if isFetch e then [e] else []).
Proof.
  unfold requests. cbn [effects emit]. rewrite List.filter_app. cbn.
  destruct (isFetch e); reflexivity.
Qed.

Lemma requests_emits es : forall this,
  Forall (fun e => isFetch e = false) es ->
  requests (fold_left emit es this) = requests this.
Proof.
  induction es as [|e es IH]; intros this Hes; [reflexivity|].
  apply Forall_cons in Hes as [He Hes]. cbn [fold_left].
  rewrite IH by exact Hes. rewrite requests_emit, He. apply app_nil_r.
Qed.

Lemma requests_export this spans :
  requests (export env this spans) = requests this.
Proof.
  rewrite export_addToBuffer.
  destruct (addToBuffer_effects env (emit this (ResultCallback SUCCESS)) spans)
    as (logged & Heff & Hlog).
  unfold requests. rewrite Heff. cbn [effects emit].
  rewrite !List.filter_app. cbn [List.filter isFetch].
  rewrite app_nil_r.
  replace (List.filter isFetch logged) with (@nil Effect);
    [apply app_nil_r|].
  clear Heff. induction Hlog as [|e l He _ IH]; [reflexivity|].
  cbn [List.filter]. destruct e; try contradiction; exact IH.
Qed.

Lemma requests_exports calls : forall this,
  requests (fold_left (export env) calls this) = requests this.
Proof.
  induction calls as [|spans calls IH]; intros this; [reflexivity|].
  cbn [fold_left]. rewrite IH. apply requests_export.
Qed.

Lemma pushBack_effects remaining : forall this,
  effects (pushBack this remaining) = effects this.
Proof.
  induction remaining as [|batch rest IH]; intros this; [reflexivity|].
  unfold pushBack in *. cbn [fold_left]. rewrite IH. reflexivity.
Qed.

Lemma requests_flushSettle this locals sent :
  requests (fst (flushSettle this locals sent)) = requests this.
Proof.
  destruct sent as [|message]; [reflexivity|].
  unfold flushSettle, requests. cbn [fst].
  destruct (_ <? _)%nat; rewrite ?pushBack_effects; cbn [effects emit];
    rewrite List.filter_app; cbn; apply app_nil_r.
Qed.

Lemma requests_flushEnd this locals :
  requests (fst (flushEnd this locals)) = requests this.
Proof.
  unfold flushEnd, flushCatch. cbv zeta.
  set (this1 := if (0 <? length (Flush.successfullySentSpans locals))%nat
                then _ else _).
  assert (H1 : requests this1 = requests this).
  { subst this1.
    destruct (0 <? length (Flush.successfullySentSpans locals))%nat.
    - rewrite removeSpanKeysFromTracking_spec by exact blobSize.
      reflexivity.
    - reflexivity. }
  destruct (0 <? length (Flush.errors locals))%nat; [|exact H1].
  destruct (shutdownRequested _); cbn [fst]; rewrite requests_emit;
    cbn [isFetch]; rewrite app_nil_r; exact H1.
Qed.

(** One turn of the loop puts the request of batch [i] on the wire and no
    other. *)
Lemma requests_flushIteration arrivals this locals :
  serverUrl this <> "" ->
  requests (fst (flushIteration env network arrivals this locals))
  = requests this ++ [spanRequest this (currentSend locals)].
Proof.
  intros Hurl. unfold flushIteration, flushAwait, flushSend, sendSpansRequest.
  destruct (serverUrl this) as [|c url] eqn:Eu; [contradiction|].
  rewrite requests_flushSettle, requests_exports, requests_emit.
  unfold spanRequest. rewrite Eu. reflexivity.
Qed.

Lemma spanRequest_settings a b batch :
  settings a = settings b -> spanRequest a batch = spanRequest b batch.
Proof.
  unfold settings, spanRequest. intros H. injection H as Hu Hk _ _ _ _ _.
  rewrite Hu, Hk. reflexivity.
Qed.

Lemma firstn_S_drop {A} (l : list A) (d : A) i n :
  i < length l ->
  firstn (S n) (drop i l) = nth i l d :: firstn n (drop (S i) l).
Proof.
  revert i. induction l as [|x l IH]; intros i Hi; [cbn in Hi; lia|].
  destruct i as [|i]; [reflexivity|].
  cbn [drop nth]. apply IH. cbn in Hi. lia.
Qed.

Lemma requests_flushLoop arrivals iterations : forall this locals,
  serverUrl this <> "" ->
  Flush.i locals + iterations <= length (Flush.batches locals) ->
  requests (fst (flushLoop env network arrivals iterations this locals))
  = requests this
    ++ map (spanRequest this)
         (firstn iterations (drop (Flush.i locals) (Flush.batches locals))).
Proof.
  induction iterations as [|n IH]; intros this locals Hurl Hi.
  - cbn. rewrite app_nil_r. reflexivity.
  - cbn [flushLoop].
    pose proof (requests_flushIteration arrivals this locals Hurl) as Hreq.
    pose proof (extends_flushIteration env network arrivals this locals)
      as Hext.
    pose proof (flushIteration_locals env network arrivals this locals)
      as [Hb Hi'].
    destruct (flushIteration env network arrivals this locals)
      as [this1 locals1].
    cbn [fst snd] in *.
    assert (Hs : settings this1 = settings this) by apply Hext.
    rewrite IH.
    + rewrite Hreq, Hb, Hi', <- app_assoc. f_equal.
      rewrite (firstn_S_drop _ []) by lia. cbn [map app]. f_equal.
      apply map_ext. intros batch. apply spanRequest_settings. exact Hs.
    + rewrite (settings_serverUrl _ _ Hs). exact Hurl.
    + rewrite Hb, Hi'. lia.
Qed.

Lemma requests_flushBegin this :
  requests (fst (flushBegin blobSize this)) = requests this.
Proof.
  unfold flushBegin. cbv zeta.
  destruct (buffer this) as [|span rest]; [reflexivity|].
  cbn [serverUrl withBuffer].
  destruct (serverUrl this) as [|c url].
  - cbn [fst]. rewrite removeSpanKeysFromTracking_spec by exact blobSize.
    unfold requests. cbn [effects withBufferSpanKeys emit withBuffer].
    rewrite List.filter_app. cbn. apply app_nil_r.
  - cbn [fst].
    set (warned := fold_left emit _ _).
    assert (Hw : requests warned = requests this).
    { subst warned. rewrite requests_emits; [reflexivity|].
      unfold splitWarnings, splitLocals. rewrite splitLoop_warnings.
      cbn [Split.warnings Split.init app]. apply Forall_forall.
      intros e He. apply list_elem_of_In, in_map_iff in He as (x & <- & _).
      reflexivity. }
    destruct (1 <? _)%nat; [rewrite requests_emit; cbn [isFetch];
                            rewrite app_nil_r|]; exact Hw.
Qed.

Lemma settings_flushBegin this :
  settings (fst (flushBegin blobSize this)) = settings this.
Proof.
  unfold flushBegin. cbv zeta.
  destruct (buffer this) as [|span rest]; [reflexivity|].
  cbn [serverUrl withBuffer].
  destruct (serverUrl this) as [|c url] eqn:Eu.
  - cbn [fst]. rewrite removeSpanKeysFromTracking_spec by exact blobSize.
    unfold settings. cbn. rewrite Eu. reflexivity.
  - cbn [fst].
    set (warned := fold_left emit _ _).
    assert (Hw : settings warned = settings this).
    { subst warned.
      destruct (extends_emits
                  (splitWarnings blobSize (withBuffer this []) (span :: rest))
                  (withBuffer this [])) as [Hs _].
      rewrite Hs. unfold settings. cbn. rewrite Eu. reflexivity. }
    destruct (1 <? _)%nat; exact Hw.
Qed.

(** [flush] leaves the configuration and the two flags alone. *)
Lemma settings_flush arrivals this :
  settings (fst (flush env blobSize network arrivals this)) = settings this.
Proof.
  unfold flush.
  pose proof (settings_flushBegin this) as Hb.
  destruct (flushBegin blobSize this) as [drained [locals|]]; [|exact Hb].
  cbn [fst] in Hb.
  pose proof (extends_flushLoop env network arrivals
                (length (Flush.batches locals)) drained locals) as [Hl _].
  destruct (flushLoop env network arrivals (length (Flush.batches locals))
              drained locals) as [this1 locals1].
  cbn [fst] in Hl.
  destruct (extends_flushEnd blobSize this1 locals1) as [He _]. congruence.
Qed.

Lemma withBuffer_id this : withBuffer this (buffer this) = this.
Proof. destruct this; reflexivity. Qed.

(** With nothing buffered [flush] returns at once and changes nothing. *)
Lemma flush_empty_buffer arrivals this :
  buffer this = [] ->
  flush env blobSize network arrivals this = (this, Returned).
Proof.
  intros Hb. unfold flush, flushBegin. cbv zeta. rewrite Hb.
  rewrite <- Hb at 1. rewrite withBuffer_id. reflexivity.
Qed.

(** With every send accepted and nothing exported meanwhile, the loop
    leaves the exporter's buffer and keys alone and records every batch it
    went through as sent. *)
Lemma flushLoop_accepted iterations : forall this locals,
  serverUrl this <> "" ->
  (forall k, Flush.i locals <= k < Flush.i locals + iterations ->
             sendSpansResponse (network k) = Returned) ->
  Flush.i locals + iterations <= length (Flush.batches locals) ->
  let after := flushLoop env network quiet iterations this locals in
  buffer (fst after) = buffer this
  /\ bufferSpanKeys (fst after) = bufferSpanKeys this
  /\ Flush.successfullySentSpans (snd after)
     = Flush.successfullySentSpans locals
       ++ concat (firstn iterations
                    (drop (Flush.i locals) (Flush.batches locals)))
  /\ Flush.errors (snd after) = Flush.errors locals.
Proof.
  induction iterations as [|n IH]; intros this locals Hurl Hacc Hi after.
  - subst after. cbn. rewrite app_nil_r. repeat split; reflexivity.
  - subst after. cbn [flushLoop]. rewrite flushIteration_quiet.
    unfold flushSend, sendSpansRequest.
    destruct (serverUrl this) as [|c url] eqn:Eu; [contradiction|].
    cbn [fst snd sendSpansCompletion].
    rewrite (Hacc (Flush.i locals)) by lia.
    rewrite flushSettle_Returned.
    match goal with
    | |- context [flushLoop _ _ _ n ?t ?l] =>
        specialize (IH t l); cbn [serverUrl emit Flush.i Flush.batches
                                    Flush.successfullySentSpans Flush.errors]
                               in IH
    end.
    destruct IH as (Hb & Hk & Hs & He).
    + rewrite Eu. discriminate.
    + intros k Hk. apply Hacc. lia.
    + lia.
    + rewrite Hb, Hk, Hs, He. cbn [buffer bufferSpanKeys emit].
      repeat split; try reflexivity.
      rewrite <- app_assoc. f_equal. unfold currentSend.
      rewrite (firstn_S_drop _ []) by lia. cbn [concat].
      replace (Flush.i locals + 1) with (S (Flush.i locals)) by lia.
      reflexivity.
Qed.

(** What a [flush] whose sends are all accepted leaves behind. *)
Lemma flush_accepted this :
  serverUrl this <> "" ->
  allAccepted network (length (splitIntoBatches blobSize this (buffer this))) ->
  let after := flush env blobSize network quiet this in
  buffer (fst after) = []
  /\ bufferSpanKeys (fst after)
     = bufferSpanKeys this ∖ list_to_set (map spanKey (buffer this))
  /\ snd after = Returned.
Proof.
  intros Hurl Hacc after. subst after.
  destruct (buffer this) as [|span rest] eqn:Eb.
  - rewrite flush_empty_buffer by exact Eb. cbn [fst snd map list_to_set].
    rewrite Eb, difference_empty_L. repeat split; reflexivity.
  - assert (Hbuf : buffer this <> []) by (rewrite Eb; discriminate).
    destruct (flushBegin_loop blobSize this Hbuf Hurl)
      as (drained & Hbegin & Hdb & Hdk & Hds).
    unfold flush. rewrite Hbegin.
    pose proof (flushLoop_accepted
                  (length (Flush.batches (firstLocals blobSize this)))
                  drained (firstLocals blobSize this)) as Hloop.
    cbn [firstLocals Flush.batches Flush.i Flush.successfullySentSpans
           Flush.errors] in Hloop.
    rewrite Eb in Hloop.
    destruct Hloop as (Hb & Hk & Hs & He).
    + rewrite (settings_serverUrl _ _ Hds). exact Hurl.
    + intros k Hk. apply Hacc. lia.
    + lia.
    + cbn [firstLocals Flush.batches]. rewrite Eb.
      destruct (flushLoop env network quiet _ drained _) as [this1 locals1].
      cbn [fst snd] in *.
      rewrite drop_0, firstn_all, splitIntoBatches_concat in Hs.
      cbn [app] in Hs.
      rewrite (flushEnd_buffer blobSize), (flushEnd_bufferSpanKeys blobSize),
        Hb, Hk, Hs, Hdb, Hdk.
      repeat split; try reflexivity.
      unfold flushEnd. cbv zeta. rewrite He. reflexivity.
Qed.

(** X12. With a server URL configured, [flush] puts exactly one
    request per batch of [splitIntoBatches] on the wire, in batch order,
    each to [serverUrl/span] with the API key, whatever the outcomes of
    the sends and whatever is exported meanwhile; a failed send stops
    nothing and is not retried. *)
Theorem flush_sends_each_batch_once arrivals this :
  serverUrl this <> "" ->
  requests (fst (flush env blobSize network arrivals this))
  = requests this
    ++ map (spanRequest this) (splitIntoBatches blobSize this (buffer this)).
Proof.
  intros Hurl.
  destruct (buffer this) as [|span rest] eqn:Eb.
  - rewrite flush_empty_buffer by exact Eb. cbn. rewrite app_nil_r.
    reflexivity.
  - assert (Hbuf : buffer this <> []) by (rewrite Eb; discriminate).
    destruct (flushBegin_loop blobSize this Hbuf Hurl)
      as (drained & Hbegin & _ & _ & Hds).
    pose proof (requests_flushBegin this) as Hrb.
    unfold flush. rewrite Hbegin in *. cbn [fst] in Hrb.
    pose proof (requests_flushLoop arrivals
                  (length (Flush.batches (firstLocals blobSize this)))
                  drained (firstLocals blobSize this)) as Hloop.
    destruct (flushLoop env network arrivals _ drained _)
      as [this1 locals1].
    cbn [fst] in Hloop. rewrite requests_flushEnd, Hloop, Hrb.
    + cbn [firstLocals Flush.batches Flush.i]. rewrite Eb.
      rewrite drop_0, firstn_all. f_equal. apply map_ext.
      intros batch. apply spanRequest_settings. exact Hds.
    + rewrite (settings_serverUrl _ _ Hds). exact Hurl.
    + cbn. lia.
Qed.

(** X13. When the server accepts every batch and nothing is
    exported meanwhile, [flush] returns without an error, leaves the buffer
    empty and releases exactly the keys of the spans it drained, also when
    shutdown has been requested. *)
Theorem flush_delivers_everything this :
  serverUrl this <> "" ->
  allAccepted network (length (splitIntoBatches blobSize this (buffer this))) ->
  buffer (fst (flush env blobSize network quiet this)) = []
  /\ bufferSpanKeys (fst (flush env blobSize network quiet this))
     = bufferSpanKeys this ∖ list_to_set (map spanKey (buffer this))
  /\ snd (flush env blobSize network quiet this) = Returned.
Proof. intros Hurl Hacc. exact (flush_accepted this Hurl Hacc). Qed.

(** X14. With no server URL configured, [flush] makes no request,
    discards the buffered spans, releases their keys and returns without
    an error, whatever the network would answer and also when shutdown has
    been requested. *)
Theorem flush_without_server arrivals this :
  serverUrl this = "" ->
  requests (fst (flush env blobSize network arrivals this)) = requests this
  /\ buffer (fst (flush env blobSize network arrivals this)) = []
  /\ bufferSpanKeys (fst (flush env blobSize network arrivals this))
     = bufferSpanKeys this ∖ list_to_set (map spanKey (buffer this))
  /\ snd (flush env blobSize network arrivals this) = Returned.
Proof.
  intros Hurl.
  assert (Hflush : flush env blobSize network arrivals this
                   = (fst (flushBegin blobSize this), Returned)).
  { unfold flush, flushBegin. cbv zeta.
    destruct (buffer this) as [|span rest]; [reflexivity|].
    cbn [serverUrl withBuffer]. rewrite Hurl. reflexivity. }
  rewrite Hflush. cbn [fst snd]. split; [apply requests_flushBegin|].
  unfold flushBegin. cbv zeta.
  destruct (buffer this) as [|span rest] eqn:Eb.
  - cbn [fst buffer bufferSpanKeys withBuffer map list_to_set].
    rewrite difference_empty_L. repeat split; reflexivity.
  - cbn [serverUrl withBuffer]. rewrite Hurl. cbn [fst].
    rewrite removeSpanKeysFromTracking_spec by exact blobSize.
    repeat split; reflexivity.
Qed.

(** X15. With a server URL configured: once a [shutdown] during which
    nothing was exported has had all its sends accepted, a second
    [shutdown] changes nothing, makes no request and returns without an
    error, whatever the network would answer. *)
Theorem shutdown_twice network2 arrivals2 this :
  serverUrl this <> "" ->
  allAccepted network (length (splitIntoBatches blobSize this (buffer this))) ->
  shutdown env blobSize network2 arrivals2
    (fst (shutdown env blobSize network quiet this))
  = (fst (shutdown env blobSize network quiet this), Returned).
Proof.
  intros Hurl Hacc. unfold shutdown at 1.
  assert (Hurl2 : serverUrl (withShutdown this) <> "") by exact Hurl.
  assert (Hacc2 : allAccepted network
                    (length (splitIntoBatches blobSize (withShutdown this)
                               (buffer (withShutdown this))))).
  { rewrite (splitIntoBatches_budget blobSize (withShutdown this) this)
      by reflexivity. exact Hacc. }
  destruct (flush_accepted (withShutdown this) Hurl2 Hacc2) as (Hb & _ & _).
  pose proof (settings_flush quiet (withShutdown this)) as Hs.
  unfold shutdown.
  set (after := fst (flush env blobSize network quiet (withShutdown this)))
    in *.
  assert (Hid : withShutdown after = after).
  { unfold settings in Hs. cbn [withShutdown serverUrl apiKey flushIntervalMs
                                  maxBatchSizeBytes maxBufferSpans flushTimer
                                  shutdownRequested] in Hs.
    injection Hs as _ _ _ _ _ Ht Hr.
    destruct after; cbn in *. subst. reflexivity. }
  rewrite Hid. unfold flush, flushBegin. cbv zeta. rewrite Hb.
  rewrite <- Hb at 1. rewrite withBuffer_id. reflexivity.
Qed.

(** X16. A timer callback that still fires
    after [shutdown] does not flush: it leaves the exporter as [shutdown]
    left it, however that [shutdown] ended. *)
Theorem autoFlushTick_after_shutdown network2 arrivals arrivals2 this :
  autoFlushTick env blobSize network2 arrivals2
    (fst (shutdown env blobSize network arrivals this))
  = (fst (shutdown env blobSize network arrivals this), Returned).
Proof.
  unfold autoFlushTick, shutdown.
  rewrite (settings_shutdownRequested _ _
             (settings_flush arrivals (withShutdown this))).
  reflexivity.
Qed.

End FlushExtras.

Lemma flush_sends_each_batch_once_witness :
  serverUrl (export None collector (freshSpans 3)) <> ""
  /\ requests
       (fst (flush None threeMebibytes firstRefused oneDuringFirst
               (export None collector (freshSpans 3))))
     = requests (export None collector (freshSpans 3))
       ++ map (spanRequest (export None collector (freshSpans 3)))
            (splitIntoBatches threeMebibytes
               (export None collector (freshSpans 3))
               (buffer (export None collector (freshSpans 3)))).
Proof.
  split; [discriminate|].
  apply (flush_sends_each_batch_once None threeMebibytes firstRefused
         oneDuringFirst). discriminate.
Defined.

Lemma flush_delivers_everything_witness :
  serverUrl (export None collector (freshSpans 3)) <> ""
  /\ allAccepted (fun _ => accepted)
       (length (splitIntoBatches threeMebibytes
                  (export None collector (freshSpans 3))
                  (buffer (export None collector (freshSpans 3)))))
  /\ buffer (fst (flush None threeMebibytes (fun _ => accepted) quiet
                    (export None collector (freshSpans 3)))) = []
  /\ bufferSpanKeys (fst (flush None threeMebibytes (fun _ => accepted) quiet
                            (export None collector (freshSpans 3))))
     = bufferSpanKeys (export None collector (freshSpans 3))
       ∖ list_to_set (map spanKey
                        (buffer (export None collector (freshSpans 3))))
  /\ snd (flush None threeMebibytes (fun _ => accepted) quiet
            (export None collector (freshSpans 3))) = Returned.
Proof.
  split; [discriminate|]. split; [intros k _; reflexivity|].
  apply (flush_delivers_everything None threeMebibytes (fun _ => accepted)).
  - discriminate.
  - intros k _. reflexivity.
Defined.

Lemma flush_without_server_witness :
  serverUrl (export None (newExporter "" "key" 5) (freshSpans 3)) = ""
  /\ buffer (export None (newExporter "" "key" 5) (freshSpans 3)) <> []
  /\ requests (fst (flush None threeMebibytes (fun _ => accepted) quiet
                      (export None (newExporter "" "key" 5) (freshSpans 3))))
     = requests (export None (newExporter "" "key" 5) (freshSpans 3))
  /\ buffer (fst (flush None threeMebibytes (fun _ => accepted) quiet
                    (export None (newExporter "" "key" 5) (freshSpans 3))))
     = [].
Proof.
  split; [reflexivity|]. split; [vm_compute; discriminate|].
  destruct (flush_without_server None threeMebibytes (fun _ => accepted) quiet
              (export None (newExporter "" "key" 5) (freshSpans 3))
              eq_refl) as (Hr & Hb & _).
  split; [exact Hr|exact Hb].
Defined.

Lemma shutdown_twice_witness :
  serverUrl (export None collector (freshSpans 3)) <> ""
  /\ allAccepted (fun _ => accepted)
       (length (splitIntoBatches threeMebibytes
                  (export None collector (freshSpans 3))
                  (buffer (export None collector (freshSpans 3)))))
  /\ shutdown None threeMebibytes (fun _ => refused) quiet
       (fst (shutdown None threeMebibytes (fun _ => accepted) quiet
               (export None collector (freshSpans 3))))
     = (fst (shutdown None threeMebibytes (fun _ => accepted) quiet
               (export None collector (freshSpans 3))), Returned).
Proof.
  split; [discriminate|]. split; [intros k _; reflexivity|].
  apply (shutdown_twice None threeMebibytes (fun _ => accepted)).
  - discriminate.
  - intros k _. reflexivity.
Defined.

(** ** splitIntoBatches fills greedily *)

Lemma adjacent_snoc {A} (R : A -> A -> Prop) (l : list A) (x : A) :
  adjacent R l -> (forall a, last l = Some a -> R a x) ->
  adjacent R (l ++ [x]).
Proof.
  intros Hadj Hlast i a b Ha Hb.
  destruct (decide (S i < length l)) as [Hlt|Hge].
  - rewrite lookup_app_l in Ha by lia. rewrite lookup_app_l in Hb by lia.
    exact (Hadj i a b Ha Hb).
  - destruct (decide (S i = length l)) as [Heq|Hne].
    + rewrite lookup_app_l in Ha by lia.
      rewrite lookup_app_r in Hb by lia.
      replace (S i - length l) with 0 in Hb by lia. cbn in Hb.
      injection Hb as <-. apply Hlast. rewrite last_lookup.
      replace (pred (length l)) with i by lia. exact Ha.
    + apply lookup_lt_Some in Hb. rewrite length_app in Hb. cbn in Hb. lia.
Qed.

Lemma adjacent_nil {A} (R : A -> A -> Prop) : adjacent R [].
Proof. intros i a b Ha. discriminate. Qed.

Section BatcherExtras.

Variable blobSize : SerializableSpan.t -> Z.
Variable this : AIQASpanExporter.

Lemma tight_snoc batch next span :
  next <> [] -> tight blobSize this batch next ->
  tight blobSize this batch (next ++ [span]).
Proof. destruct next; [contradiction|]. intros _ H. exact H. Qed.

Lemma last_snoc_Some {A} (l : list A) (x y : A) :
  last (l ++ [x]) = Some y -> y = x.
Proof. rewrite last_snoc. congruence. Qed.

Lemma splitLoop_filled spans : forall locals,
  filled blobSize this locals ->
  filled blobSize this (splitLoop blobSize this locals spans).
Proof.
  induction spans as [|span rest IH];
    intros locals (Hadj & Hcur & Hempty & Hsz); [repeat split; assumption|].
  cbn [splitLoop]. cbv zeta.
  destruct (maxBatchSizeBytes this <? blobSize span)%Z eqn:Hbig.
  - apply IH. unfold filled.
    destruct (0 <? length (Split.currentBatch locals))%nat eqn:E;
      cbn [Split.batches Split.currentBatch Split.currentBatchSize].
    + split; [|split; [|split]].
      * apply adjacent_snoc; [apply adjacent_snoc; assumption|].
        intros a _. left. exact Hbig.
      * intros batch _. exact I.
      * intros _ batch Hl. apply last_snoc_Some in Hl. subst batch.
        exists span. split; [reflexivity|exact Hbig].
      * reflexivity.
    + assert (Hnil : Split.currentBatch locals = []).
      { destruct (Split.currentBatch locals); [reflexivity|discriminate]. }
      split; [|split; [|split]].
      * apply adjacent_snoc; [assumption|].
        intros a _. left. exact Hbig.
      * intros batch _. rewrite Hnil. exact I.
      * intros _ batch Hl. apply last_snoc_Some in Hl. subst batch.
        exists span. split; [reflexivity|exact Hbig].
      * exact Hsz.
  - apply IH. unfold filled.
    destruct (0 <? length (Split.currentBatch locals))%nat eqn:E;
      cbn [andb].
    + apply length_pos_nonempty in E.
      destruct (maxBatchSizeBytes this
                <? Split.currentBatchSize locals + blobSize span)%Z eqn:Hfull;
        cbn [Split.batches Split.currentBatch Split.currentBatchSize app].
      * split; [|split; [|split]].
        -- apply adjacent_snoc; assumption.
        -- intros batch Hl. apply last_snoc_Some in Hl. subst batch.
           right. right. rewrite <- Hsz. apply Z.ltb_lt. exact Hfull.
        -- discriminate.
        -- unfold batchBytes. cbn. lia.
      * split; [|split; [|split]].
        -- assumption.
        -- intros batch Hl. apply tight_snoc; [exact E|apply Hcur, Hl].
        -- intros Hnil. destruct (Split.currentBatch locals); discriminate.
        -- rewrite Hsz. unfold batchBytes. rewrite map_app, fold_right_app.
           cbn. generalize (map blobSize (Split.currentBatch locals)).
           intros l. induction l as [|z l IHl]; cbn; lia.
    + assert (Hnil : Split.currentBatch locals = []).
      { destruct (Split.currentBatch locals); [reflexivity|discriminate]. }
      cbn [Split.batches Split.currentBatch Split.currentBatchSize].
      rewrite Hnil in *. cbn [app].
      split; [|split; [|split]].
      * assumption.
      * intros batch Hl. right. left. apply (Hempty eq_refl), Hl.
      * discriminate.
      * rewrite Hsz. unfold batchBytes. cbn. lia.
Qed.

(** No batch could have taken the first span of the batch after it. *)
Lemma splitIntoBatches_tight spans :
  adjacent (tight blobSize this) (splitIntoBatches blobSize this spans).
Proof.
  destruct spans as [|span rest]; [apply adjacent_nil|].
  unfold splitIntoBatches, splitLocals.
  set (spans := span :: rest).
  assert (H0 : filled blobSize this Split.init).
  { split; [apply adjacent_nil|]. split; [intros b Hb; discriminate|].
    split; [intros _ b Hb; discriminate|reflexivity]. }
  destruct (splitLoop_filled spans Split.init H0) as (Hadj & Hcur & _ & _).
  destruct (0 <? length _)%nat; [|exact Hadj].
  apply adjacent_snoc; assumption.
Qed.

Hypothesis blobSize_nonneg : forall span, (0 <= blobSize span)%Z.

Lemma batchBytes_nonneg batch : (0 <= batchBytes blobSize batch)%Z.
Proof.
  unfold batchBytes. induction batch as [|x batch IH]; cbn; [lia|].
  specialize (blobSize_nonneg x). lia.
Qed.

Lemma tight_over batch span next :
  tight blobSize this batch (span :: next) ->
  (maxBatchSizeBytes this < batchBytes blobSize batch + blobSize span)%Z.
Proof.
  pose proof (batchBytes_nonneg batch) as Hb.
  pose proof (blobSize_nonneg span) as Hs.
  intros [Hbig|[(x & -> & Hbig)|Hfull]].
  - apply Z.ltb_lt in Hbig. lia.
  - apply Z.ltb_lt in Hbig. unfold batchBytes. cbn. lia.
  - exact Hfull.
Qed.

(** X17. Batches are filled greedily: whenever one batch is followed by
    another, the first span of the second would not have fitted into the
    first, their sizes together are over [maxBatchSizeBytes]. *)
Theorem splitIntoBatches_fills_greedily spans i batch span next :
  splitIntoBatches blobSize this spans !! i = Some batch ->
  splitIntoBatches blobSize this spans !! S i = Some (span :: next) ->
  (maxBatchSizeBytes this < batchBytes blobSize batch + blobSize span)%Z.
Proof.
  intros Ha Hb. apply (tight_over batch span next).
  exact (splitIntoBatches_tight spans i batch (span :: next) Ha Hb).
Qed.

(** X18. Spans that fit the budget together are sent as one batch. *)
Theorem splitIntoBatches_one_batch spans :
  spans <> [] ->
  (batchBytes blobSize spans <= maxBatchSizeBytes this)%Z ->
  splitIntoBatches blobSize this spans = [spans].
Proof.
  intros Hne Hfit.
  pose proof (splitIntoBatches_concat blobSize this spans) as Hcat.
  pose proof (splitIntoBatches_nonempty blobSize this spans) as Hall.
  pose proof (splitIntoBatches_tight spans) as Hadj.
  destruct (splitIntoBatches blobSize this spans) as [|b0 [|b1 more]].
  - cbn in Hcat. congruence.
  - cbn in Hcat. rewrite app_nil_r in Hcat. congruence.
  - exfalso.
    apply Forall_cons in Hall as [_ Hall].
    apply Forall_cons in Hall as [Hb1 _].
    destruct b1 as [|span next]; [contradiction|].
    pose proof (tight_over b0 span next (Hadj 0 b0 (span :: next)
                                           eq_refl eq_refl)) as Hover.
    rewrite <- Hcat in Hfit. cbn [concat] in Hfit.
    rewrite !batchBytes_app in Hfit.
    pose proof (batchBytes_nonneg (concat more)) as Hm.
    pose proof (batchBytes_nonneg next) as Hn.
    change (span :: next) with ([span] ++ next) in Hfit.
    rewrite batchBytes_app in Hfit. unfold batchBytes at 2 in Hfit.
    cbn in Hfit. lia.
Qed.

End BatcherExtras.

Lemma splitIntoBatches_fills_greedily_witness :
  (forall span, (0 <= threeMebibytes span)%Z)
  /\ splitIntoBatches threeMebibytes collector
       (map (serializeSpan None) (freshSpans 2)) !! 0
     = Some [serializeSpan None (sampleSpan "trace" "0" JsNull)]
  /\ splitIntoBatches threeMebibytes collector
       (map (serializeSpan None) (freshSpans 2)) !! 1
     = Some [serializeSpan None (sampleSpan "trace" "1" JsNull)]
  /\ (maxBatchSizeBytes collector
      < batchBytes threeMebibytes
          [serializeSpan None (sampleSpan "trace" "0" JsNull)]
        + threeMebibytes (serializeSpan None (sampleSpan "trace" "1" JsNull)))%Z.
Proof.
  assert (Hsize : forall span, (0 <= threeMebibytes span)%Z)
    by (intros span; unfold threeMebibytes; lia).
  split; [exact Hsize|]. split; [reflexivity|]. split; [reflexivity|].
  apply (splitIntoBatches_fills_greedily threeMebibytes collector Hsize
           (map (serializeSpan None) (freshSpans 2)) 0 _ _ []);
    reflexivity.
Defined.

Lemma splitIntoBatches_one_batch_witness :
  (forall span, (0 <= oneKibibyte span)%Z)
  /\ map (serializeSpan None) (freshSpans 3) <> []
  /\ (batchBytes oneKibibyte (map (serializeSpan None) (freshSpans 3))
      <= maxBatchSizeBytes collector)%Z
  /\ splitIntoBatches oneKibibyte collector
       (map (serializeSpan None) (freshSpans 3))
     = [map (serializeSpan None) (freshSpans 3)].
Proof.
  assert (Hsize : forall span, (0 <= oneKibibyte span)%Z)
    by (intros span; unfold oneKibibyte; lia).
  split; [exact Hsize|]. split; [discriminate|].
  split; [vm_compute; discriminate|].
  apply (splitIntoBatches_one_batch oneKibibyte collector Hsize).
  - discriminate.
  - vm_compute. discriminate.
Defined.

(** ** The promise lock of flush *)

Section LockExtras.

Variable env : option string.
Variable blobSize : SerializableSpan.t -> Z.

Lemma finishTask_shape rt task origin resolveFlush this result :
  let rt' := finishTask rt task origin resolveFlush this result in
  flushLock rt' = flushLock rt
  /\ promises rt' = promises rt
  /\ resolved rt' = resolved rt ∪ {[resolveFlush]}
  /\ exists settled, tasks rt' = <[task := Settled origin settled]> (tasks rt).
Proof.
  unfold finishTask. destruct origin; [destruct result|]; cbn;
    repeat split; eexists; reflexivity.
Qed.

(** What [continueTask] does to the runtime: the task settles and its
    promise is resolved, or it awaits its next send. *)
Lemma continueTask_shape rt task origin resolveFlush this locals :
  let rt' := continueTask rt task origin resolveFlush this locals in
  flushLock rt' = flushLock rt
  /\ promises rt' = promises rt
  /\ ((resolved rt' = resolved rt ∪ {[resolveFlush]}
       /\ exists settled,
            tasks rt' = <[task := Settled origin settled]> (tasks rt))
      \/ (resolved rt' = resolved rt
          /\ Flush.i locals < length (Flush.batches locals)
          /\ exists early,
               tasks rt'
               = <[task := AwaitingSend origin resolveFlush locals early]>
                   (tasks rt))).
Proof.
  unfold continueTask.
  destruct (Flush.i locals <? length (Flush.batches locals))%nat eqn:E.
  - apply Nat.ltb_lt in E. destruct (flushSend this locals) as [this' early].
    cbn. repeat split. right. repeat split; [exact E|].
    eexists. reflexivity.
  - destruct (flushEnd this locals) as [this' result].
    destruct (finishTask_shape rt task origin resolveFlush this' result)
      as (Hl & Hp & Hr & Ht).
    split; [exact Hl|]. split; [exact Hp|]. left. split; assumption.
Qed.

(** Replacing a task keeps every lock held, if the new task settles with
    its promise resolved or awaits a send with the resolver the old one
    had. *)
Lemma held_update rt rt' task new resolveFlush lock :
  tasks rt' = <[task := new]> (tasks rt) ->
  resolved rt ⊆ resolved rt' ->
  (forall origin q locals early,
      tasks rt !! task = Some (AwaitingSend origin q locals early) ->
      q = resolveFlush) ->
  resolveFlush ∈ resolved rt'
  \/ (exists origin locals early,
        new = AwaitingSend origin resolveFlush locals early) ->
  held rt lock -> held rt' lock.
Proof.
  intros Htasks Hres Hold Hnew [Hin|(other & origin & locals & early & Hlook)].
  - left. apply Hres, Hin.
  - destruct (decide (other = task)) as [->|Hne].
    + specialize (Hold _ _ _ _ Hlook). subst lock.
      destruct Hnew as [Hin|(o & l & e & ->)]; [left; exact Hin|].
      right. exists task, o, l, e. rewrite Htasks.
      apply list_lookup_insert_eq. eapply lookup_lt_Some, Hlook.
    + right. exists other, origin, locals, early. rewrite Htasks.
      rewrite list_lookup_insert_ne by congruence. exact Hlook.
Qed.

Lemma lockServed_update rt rt' task new resolveFlush :
  tasks rt' = <[task := new]> (tasks rt) ->
  resolved rt ⊆ resolved rt' ->
  (forall origin q locals early,
      tasks rt !! task = Some (AwaitingSend origin q locals early) ->
      q = resolveFlush) ->
  resolveFlush ∈ resolved rt'
  \/ (exists origin locals early,
        new = AwaitingSend origin resolveFlush locals early) ->
  (forall origin lock, new <> AwaitingLock origin lock) ->
  held rt' (flushLock rt') ->
  lockServed rt -> lockServed rt'.
Proof.
  intros Htasks Hres Hold Hnew Hnot Hfield [_ Hwait].
  split; [exact Hfield|].
  intros other origin lock Hlook. rewrite Htasks in Hlook.
  destruct (decide (other = task)) as [->|Hne].
  - apply list_lookup_insert_Some in Hlook as [(_ & Heq & _)|[Hne _]];
      [|contradiction].
    exfalso. exact (Hnot _ _ Heq).
  - rewrite list_lookup_insert_ne in Hlook by congruence.
    eapply held_update; [exact Htasks|exact Hres|exact Hold|exact Hnew|].
    exact (Hwait _ _ _ Hlook).
Qed.

Lemma lockServed_spawn rt this origin :
  lockServed rt -> lockServed (spawn rt this origin).
Proof.
  intros [Hfield Hwait].
  assert (Hmono : forall lock, held rt lock ->
                               held (spawn rt this origin) lock).
  { intros lock [Hin|(t & o & l & e & Hlook)]; [left; exact Hin|].
    right. exists t, o, l, e. cbn [spawn tasks].
    apply lookup_app_l_Some. exact Hlook. }
  split; [apply Hmono, Hfield|].
  intros task o lock Hlook. cbn [spawn tasks] in Hlook.
  apply lookup_app_Some in Hlook as [Hold|[_ Hnew]].
  - apply Hmono. exact (Hwait _ _ _ Hold).
  - destruct (task - length (tasks rt)) as [|n]; cbn in Hnew;
      [|discriminate].
    injection Hnew as _ <-. apply Hmono, Hfield.
Qed.

Lemma lockServed_step rt event rt' :
  lockServed rt -> step env blobSize rt event = Some rt' -> lockServed rt'.
Proof.
  intros Hrt Hstep. destruct event as [spans| | | |task|task outcome];
    cbn [step] in Hstep.
  - injection Hstep as <-. exact Hrt.
  - injection Hstep as <-. apply lockServed_spawn. exact Hrt.
  - injection Hstep as <-. apply lockServed_spawn. exact Hrt.
  - destruct (flushTimer (exporter rt)); [|discriminate].
    destruct (negb _); injection Hstep as <-;
      [apply lockServed_spawn|]; exact Hrt.
  - destruct (tasks rt !! task) as [[origin lock| |]|] eqn:Et;
      try discriminate.
    destruct (bool_decide _); [|discriminate].
    cbv zeta in Hstep. cbn [exporter] in Hstep.
    fold (locked rt) in Hstep.
    assert (Hlt : task < length (tasks rt)) by (eapply lookup_lt_Some, Et).
    assert (Hserved : lockServed rt
                      -> forall rt1 new,
                        tasks rt1 = <[task := new]> (tasks rt) ->
                        resolved rt ⊆ resolved rt1 ->
                        flushLock rt1 = promises rt ->
                        promises rt ∈ resolved rt1
                        \/ (exists o l e,
                              new = AwaitingSend o (promises rt) l e) ->
                        (forall o p, new <> AwaitingLock o p) ->
                        lockServed rt1).
    { intros Hs rt1 new Htasks Hres Hfield Hnew Hnot.
      eapply (lockServed_update rt rt1 task new (promises rt));
        try eassumption.
      - intros o q l e Hq. rewrite Et in Hq. discriminate.
      - rewrite Hfield.
        destruct Hnew as [Hin|(o & l & e & ->)]; [left; exact Hin|].
        right. exists task, o, l, e. rewrite Htasks.
        apply list_lookup_insert_eq. exact Hlt. }
    destruct (flushBegin blobSize (exporter rt)) as [this [locals|]];
      injection Hstep as <-.
    + destruct (continueTask_shape (locked rt) task origin (promises rt)
                  this locals) as (Hl & _ & [(Hr & r & Ht)|(Hr & _ & e & Ht)]).
      * eapply (Hserved Hrt); [exact Ht| | | |].
        -- rewrite Hr. cbn. set_solver.
        -- rewrite Hl. reflexivity.
        -- left. rewrite Hr. set_solver.
        -- discriminate.
      * eapply (Hserved Hrt); [exact Ht| | | |].
        -- rewrite Hr. reflexivity.
        -- rewrite Hl. reflexivity.
        -- right. eexists _, _, _. reflexivity.
        -- discriminate.
    + destruct (finishTask_shape (locked rt) task origin (promises rt)
                  this Returned) as (Hl & _ & Hr & r & Ht).
      eapply (Hserved Hrt); [exact Ht| | | |].
      * rewrite Hr. cbn. set_solver.
      * rewrite Hl. reflexivity.
      * left. rewrite Hr. set_solver.
      * discriminate.
  - destruct (tasks rt !! task) as [[|origin resolveFlush locals early|]|]
      eqn:Et; try discriminate.
    destruct (flushSettle (exporter rt) locals _) as [this locals'].
    injection Hstep as <-.
    assert (Hold : forall o q l e,
               tasks rt !! task = Some (AwaitingSend o q l e) ->
               q = resolveFlush).
    { intros o q l e Hq. rewrite Et in Hq. congruence. }
    destruct (continueTask_shape rt task origin resolveFlush this locals')
      as (Hl & _ & [(Hr & r & Ht)|(Hr & _ & e & Ht)]).
    + assert (Hnew : resolveFlush
                       ∈ resolved (continueTask rt task origin resolveFlush
                                     this locals')
                     \/ (exists o l e0,
                           Settled origin r
                           = AwaitingSend o resolveFlush l e0)).
      { left. rewrite Hr. set_solver. }
      eapply lockServed_update; [exact Ht| |exact Hold|exact Hnew| | |exact Hrt].
      * rewrite Hr. set_solver.
      * discriminate.
      * rewrite Hl. eapply held_update;
          [exact Ht| |exact Hold|exact Hnew|apply Hrt].
        rewrite Hr. set_solver.
    + assert (Hnew : resolveFlush
                       ∈ resolved (continueTask rt task origin resolveFlush
                                     this locals')
                     \/ (exists o l e0,
                           AwaitingSend origin resolveFlush locals' e
                           = AwaitingSend o resolveFlush l e0)).
      { right. eexists _, _, _. reflexivity. }
      eapply lockServed_update; [exact Ht| |exact Hold|exact Hnew| | |exact Hrt].
      * rewrite Hr. reflexivity.
      * discriminate.
      * rewrite Hl. eapply held_update;
          [exact Ht| |exact Hold|exact Hnew|apply Hrt].
        rewrite Hr. reflexivity.
Qed.

Lemma lockServed_run events : forall rt rt',
  lockServed rt -> run env blobSize rt events = Some rt' -> lockServed rt'.
Proof.
  induction events as [|event events IH]; intros rt rt' Hrt Hrun.
  - injection Hrun as <-. exact Hrt.
  - cbn [run] in Hrun.
    destruct (step env blobSize rt event) as [rt1|] eqn:E; [|discriminate].
    eapply IH; [|exact Hrun]. eapply lockServed_step; [exact Hrt|exact E].
Qed.

Lemma lockServed_boot this : lockServed (boot this).
Proof.
  split; [left; cbn; set_solver|]. intros task origin lock Hlook.
  discriminate.
Qed.

Lemma run_app first : forall rt more,
  run env blobSize rt (first ++ more)
  = match run env blobSize rt first with
    | Some rt1 => run env blobSize rt1 more
    | None => None
    end.
Proof.
  induction first as [|event first IH]; intros rt more; [reflexivity|].
  cbn [app run]. destruct (step env blobSize rt event); [apply IH|reflexivity].
Qed.

(** A flush that awaits a send settles once its sends have settled. *)
Lemma settle_task outcome n : forall rt task origin resolveFlush locals early,
  tasks rt !! task = Some (AwaitingSend origin resolveFlush locals early) ->
  length (Flush.batches locals) - Flush.i locals <= S n ->
  exists more rt' result,
    Forall (resumes outcome) more
    /\ run env blobSize rt more = Some rt'
    /\ tasks rt' = <[task := Settled origin result]> (tasks rt)
    /\ resolved rt' = resolved rt ∪ {[resolveFlush]}.
Proof.
  induction n as [|n IH]; intros rt task origin q locals early Ht Hn.
  all: assert (Hstep : step env blobSize rt (SendSettled task outcome)
                       = Some (continueTask rt task origin q
                                 (fst (flushSettle (exporter rt) locals
                                         (sendSpansCompletion early outcome)))
                                 (snd (flushSettle (exporter rt) locals
                                         (sendSpansCompletion early outcome)))))
    by (cbn [step]; rewrite Ht;
        destruct (flushSettle (exporter rt) locals _); reflexivity).
  all: destruct (flushSettle_locals (exporter rt) locals
                   (sendSpansCompletion early outcome)) as [Hb Hi].
  all: destruct (continueTask_shape rt task origin q
                   (fst (flushSettle (exporter rt) locals
                           (sendSpansCompletion early outcome)))
                   (snd (flushSettle (exporter rt) locals
                           (sendSpansCompletion early outcome))))
      as (_ & _ & [(Hr & r & Htasks)|(Hr & Hlt & e & Htasks)]).
  all: try (exists [SendSettled task outcome]; eexists; exists r;
            split; [repeat constructor|];
            split; [cbn [run]; rewrite Hstep; reflexivity|];
            split; assumption).
  - rewrite Hb, Hi in Hlt. lia.
  - set (rt1 := continueTask rt task origin q _ _) in *.
    set (locals1 := snd (flushSettle _ _ _)) in *.
    assert (Ht1 : tasks rt1 !! task = Some (AwaitingSend origin q locals1 e)).
    { rewrite Htasks. apply list_lookup_insert_eq.
      eapply lookup_lt_Some, Ht. }
    destruct (IH rt1 task origin q locals1 e Ht1)
      as (more & rt' & result & Hmore & Hrun & Htasks' & Hres');
      [rewrite Hb, Hi; lia|].
    exists (SendSettled task outcome :: more), rt', result.
    split; [constructor; [reflexivity|exact Hmore]|].
    split; [cbn [run]; rewrite Hstep; exact Hrun|].
    split.
    + rewrite Htasks', Htasks. apply list_insert_insert_eq.
    + rewrite Hres', Hr. reflexivity.
Qed.

(** A call of [flush] whose lock is resolved goes through and settles
    once its sends have settled. *)
Lemma acquire_and_settle outcome rt task origin lock :
  tasks rt !! task = Some (AwaitingLock origin lock) ->
  lock ∈ resolved rt ->
  exists more rt' result,
    Forall (resumes outcome) more
    /\ run env blobSize rt more = Some rt'
    /\ tasks rt' = <[task := Settled origin result]> (tasks rt).
Proof.
  intros Ht Hin.
  assert (Hstep : step env blobSize rt (LockAcquired task)
                  = Some (match flushBegin blobSize (exporter rt) with
                          | (this, None) =>
                              finishTask (locked rt) task origin (promises rt)
                                this Returned
                          | (this, Some locals) =>
                              continueTask (locked rt) task origin
                                (promises rt) this locals
                          end)).
  { cbn [step]. rewrite Ht. rewrite bool_decide_eq_true_2 by exact Hin.
    cbv zeta. cbn [exporter]. fold (locked rt).
    destruct (flushBegin blobSize (exporter rt)) as [this [locals|]];
      reflexivity. }
  destruct (flushBegin blobSize (exporter rt)) as [this [locals|]].
  - destruct (continueTask_shape (locked rt) task origin (promises rt)
                this locals)
      as (_ & _ & [(_ & r & Htasks)|(_ & Hlt & e & Htasks)]).
    + exists [LockAcquired task]. eexists. exists r.
      split; [repeat constructor|].
      split; [cbn [run]; rewrite Hstep; reflexivity|exact Htasks].
    + set (rt1 := continueTask (locked rt) task origin (promises rt) this
                    locals) in *.
      assert (Ht1 : tasks rt1 !! task
                    = Some (AwaitingSend origin (promises rt) locals e)).
      { rewrite Htasks. apply list_lookup_insert_eq.
        eapply lookup_lt_Some, Ht. }
      destruct (settle_task outcome
                  (length (Flush.batches locals) - Flush.i locals)
                  rt1 task origin (promises rt) locals e Ht1)
        as (more & rt' & result & Hmore & Hrun & Htasks' & _); [lia|].
      exists (LockAcquired task :: more), rt', result.
      split; [constructor; [exact I|exact Hmore]|].
      split; [cbn [run]; rewrite Hstep; exact Hrun|].
      rewrite Htasks', Htasks. apply list_insert_insert_eq.
  - destruct (finishTask_shape (locked rt) task origin (promises rt)
                this Returned) as (_ & _ & _ & r & Htasks).
    exists [LockAcquired task]. eexists. exists r.
    split; [repeat constructor|].
    split; [cbn [run]; rewrite Hstep; reflexivity|exact Htasks].
Qed.

Lemma settled_insert (l : list Task) task origin result j :
  (exists o r, l !! j = Some (Settled o r)) ->
  exists o r, <[task := Settled origin result]> l !! j = Some (Settled o r).
Proof.
  intros (o & r & Hj). destruct (decide (task = j)) as [->|Hne].
  - exists origin, result. apply list_lookup_insert_eq.
    eapply lookup_lt_Some, Hj.
  - exists o, r. rewrite list_lookup_insert_ne by exact Hne. exact Hj.
Qed.

(** The calls of [flush] made so far can be settled one after the other. *)
Lemma drain outcome k : forall rt,
  lockServed rt -> k <= length (tasks rt) ->
  exists more rt',
    Forall (resumes outcome) more
    /\ run env blobSize rt more = Some rt'
    /\ length (tasks rt') = length (tasks rt)
    /\ forall j, j < k -> exists o r, tasks rt' !! j = Some (Settled o r).
Proof.
  induction k as [|k IH]; intros rt Hrt Hk.
  - exists [], rt. split; [constructor|]. split; [reflexivity|].
    split; [reflexivity|]. intros j Hj. lia.
  - destruct (IH rt Hrt) as (more1 & rt1 & Hmore1 & Hrun1 & Hlen1 & Hset1);
      [lia|].
    pose proof (lockServed_run more1 rt rt1 Hrt Hrun1) as Hrt1.
    assert (Hone : exists more2 rt2 origin result,
               Forall (resumes outcome) more2
               /\ run env blobSize rt1 more2 = Some rt2
               /\ length (tasks rt2) = length (tasks rt1)
               /\ tasks rt2 !! k = Some (Settled origin result)
               /\ forall j, j < k ->
                            exists o r, tasks rt2 !! j = Some (Settled o r)).
    { destruct (lookup_lt_is_Some_2 (tasks rt1) k) as [t Ht]; [lia|].
      destruct t as [origin lock|origin q locals early|origin result].
      - assert (Hgo : forall rtA,
                   tasks rtA !! k = Some (AwaitingLock origin lock) ->
                   lock ∈ resolved rtA ->
                   length (tasks rtA) = length (tasks rt1) ->
                   (forall j, j < k ->
                              exists o r, tasks rtA !! j = Some (Settled o r)) ->
                   exists more rtB o r,
                     Forall (resumes outcome) more
                     /\ run env blobSize rtA more = Some rtB
                     /\ length (tasks rtB) = length (tasks rt1)
                     /\ tasks rtB !! k = Some (Settled o r)
                     /\ forall j, j < k ->
                          exists o r, tasks rtB !! j = Some (Settled o r)).
        { intros rtA HtA Hin HlenA HsetA.
          destruct (acquire_and_settle outcome rtA k origin lock HtA Hin)
            as (more & rtB & r & Hmore & Hrun & Htasks).
          exists more, rtB, origin, r.
          split; [exact Hmore|]. split; [exact Hrun|].
          split; [rewrite Htasks, length_insert; exact HlenA|].
          split; [rewrite Htasks; apply list_lookup_insert_eq;
                  eapply lookup_lt_Some, HtA|].
          intros j Hj. rewrite Htasks. apply settled_insert, HsetA, Hj. }
        destruct Hrt1 as [_ Hwait].
        destruct (Hwait k origin lock Ht)
          as [Hin|(holder & o' & l' & e' & Hholder)].
        + apply (Hgo rt1 Ht Hin eq_refl Hset1).
        + destruct (settle_task outcome
                      (length (Flush.batches l') - Flush.i l')
                      rt1 holder o' lock l' e' Hholder)
            as (moreH & rtH & rH & HmoreH & HrunH & HtasksH & HresH); [lia|].
          assert (Hne : holder <> k).
          { intros ->. rewrite Ht in Hholder. discriminate. }
          destruct (Hgo rtH) as (more & rtB & o & r & Hmore & Hrun & Hlen
                                 & Hk' & Hset).
          * rewrite HtasksH, list_lookup_insert_ne by exact Hne. exact Ht.
          * rewrite HresH. set_solver.
          * rewrite HtasksH, length_insert. reflexivity.
          * intros j Hj. rewrite HtasksH. apply settled_insert, Hset1, Hj.
          * exists (moreH ++ more), rtB, o, r.
            split; [apply Forall_app; split; assumption|].
            split; [rewrite run_app, HrunH; exact Hrun|].
            split; [exact Hlen|]. split; assumption.
      - destruct (settle_task outcome
                    (length (Flush.batches locals) - Flush.i locals)
                    rt1 k origin q locals early Ht)
          as (more & rtB & r & Hmore & Hrun & Htasks & _); [lia|].
        exists more, rtB, origin, r.
        split; [exact Hmore|]. split; [exact Hrun|].
        split; [rewrite Htasks, length_insert; reflexivity|].
        split; [rewrite Htasks; apply list_lookup_insert_eq;
                eapply lookup_lt_Some, Ht|].
        intros j Hj. rewrite Htasks. apply settled_insert, Hset1, Hj.
      - exists [], rt1, origin, result.
        split; [constructor|]. split; [reflexivity|].
        split; [reflexivity|]. split; [exact Ht|exact Hset1]. }
    destruct Hone as (more2 & rt2 & origin & result & Hmore2 & Hrun2 & Hlen2
                      & Hk2 & Hset2).
    exists (more1 ++ more2), rt2.
    split; [apply Forall_app; split; assumption|].
    split; [rewrite run_app, Hrun1; exact Hrun2|].
    split; [congruence|].
    intros j Hj. destruct (decide (j = k)) as [->|Hne].
    + exists origin, result. exact Hk2.
    + apply Hset2. lia.
Qed.

(** X19. The promise lock is never left closed: in every state the
    exporter can reach, the lock in the field and every lock a pending
    call of [flush] waits for is already resolved, or its resolver is
    held by a flush that has a send under way and opens it in its
    [finally]. *)
Theorem flush_lock_always_held this events rt :
  run env blobSize (boot this) events = Some rt ->
  lockServed rt.
Proof.
  intros Hrun.
  exact (lockServed_run events (boot this) rt (lockServed_boot this) Hrun).
Qed.

(** X20. No call of [flush] hangs: from every state the exporter can
    reach, letting the pending calls resume and their sends settle, each
    with the same outcome, good or bad, and making no new call, settles
    every call of [flush] made so far. *)
Theorem every_flush_settles this events rt outcome :
  run env blobSize (boot this) events = Some rt ->
  exists more rt',
    Forall (resumes outcome) more
    /\ run env blobSize rt more = Some rt'
    /\ length (tasks rt') = length (tasks rt)
    /\ Forall (fun task => isSettled task = true) (tasks rt').
Proof.
  intros Hrun.
  pose proof (lockServed_run events (boot this) rt (lockServed_boot this)
                Hrun) as Hrt.
  destruct (drain outcome (length (tasks rt)) rt Hrt (le_n _))
    as (more & rt' & Hmore & Hrun' & Hlen & Hset).
  exists more, rt'. split; [exact Hmore|]. split; [exact Hrun'|].
  split; [exact Hlen|].
  apply Forall_lookup. intros j task Hj.
  destruct (Hset j) as (o & r & Hj').
  - rewrite <- Hlen. eapply lookup_lt_Some, Hj.
  - rewrite Hj in Hj'. injection Hj' as ->. reflexivity.
Qed.

End LockExtras.

Lemma flush_lock_always_held_witness :
  exists rt,
    run None threeMebibytes (boot collector)
      [CallExport (freshSpans 2); CallFlush; CallFlush; LockAcquired 0]
    = Some rt
    /\ lockServed rt.
Proof.
  destruct (run None threeMebibytes (boot collector)
              [CallExport (freshSpans 2); CallFlush; CallFlush;
               LockAcquired 0]) as [rt|] eqn:E; [|vm_compute in E; discriminate].
  exists rt. split; [reflexivity|].
  exact (flush_lock_always_held None threeMebibytes collector _ rt E).
Defined.

Lemma every_flush_settles_witness :
  exists rt,
    run None threeMebibytes (boot collector)
      [CallExport (freshSpans 2); CallFlush; TimerFires; LockAcquired 0;
       CallShutdown]
    = Some rt
    /\ exists more rt',
         Forall (resumes refused) more
         /\ run None threeMebibytes rt more = Some rt'
         /\ length (tasks rt') = length (tasks rt)
         /\ Forall (fun task => isSettled task = true) (tasks rt').
Proof.
  destruct (run None threeMebibytes (boot collector)
              [CallExport (freshSpans 2); CallFlush; TimerFires;
               LockAcquired 0; CallShutdown]) as [rt|] eqn:E;
    [|vm_compute in E; discriminate].
  exists rt. split; [reflexivity|].
  exact (every_flush_settles None threeMebibytes collector _ rt refused E).
Defined.

(** ** From export to the wire *)

Section PipelineExtras.

Variable env : option string.
Variable blobSize : SerializableSpan.t -> Z.
Variable P : SerializableSpan.t -> Prop.

Lemma Forall_sublist {A} (Q : A -> Prop) (l k : list A) :
  sublist l k -> Forall Q k -> Forall Q l.
Proof.
  intros Hsub Hk. apply Forall_forall. intros x Hx.
  rewrite Forall_forall in Hk. apply Hk.
  eapply elem_of_sublist; [exact Hx|exact Hsub].
Qed.

Lemma pipeOK_export this spans :
  pipeOK P this ->
  Forall (fun r => P (serializeSpan env r)) spans ->
  pipeOK P (export env this spans).
Proof.
  intros [Hbuf Hreq] Hspans. split.
  - rewrite export_buffer. apply Forall_app. split; [exact Hbuf|].
    unfold addToBufferCounts.
    destruct (addToBufferLoop_accepted env spans this Add.init)
      as (accepted & Hser & Hsub & _).
    rewrite Hser. cbn [Add.init Add.serializedSpans app].
    eapply Forall_sublist; [exact Hsub|].
    apply Forall_fmap. exact Hspans.
  - rewrite requests_export. exact Hreq.
Qed.

Lemma pipeOK_emit this e :
  pipeOK P this -> bodyOK P e -> pipeOK P (emit this e).
Proof.
  intros [Hbuf Hreq] He. split; [exact Hbuf|].
  rewrite requests_emit. apply Forall_app. split; [exact Hreq|].
  destruct (isFetch e); constructor; [exact He|constructor].
Qed.

Lemma pipeOK_same this this' :
  buffer this' = buffer this -> requests this' = requests this ->
  pipeOK P this -> pipeOK P this'.
Proof. intros Hb Hr [Hbuf Hreq]. split; [rewrite Hb|rewrite Hr]; assumption. Qed.

Lemma pipeOK_flushBegin this :
  pipeOK P this ->
  pipeOK P (fst (flushBegin blobSize this))
  /\ forall locals, snd (flushBegin blobSize this) = Some locals ->
                    Forall (Forall P) (Flush.batches locals).
Proof.
  intros [Hbuf Hreq].
  pose proof (requests_flushBegin blobSize this) as Hr.
  split.
  - split; [|rewrite Hr; exact Hreq].
    unfold flushBegin. cbv zeta.
    destruct (buffer this) as [|span rest]; [constructor|].
    cbn [serverUrl withBuffer]. destruct (serverUrl this).
    + cbn [fst]. rewrite removeSpanKeysFromTracking_spec by exact blobSize.
      constructor.
    + cbn [fst]. destruct (1 <? _)%nat; cbn [buffer emit];
        rewrite emits_buffer; constructor.
  - intros locals. unfold flushBegin. cbv zeta.
    destruct (buffer this) as [|span rest] eqn:Eb; [discriminate|].
    cbn [serverUrl withBuffer]. destruct (serverUrl this); [discriminate|].
    cbn [snd]. intros Heq. injection Heq as <-. cbn [Flush.batches].
    change (Forall (Forall P)
              (splitIntoBatches blobSize (withBuffer this [])
                 (span :: rest))).
    apply Forall_concat. rewrite splitIntoBatches_concat. exact Hbuf.
Qed.

Lemma Forall_currentSend locals :
  Forall (Forall P) (Flush.batches locals) -> Forall P (currentSend locals).
Proof.
  intros Hall. unfold currentSend.
  destruct (nth_in_or_default (Flush.i locals) (Flush.batches locals) [])
    as [Hin | ->]; [|constructor].
  rewrite Forall_forall in Hall. apply Hall, list_elem_of_In, Hin.
Qed.

Lemma pipeOK_flushSend this locals :
  pipeOK P this -> Forall (Forall P) (Flush.batches locals) ->
  pipeOK P (fst (flushSend this locals)).
Proof.
  intros Hthis Hall. unfold flushSend, sendSpansRequest.
  destruct (serverUrl this); [exact Hthis|].
  cbn [fst]. apply pipeOK_emit; [exact Hthis|].
  apply Forall_currentSend, Hall.
Qed.

Lemma pipeOK_flushSettle this locals sent :
  pipeOK P this -> Forall (Forall P) (Flush.batches locals) ->
  pipeOK P (fst (flushSettle this locals sent)).
Proof.
  intros [Hbuf Hreq] Hall. split; [|rewrite requests_flushSettle; exact Hreq].
  destruct sent as [|message]; [exact Hbuf|].
  rewrite flushSettle_Threw_buffer. apply Forall_app. split; [exact Hbuf|].
  apply Forall_concat. apply Forall_drop. exact Hall.
Qed.

Lemma pipeOK_flushEnd this locals :
  pipeOK P this -> pipeOK P (fst (flushEnd this locals)).
Proof.
  apply pipeOK_same; [apply (flushEnd_buffer blobSize)|apply requests_flushEnd].
  exact blobSize.
Qed.

Lemma sendsOnly_finishTask rt task origin resolveFlush this result :
  Forall (taskOK P) (tasks rt) -> pipeOK P this ->
  sendsOnly P (finishTask rt task origin resolveFlush this result).
Proof.
  intros Htasks Hthis. unfold finishTask.
  destruct origin; [destruct result|]; cbn [autoFlushCatch]; split;
    cbn [exporter tasks]; try exact Hthis;
    try (apply Forall_insert; [exact Htasks|exact I]).
  apply pipeOK_emit; [exact Hthis|exact I].
Qed.

Lemma sendsOnly_continueTask rt task origin resolveFlush this locals :
  Forall (taskOK P) (tasks rt) -> pipeOK P this ->
  Forall (Forall P) (Flush.batches locals) ->
  sendsOnly P (continueTask rt task origin resolveFlush this locals).
Proof.
  intros Htasks Hthis Hall. unfold continueTask.
  destruct (_ <? _)%nat.
  - pose proof (pipeOK_flushSend this locals Hthis Hall) as Hsend.
    destruct (flushSend this locals) as [this' early].
    split; cbn [exporter tasks]; [exact Hsend|].
    apply Forall_insert; [exact Htasks|exact Hall].
  - pose proof (pipeOK_flushEnd this locals Hthis) as Hend.
    destruct (flushEnd this locals) as [this' result].
    apply sendsOnly_finishTask; assumption.
Qed.

Lemma sendsOnly_spawn rt this origin :
  Forall (taskOK P) (tasks rt) -> pipeOK P this ->
  sendsOnly P (spawn rt this origin).
Proof.
  intros Htasks Hthis. split; [exact Hthis|].
  cbn [spawn tasks]. apply Forall_app. split; [exact Htasks|].
  constructor; [exact I|constructor].
Qed.

Lemma sendsOnly_step rt event rt' :
  sendsOnly P rt ->
  exportsOnly (fun r => P (serializeSpan env r)) event ->
  step env blobSize rt event = Some rt' -> sendsOnly P rt'.
Proof.
  intros [Hthis Htasks] Hevent Hstep.
  destruct event as [spans| | | |task|task outcome]; cbn [step] in Hstep.
  - injection Hstep as <-. split; [|exact Htasks].
    cbn [exporter]. apply pipeOK_export; assumption.
  - injection Hstep as <-. apply sendsOnly_spawn; assumption.
  - injection Hstep as <-. apply sendsOnly_spawn; [exact Htasks|].
    exact Hthis.
  - destruct (flushTimer (exporter rt)); [|discriminate].
    destruct (negb _); injection Hstep as <-;
      [apply sendsOnly_spawn; assumption|split; assumption].
  - destruct (tasks rt !! task) as [[origin lock| |]|]; try discriminate.
    destruct (bool_decide _); [|discriminate].
    cbv zeta in Hstep. cbn [exporter] in Hstep.
    destruct (pipeOK_flushBegin (exporter rt) Hthis) as [Hbegin Hlocals].
    destruct (flushBegin blobSize (exporter rt)) as [this [locals|]];
      injection Hstep as <-.
    + apply sendsOnly_continueTask; [exact Htasks|exact Hbegin|].
      apply Hlocals. reflexivity.
    + apply sendsOnly_finishTask; assumption.
  - destruct (tasks rt !! task) as [[|origin resolveFlush locals early|]|]
      eqn:Et; try discriminate.
    assert (Hall : Forall (Forall P) (Flush.batches locals)).
    { rewrite Forall_lookup in Htasks. exact (Htasks _ _ Et). }
    pose proof (pipeOK_flushSettle (exporter rt) locals
                  (sendSpansCompletion early outcome) Hthis Hall) as Hsettle.
    destruct (flushSettle_locals (exporter rt) locals
                (sendSpansCompletion early outcome)) as [Hb _].
    destruct (flushSettle (exporter rt) locals _) as [this locals'].
    injection Hstep as <-. cbn [fst snd] in *.
    apply sendsOnly_continueTask; [exact Htasks|exact Hsettle|].
    rewrite Hb. exact Hall.
Qed.

Lemma sendsOnly_run events : forall rt rt',
  sendsOnly P rt ->
  Forall (exportsOnly (fun r => P (serializeSpan env r))) events ->
  run env blobSize rt events = Some rt' -> sendsOnly P rt'.
Proof.
  induction events as [|event events IH]; intros rt rt' Hrt Hevents Hrun.
  - injection Hrun as <-. exact Hrt.
  - cbn [run] in Hrun. apply Forall_cons in Hevents as [Hevent Hevents].
    destruct (step env blobSize rt event) as [rt1|] eqn:E; [|discriminate].
    eapply IH; [|exact Hevents|exact Hrun].
    eapply sendsOnly_step; [exact Hrt|exact Hevent|exact E].
Qed.

(** What a new exporter sends, whatever the event loop does with it. *)
Lemma sendsOnly_new serverUrl apiKey seconds events rt url auth body :
  Forall (exportsOnly (fun r => P (serializeSpan env r))) events ->
  run env blobSize (boot (newExporter serverUrl apiKey seconds)) events
  = Some rt ->
  In (Fetch url auth body) (effects (exporter rt)) ->
  Forall P body.
Proof.
  intros Hevents Hrun Hin.
  assert (H0 : sendsOnly P (boot (newExporter serverUrl apiKey seconds))).
  { split; [split|]; constructor. }
  destruct (sendsOnly_run events _ rt H0 Hevents Hrun) as [[_ Hreq] _].
  rewrite Forall_forall in Hreq.
  apply (Hreq (Fetch url auth body)). apply list_elem_of_In.
  unfold requests. apply List.filter_In. split; [exact Hin|reflexivity].
Qed.

End PipelineExtras.

Section PipelineTheorems.

Variable env : option string.
Variable blobSize : SerializableSpan.t -> Z.

(** X21. The exporter sends nothing but what it was given: every span in
    the body of every request a new exporter ever makes is the
    serialization of a span that some earlier call of [export] was
    given, whatever calls, timer ticks, failures and resumptions lie in
    between. *)
Theorem requests_carry_only_exported_spans serverUrl apiKey seconds events rt
    url auth body span :
  run env blobSize (boot (newExporter serverUrl apiKey seconds)) events
  = Some rt ->
  In (Fetch url auth body) (effects (exporter rt)) ->
  In span body ->
  exists spans readable,
    In (CallExport spans) events /\ In readable spans
    /\ span = serializeSpan env readable.
Proof.
  intros Hrun Hfetch Hspan.
  pose (P := fun s : SerializableSpan.t =>
               exists spans readable,
                 In (CallExport spans) events /\ In readable spans
                 /\ s = serializeSpan env readable).
  assert (Hevents : Forall (exportsOnly (fun r => P (serializeSpan env r)))
                      events).
  { apply Forall_forall. intros event Hevent.
    destruct event as [spans| | | | |]; try exact I.
    cbn [exportsOnly]. apply Forall_forall. intros readable Hreadable.
    exists spans, readable. split; [apply list_elem_of_In, Hevent|].
    split; [apply list_elem_of_In, Hreadable|reflexivity]. }
  pose proof (sendsOnly_new env blobSize P serverUrl apiKey seconds events rt
                url auth body Hevents Hrun Hfetch) as Hbody.
  rewrite Forall_forall in Hbody. apply Hbody, list_elem_of_In, Hspan.
Qed.



End PipelineTheorems.

Lemma requests_carry_only_exported_spans_witness :
  exists rt,
    run None threeMebibytes (boot (newExporter "http://localhost:3000/" "key" 5))
      [CallExport (freshSpans 1); CallFlush; LockAcquired 0]
    = Some rt
    /\ In (Fetch "http://localhost:3000/span" "ApiKey key"
             (map (serializeSpan None) (freshSpans 1)))
         (effects (exporter rt))
    /\ In (serializeSpan None (sampleSpan "trace" "0" JsNull))
         (map (serializeSpan None) (freshSpans 1))
    /\ exists spans readable,
         In (CallExport spans)
           [CallExport (freshSpans 1); CallFlush; LockAcquired 0]
         /\ In readable spans
         /\ serializeSpan None (sampleSpan "trace" "0" JsNull)
            = serializeSpan None readable.
Proof.
  destruct (run None threeMebibytes
              (boot (newExporter "http://localhost:3000/" "key" 5))
              [CallExport (freshSpans 1); CallFlush; LockAcquired 0])
    as [rt|] eqn:E; [|vm_compute in E; discriminate].
  assert (Hfetch : In (Fetch "http://localhost:3000/span" "ApiKey key"
                         (map (serializeSpan None) (freshSpans 1)))
                     (effects (exporter rt))).
  { vm_compute in E. injection E as <-. cbn [effects exporter In].
    repeat first [left; reflexivity|right]. }
  assert (Hspan : In (serializeSpan None (sampleSpan "trace" "0" JsNull))
                    (map (serializeSpan None) (freshSpans 1)))
    by (left; reflexivity).
  exists rt. split; [reflexivity|]. split; [exact Hfetch|].
  split; [exact Hspan|].
  exact (requests_carry_only_exported_spans None threeMebibytes
           "http://localhost:3000/" "key" 5 _ rt _ _ _ _ E Hfetch Hspan).
Defined.


(** ** Which keys a flush releases *)

Section LedgerExtras.

Variable env : option string.
Variable blobSize : SerializableSpan.t -> Z.
Variable network : nat -> FetchOutcome.
Variable arrivals : nat -> list (list ReadableSpan.t).

Lemma export_ledger this spans :
  exists accepted,
    buffer (export env this spans) = buffer this ++ accepted
    /\ bufferSpanKeys (export env this spans)
       = bufferSpanKeys this ∪ list_to_set (map spanKey accepted)
    /\ Forall (fun s => spanKey s ∉ bufferSpanKeys this) accepted.
Proof.
  destruct (addToBufferLoop_accepted env spans this Add.init)
    as (accepted & Hser & _ & _ & Hnew & Hkeys).
  exists accepted. split; [|split; [|exact Hnew]].
  - rewrite export_buffer. unfold addToBufferCounts. rewrite Hser.
    reflexivity.
  - rewrite export_bufferSpanKeys. exact Hkeys.
Qed.

(** Exports only add: keys stay tracked, and what comes into the buffer
    had an untracked key. *)
Lemma exports_ledger calls : forall this,
  bufferSpanKeys this ⊆ bufferSpanKeys (fold_left (export env) calls this)
  /\ Forall (fun s => In s (buffer this) \/ spanKey s ∉ bufferSpanKeys this)
       (buffer (fold_left (export env) calls this)).
Proof.
  induction calls as [|spans calls IH]; intros this.
  - split; [reflexivity|]. apply Forall_forall. intros s Hs.
    left. apply list_elem_of_In, Hs.
  - cbn [fold_left].
    destruct (export_ledger this spans) as (accepted & Hb & Hk & Hnew).
    destruct (IH (export env this spans)) as [Hkeys Hbuf].
    split; [rewrite <- Hkeys, Hk; set_solver|].
    eapply Forall_impl; [exact Hbuf|]. intros s [Hin|Hout]; cbn beta.
    + rewrite Hb in Hin. apply in_app_or in Hin as [Hold|Hacc];
        [left; exact Hold|right].
      rewrite Forall_forall in Hnew. apply Hnew, list_elem_of_In, Hacc.
    + right. rewrite Hk in Hout. set_solver.
Qed.

Lemma In_concat_drop {A} (bs : list (list A)) (m : nat) (x : A) :
  In x (concat (drop m bs)) ->
  exists j, m <= j /\ In x (nth j bs []).
Proof.
  revert m. induction bs as [|b bs IH]; intros m Hin.
  - rewrite drop_nil in Hin. contradiction.
  - destruct m as [|m].
    + cbn [drop concat] in Hin. apply in_app_or in Hin as [Hb|Hrest].
      * exists 0. split; [lia|exact Hb].
      * destruct (IH 0) as (j & _ & Hj); [rewrite drop_0; exact Hrest|].
        exists (S j). split; [lia|exact Hj].
    + cbn [drop] in Hin. destruct (IH m Hin) as (j & Hle & Hj).
      exists (S j). split; [lia|exact Hj].
Qed.

(** The books of the loop of [flush]: keys stay tracked; what is in the
    buffer was there, or was pushed back after a failed send, or came in
    with an untracked key; what is recorded as sent was sent in a batch
    that was accepted. *)
Lemma flushLoop_ledger iterations : forall this locals,
  serverUrl this <> "" ->
  let after := flushLoop env network arrivals iterations this locals in
  let first := Flush.i locals in
  bufferSpanKeys this ⊆ bufferSpanKeys (fst after)
  /\ Forall (fun s =>
               In s (buffer this)
               \/ (exists j j',
                      first <= j /\ sendSpansResponse (network j) <> Returned
                      /\ j < j' /\ In s (nth j' (Flush.batches locals) []))
               \/ spanKey s ∉ bufferSpanKeys this)
       (buffer (fst after))
  /\ Forall (fun s =>
               In s (Flush.successfullySentSpans locals)
               \/ exists j,
                    first <= j < first + iterations
                    /\ sendSpansResponse (network j) = Returned
                    /\ In s (nth j (Flush.batches locals) []))
       (Flush.successfullySentSpans (snd after)).
Proof.
  induction iterations as [|n IH]; intros this locals Hurl; cbv zeta.
  - cbn [flushLoop fst snd]. split; [reflexivity|].
    split; apply Forall_forall; intros s Hs; left; apply list_elem_of_In, Hs.
  - cbn [flushLoop].
    pose proof (extends_flushIteration env network arrivals this locals)
      as [Hs1 _].
    pose proof (flushIteration_locals env network arrivals this locals)
      as [Hb1 Hi1].
    assert (Hone :
              bufferSpanKeys this
              ⊆ bufferSpanKeys
                  (fst (flushIteration env network arrivals this locals))
              /\ Forall (fun s =>
                           In s (buffer this)
                           \/ (sendSpansResponse (network (Flush.i locals))
                               <> Returned
                               /\ exists j', Flush.i locals < j'
                                    /\ In s (nth j' (Flush.batches locals) []))
                           \/ spanKey s ∉ bufferSpanKeys this)
                   (buffer
                      (fst (flushIteration env network arrivals this locals)))
              /\ Forall (fun s =>
                           In s (Flush.successfullySentSpans locals)
                           \/ (sendSpansResponse (network (Flush.i locals))
                               = Returned
                               /\ In s (nth (Flush.i locals)
                                          (Flush.batches locals) [])))
                   (Flush.successfullySentSpans
                      (snd (flushIteration env network arrivals this locals)))).
    { unfold flushIteration, flushAwait, flushSend, sendSpansRequest.
      destruct (serverUrl this) as [|c url] eqn:Eu; [contradiction|].
      cbn [sendSpansCompletion].
      destruct (exports_ledger (arrivals (Flush.i locals))
                  (emit this
                     (Fetch (String c url +:+ "/span")
                        ("ApiKey " +:+ apiKey this) (currentSend locals))))
        as [Hkeys Hbuf].
      cbn [bufferSpanKeys buffer emit] in Hkeys, Hbuf.
      destruct (sendSpansResponse (network (Flush.i locals)))
        as [|message] eqn:Eres.
      - rewrite flushSettle_Returned. cbn [fst snd Flush.successfullySentSpans].
        split; [exact Hkeys|]. split.
        + eapply Forall_impl; [exact Hbuf|]. intros s [H|H]; cbn beta;
            [left; exact H|right; right; exact H].
        + apply Forall_forall. intros s Hs.
          apply list_elem_of_In, in_app_or in Hs as [Hs|Hs];
            [left; exact Hs|right]. split; [reflexivity|exact Hs].
      - split; [|split].
        + unfold flushSettle. cbn [fst].
          destruct (_ <? _)%nat; rewrite ?pushBack_bufferSpanKeys;
            exact Hkeys.
        + rewrite flushSettle_Threw_buffer. apply Forall_app. split.
          * eapply Forall_impl; [exact Hbuf|]. intros s [H|H]; cbn beta;
              [left; exact H|right; right; exact H].
          * apply Forall_forall. intros s Hs. right. left.
            split; [discriminate|].
            apply list_elem_of_In, In_concat_drop in Hs as (j & Hle & Hj).
            exists j. split; [lia|exact Hj].
        + cbn [flushSettle snd Flush.successfullySentSpans].
          apply Forall_forall. intros s Hs. left.
          apply list_elem_of_In, Hs. }
    destruct (flushIteration env network arrivals this locals)
      as [this1 locals1].
    cbn [fst snd] in *.
    destruct Hone as (Hk1 & Hbuf1 & Hsent1).
    specialize (IH this1 locals1). cbv zeta in IH.
    destruct IH as (Hk & Hbuf & Hsent).
    { rewrite (settings_serverUrl _ _ Hs1). exact Hurl. }
    split; [etransitivity; eassumption|]. split.
    + rewrite Forall_forall in Hbuf1.
      eapply Forall_impl; [exact Hbuf|].
      intros s [Hin|[(j & j' & Hle & Hfail & Hlt & Hj)|Hout]]; cbn beta.
      * destruct (Hbuf1 s (proj2 (list_elem_of_In _ _) Hin))
          as [H|[(Hfail & j' & Hlt & Hj)|H]].
        -- left. exact H.
        -- right. left. exists (Flush.i locals), j'.
           split; [lia|]. split; [exact Hfail|]. split; assumption.
        -- right. right. exact H.
      * right. left. exists j, j'. rewrite Hi1 in Hle. rewrite Hb1 in Hj.
        split; [lia|]. split; [exact Hfail|]. split; assumption.
      * right. right. set_solver.
    + rewrite Forall_forall in Hsent1.
      eapply Forall_impl; [exact Hsent|].
      intros s [Hin|(j & Hle & Hok & Hj)]; cbn beta.
      * destruct (Hsent1 s (proj2 (list_elem_of_In _ _) Hin))
          as [H|[Hok Hj]]; [left; exact H|right].
        exists (Flush.i locals). split; [lia|]. split; assumption.
      * right. exists j. rewrite Hi1 in Hle. rewrite Hb1 in Hj.
        split; [lia|]. split; assumption.
Qed.

(** The books of a whole [flush] that enters its loop. *)
Lemma flush_ledger this :
  buffer this <> [] -> serverUrl this <> "" ->
  let batches := splitIntoBatches blobSize this (buffer this) in
  exists loopKeys sent,
    bufferSpanKeys this ⊆ loopKeys
    /\ bufferSpanKeys (fst (flush env blobSize network arrivals this))
       = loopKeys ∖ list_to_set (map spanKey sent)
    /\ Forall (fun s =>
                 exists j, j < length batches
                           /\ sendSpansResponse (network j) = Returned
                           /\ In s (nth j batches []))
         sent
    /\ Forall (fun s =>
                 (exists j j',
                     sendSpansResponse (network j) <> Returned
                     /\ j < j' /\ In s (nth j' batches []))
                 \/ spanKey s ∉ bufferSpanKeys this)
         (buffer (fst (flush env blobSize network arrivals this))).
Proof.
  intros Hbuf Hurl. cbv zeta.
  destruct (flushBegin_loop blobSize this Hbuf Hurl)
    as (drained & Hbegin & Hdb & Hdk & Hds).
  unfold flush. rewrite Hbegin.
  pose proof (flushLoop_ledger
                (length (Flush.batches (firstLocals blobSize this)))
                drained (firstLocals blobSize this)) as Hloop.
  cbv zeta in Hloop.
  cbn [firstLocals Flush.batches Flush.i Flush.successfullySentSpans] in Hloop.
  destruct Hloop as (Hk & Hb & Hs).
  { rewrite (settings_serverUrl _ _ Hds). exact Hurl. }
  cbn [firstLocals Flush.batches].
  destruct (flushLoop env network arrivals _ drained _) as [this1 locals1].
  cbn [fst snd] in *.
  exists (bufferSpanKeys this1), (Flush.successfullySentSpans locals1).
  split; [rewrite <- Hdk; exact Hk|].
  split; [apply (flushEnd_bufferSpanKeys blobSize)|]. split.
  - eapply Forall_impl; [exact Hs|].
    intros s [[]|(j & Hle & Hok & Hj)]; cbn beta.
    exists j. split; [lia|]. split; assumption.
  - rewrite (flushEnd_buffer blobSize).
    eapply Forall_impl; [exact Hb|].
    intros s [Hin|[(j & j' & _ & Hfail & Hlt & Hj)|Hout]]; cbn beta.
    + rewrite Hdb in Hin. contradiction.
    + left. exists j, j'. split; [exact Hfail|]. split; assumption.
    + right. rewrite <- Hdk. exact Hout.
Qed.

(** X23. With a server URL configured, [flush] releases a key only for
    a span it has delivered: a key that was tracked before a flush and is
    tracked no more after it is the key of a span in a batch whose send
    the server accepted. *)
Theorem flush_releases_only_delivered_keys this key :
  serverUrl this <> "" ->
  key ∈ bufferSpanKeys this ->
  key ∉ bufferSpanKeys (fst (flush env blobSize network arrivals this)) ->
  exists j span,
    j < length (splitIntoBatches blobSize this (buffer this))
    /\ sendSpansResponse (network j) = Returned
    /\ In span (nth j (splitIntoBatches blobSize this (buffer this)) [])
    /\ spanKey span = key.
Proof.
  intros Hurl Hin Hout.
  destruct (buffer this) as [|first rest] eqn:Eb.
  - rewrite flush_empty_buffer in Hout by exact Eb. contradiction.
  - assert (Hbuf : buffer this <> []) by (rewrite Eb; discriminate).
    destruct (flush_ledger this Hbuf Hurl)
      as (loopKeys & sent & Hk & Hafter & Hsent & _).
    rewrite Eb in *. rewrite Hafter in Hout.
    assert (Hkey : key ∈ (list_to_set (map spanKey sent) : gset string)).
    { destruct (decide (key ∈ (list_to_set (map spanKey sent) : gset string)))
        as [Hyes|Hno]; [exact Hyes|].
      exfalso. apply Hout. apply elem_of_difference.
      split; [apply Hk, Hin|exact Hno]. }
    apply elem_of_list_to_set, list_elem_of_fmap in Hkey
      as (span & -> & Hspan).
    rewrite Forall_forall in Hsent.
    destruct (Hsent span Hspan) as (j & Hj & Hok & Hnth).
    exists j, span. repeat split; assumption.
Qed.

Lemma In_nth_concat {A} (bs : list (list A)) (k : nat) (x : A) :
  In x (nth k bs []) -> In x (concat bs).
Proof.
  revert k. induction bs as [|b bs IH]; intros k Hin.
  - destruct k; contradiction.
  - cbn [concat]. apply in_or_app. destruct k as [|k]; [left; exact Hin|].
    right. exact (IH k Hin).
Qed.

(** Spans of different batches have different keys, if the keys of the
    spans that were split are pairwise distinct. *)
Lemma batches_apart {A B} (f : A -> B) (bs : list (list A)) :
  forall j k x y,
    NoDup (map f (concat bs)) -> j < k ->
    In x (nth j bs []) -> In y (nth k bs []) -> f x <> f y.
Proof.
  induction bs as [|b bs IH]; intros j k x y Hnd Hlt Hx Hy.
  - destruct j; contradiction.
  - cbn [concat] in Hnd. rewrite map_app in Hnd.
    apply NoDup_app in Hnd as (_ & Hapart & Hrest).
    destruct k as [|k]; [lia|]. cbn [nth] in Hy.
    destruct j as [|j].
    + cbn [nth] in Hx. intros Heq.
      apply (Hapart (f x)).
      * apply list_elem_of_In, in_map, Hx.
      * rewrite Heq. apply list_elem_of_In, in_map.
        exact (In_nth_concat bs k y Hy).
    + cbn [nth] in Hx. apply (IH j k x y Hrest); [lia|exact Hx|exact Hy].
Qed.

(** X24. A failed send leaks keys: when the send of batch [k] is the
    first to fail, the keys of the spans of that batch stay tracked after
    the flush although no span with such a key is buffered any more, so
    that a later [export] of these spans is refused as a duplicate. *)
Theorem failed_batch_keys_stay_tracked this k message span :
  bufferTracked this ->
  serverUrl this <> "" ->
  k < length (splitIntoBatches blobSize this (buffer this)) ->
  (forall j, j < k -> sendSpansResponse (network j) = Returned) ->
  sendSpansResponse (network k) = Threw message ->
  In span (nth k (splitIntoBatches blobSize this (buffer this)) []) ->
  spanKey span ∈ bufferSpanKeys (fst (flush env blobSize network arrivals this))
  /\ ~ In (spanKey span)
         (map spanKey
            (buffer (fst (flush env blobSize network arrivals this)))).
Proof.
  intros [Hnd Htracked] Hurl Hk Hbefore Hfail Hspan.
  assert (Hbuf : buffer this <> []).
  { intros Hnil. rewrite Hnil in Hk. cbn in Hk. lia. }
  pose proof (splitIntoBatches_concat blobSize this (buffer this)) as Hcat.
  assert (Hkey : spanKey span ∈ bufferSpanKeys this).
  { rewrite Forall_forall in Htracked. apply Htracked, list_elem_of_In.
    rewrite <- Hcat. exact (In_nth_concat _ k span Hspan). }
  rewrite <- Hcat in Hnd.
  destruct (flush_ledger this Hbuf Hurl)
    as (loopKeys & sent & Hkeys & Hafter & Hsent & Hbuffer).
  split.
  - rewrite Hafter. apply elem_of_difference. split; [apply Hkeys, Hkey|].
    intros Hin.
    apply elem_of_list_to_set, list_elem_of_fmap in Hin as (s & Heq & Hs).
    rewrite Forall_forall in Hsent.
    destruct (Hsent s Hs) as (j & _ & Hok & Hj).
    destruct (Nat.lt_total j k) as [Hlt|[->|Hgt]].
    + exact (batches_apart spanKey _ j k s span Hnd Hlt Hj Hspan
               (eq_sym Heq)).
    + rewrite Hok in Hfail. discriminate.
    + exact (batches_apart spanKey _ k j span s Hnd Hgt Hspan Hj Heq).
  - intros Hin. apply in_map_iff in Hin as (s & Heq & Hs).
    rewrite Forall_forall in Hbuffer.
    destruct (Hbuffer s (proj2 (list_elem_of_In _ _) Hs))
      as [(j & j' & Hbad & Hlt & Hj')|Hout].
    + assert (Hkj : k <= j).
      { destruct (Nat.le_gt_cases k j) as [Hle|Hgt]; [exact Hle|].
        exfalso. apply Hbad, Hbefore, Hgt. }
      apply (batches_apart spanKey _ k j' span s Hnd); [lia| | |];
        [exact Hspan|exact Hj'|symmetry; exact Heq].
    + apply Hout. rewrite Heq. exact Hkey.
Qed.

End LedgerExtras.

Lemma flush_releases_only_delivered_keys_witness :
  serverUrl (export None collector (freshSpans 2)) <> ""
  /\ ("trace:1" ∈ bufferSpanKeys (export None collector (freshSpans 2)))
  /\ ("trace:1"
      ∉ bufferSpanKeys
          (fst (flush None threeMebibytes firstRefused quiet
                  (export None collector (freshSpans 2)))))
  /\ exists j span,
       j < length (splitIntoBatches threeMebibytes
                     (export None collector (freshSpans 2))
                     (buffer (export None collector (freshSpans 2))))
       /\ sendSpansResponse (firstRefused j) = Returned
       /\ In span (nth j (splitIntoBatches threeMebibytes
                            (export None collector (freshSpans 2))
                            (buffer (export None collector (freshSpans 2))))
                     [])
       /\ spanKey span = "trace:1".
Proof.
  assert (Hin : "trace:1" ∈ bufferSpanKeys (export None collector (freshSpans 2)))
    by (vm_compute; reflexivity).
  assert (Hout : "trace:1"
                 ∉ bufferSpanKeys
                     (fst (flush None threeMebibytes firstRefused quiet
                             (export None collector (freshSpans 2)))))
    by (apply (bool_decide_unpack _); vm_compute; reflexivity).
  split; [discriminate|]. split; [exact Hin|]. split; [exact Hout|].
  apply (flush_releases_only_delivered_keys None threeMebibytes firstRefused
           quiet (export None collector (freshSpans 2)) "trace:1");
    [discriminate|exact Hin|exact Hout].
Defined.

Lemma failed_batch_keys_stay_tracked_witness :
  bufferTracked (export None collector (freshSpans 2))
  /\ sendSpansResponse (firstRefused 0) = Threw "fetch failed"
  /\ In (serializeSpan None (sampleSpan "trace" "0" JsNull))
       (nth 0 (splitIntoBatches threeMebibytes
                 (export None collector (freshSpans 2))
                 (buffer (export None collector (freshSpans 2)))) [])
  /\ (spanKey (serializeSpan None (sampleSpan "trace" "0" JsNull))
      ∈ bufferSpanKeys
          (fst (flush None threeMebibytes firstRefused quiet
                  (export None collector (freshSpans 2)))))
  /\ ~ In (spanKey (serializeSpan None (sampleSpan "trace" "0" JsNull)))
         (map spanKey
            (buffer (fst (flush None threeMebibytes firstRefused quiet
                            (export None collector (freshSpans 2)))))).
Proof.
  assert (Htracked : bufferTracked (export None collector (freshSpans 2))).
  { apply bufferTracked_export. split; constructor. }
  assert (Hspan : In (serializeSpan None (sampleSpan "trace" "0" JsNull))
                    (nth 0 (splitIntoBatches threeMebibytes
                              (export None collector (freshSpans 2))
                              (buffer (export None collector (freshSpans 2))))
                       []))
    by (left; reflexivity).
  split; [exact Htracked|]. split; [reflexivity|]. split; [exact Hspan|].
  apply (failed_batch_keys_stay_tracked None threeMebibytes firstRefused quiet
           (export None collector (freshSpans 2)) 0 "fetch failed");
    [exact Htracked|discriminate|vm_compute; lia|intros j Hj; lia|reflexivity
    |exact Hspan].
Defined.

(** ** The constructor, oversized spans, and what empties the buffer *)

Lemma rev_app_app (s t acc : string) :
  String.rev_app (s +:+ t) acc = String.rev_app t (String.rev_app s acc).
Proof.
  revert acc. induction s as [|c s IH]; intros acc; [reflexivity|].
  cbn. apply IH.
Qed.

Lemma rev_app_rev_app (s a b : string) :
  String.rev_app (String.rev_app s a) b = String.rev_app a (s +:+ b).
Proof.
  revert a b. induction s as [|c s IH]; intros a b; [reflexivity|].
  cbn. rewrite IH. reflexivity.
Qed.

Lemma string_app_nil_r (s : string) : s +:+ "" = s.
Proof.
  induction s as [|c s IH]; [reflexivity|].
  change (String c (s +:+ "") = String c s). f_equal. exact IH.
Qed.

(** X25. The constructor drops one trailing slash of the server URL: an
    exporter made for [url/] has [url] as its server URL, so that its
    requests go to [url/span]. *)
Theorem newExporter_drops_trailing_slash (url apiKey : string) (seconds : Z) :
  serverUrl (newExporter (url +:+ "/") apiKey seconds) = url.
Proof.
  cbn [newExporter serverUrl]. unfold removeTrailingSlash, String.rev.
  rewrite rev_app_app. cbn [String.rev_app].
  change (String.rev_app (String.rev_app url "") "" = url).
  rewrite rev_app_rev_app. cbn [String.rev_app]. apply string_app_nil_r.
Qed.

Section OversizedExtras.

Variable blobSize : SerializableSpan.t -> Z.
Variable this : AIQASpanExporter.

(** X26. [splitIntoBatches] warns once for every span whose own size is
    over [maxBatchSizeBytes], in the order of the spans, and prints
    nothing else. *)
Theorem splitIntoBatches_warns_per_oversized_span spans :
  splitWarnings blobSize this spans
  = map (fun span => oversizedWarning this span (blobSize span))
      (List.filter (oversized blobSize this) spans).
Proof.
  unfold splitWarnings, splitLocals. rewrite splitLoop_warnings.
  reflexivity.
Qed.

Hypothesis blobSize_nonneg : forall span, (0 <= blobSize span)%Z.

Lemma batchBytes_member batch span :
  In span batch -> (blobSize span <= batchBytes blobSize batch)%Z.
Proof.
  induction batch as [|x batch IH]; intros Hin; [contradiction|].
  change (x :: batch) with ([x] ++ batch). rewrite batchBytes_app.
  pose proof (batchBytes_nonneg blobSize blobSize_nonneg batch) as Hb.
  pose proof (blobSize_nonneg x) as Hx.
  unfold batchBytes at 1. cbn [map fold_right].
  destruct Hin as [->|Hin]; [lia|]. specialize (IH Hin). lia.
Qed.

(** X27. An oversized span travels alone: for span sizes that are not
    negative, a batch that holds a span whose own size is over
    [maxBatchSizeBytes] holds nothing else. *)
Theorem splitIntoBatches_isolates_oversized_spans spans batch span :
  In batch (splitIntoBatches blobSize this spans) ->
  In span batch ->
  oversized blobSize this span = true ->
  batch = [span].
Proof.
  intros Hbatch Hspan Hbig.
  pose proof (splitIntoBatches_withinBudget blobSize this spans) as Hall.
  rewrite Forall_forall in Hall.
  destruct (Hall batch (proj2 (list_elem_of_In _ _) Hbatch))
    as [Hfit|(x & -> & _)].
  - pose proof (batchBytes_member batch span Hspan) as Hle.
    apply Z.ltb_lt in Hbig. lia.
  - destruct Hspan as [->|[]]. reflexivity.
Qed.

End OversizedExtras.

Section BufferExtras.

Variable env : option string.
Variable blobSize : SerializableSpan.t -> Z.

Lemma extends_finishTask rt task origin resolveFlush this result :
  extends this (exporter (finishTask rt task origin resolveFlush this result)).
Proof.
  unfold finishTask. destruct origin; [destruct result|]; cbn;
    try apply extends_refl. apply extends_emit.
Qed.

Lemma extends_continueTask rt task origin resolveFlush this locals :
  extends this
    (exporter (continueTask rt task origin resolveFlush this locals)).
Proof.
  unfold continueTask. destruct (_ <? _)%nat.
  - pose proof (extends_flushSend this locals) as H.
    destruct (flushSend this locals) as [this' early]. exact H.
  - pose proof (extends_flushEnd blobSize this locals) as H.
    destruct (flushEnd this locals) as [this' result]. cbn [fst] in H.
    eapply extends_trans; [exact H|apply extends_finishTask].
Qed.

(** X28. Only the start of a flush takes spans out of the buffer: every
    other event of the exporter's life, a failed or accepted send, the
    end of a flush, a call of [shutdown] or [export], leaves the buffered
    spans in place and at most appends to them. *)
Theorem buffer_shrinks_only_when_drained rt event rt' :
  step env blobSize rt event = Some rt' ->
  (forall task, event <> LockAcquired task) ->
  exists pushed,
    buffer (exporter rt') = buffer (exporter rt) ++ pushed.
Proof.
  intros Hstep Hnot.
  assert (Hsame : forall this,
             buffer this = buffer (exporter rt) ->
             exists pushed, buffer this = buffer (exporter rt) ++ pushed).
  { intros this ->. exists []. rewrite app_nil_r. reflexivity. }
  destruct event as [spans| | | |task|task outcome]; cbn [step] in Hstep.
  - injection Hstep as <-. cbn [exporter].
    destruct (extends_exports env [spans] (exporter rt)) as (_ & Hb & _).
    exact Hb.
  - injection Hstep as <-. apply Hsame. reflexivity.
  - injection Hstep as <-. apply Hsame. reflexivity.
  - destruct (flushTimer (exporter rt)); [|discriminate].
    destruct (negb _); injection Hstep as <-; apply Hsame; reflexivity.
  - exfalso. exact (Hnot task eq_refl).
  - destruct (tasks rt !! task) as [[|origin resolveFlush locals early|]|];
      try discriminate.
    pose proof (extends_flushSettle (exporter rt) locals
                  (sendSpansCompletion early outcome)) as Hsettle.
    destruct (flushSettle (exporter rt) locals _) as [this locals'].
    injection Hstep as <-. cbn [fst] in Hsettle.
    destruct (extends_trans _ _ _ Hsettle
                (extends_continueTask rt task origin resolveFlush this
                   locals')) as (_ & Hb & _).
    exact Hb.
Qed.

End BufferExtras.

Lemma splitIntoBatches_isolates_oversized_spans_witness :
  (forall span, (0 <= sixMebibytes span)%Z)
  /\ In [serializeSpan None (sampleSpan "trace" "1" JsNull)]
       (splitIntoBatches sixMebibytes collector
          (map (serializeSpan None) (freshSpans 2)))
  /\ oversized sixMebibytes collector
       (serializeSpan None (sampleSpan "trace" "1" JsNull)) = true
  /\ [serializeSpan None (sampleSpan "trace" "1" JsNull)]
     = [serializeSpan None (sampleSpan "trace" "1" JsNull)].
Proof.
  assert (Hsize : forall span, (0 <= sixMebibytes span)%Z)
    by (intros span; unfold sixMebibytes; lia).
  assert (Hbatch : In [serializeSpan None (sampleSpan "trace" "1" JsNull)]
                     (splitIntoBatches sixMebibytes collector
                        (map (serializeSpan None) (freshSpans 2))))
    by (right; left; reflexivity).
  split; [exact Hsize|]. split; [exact Hbatch|]. split; [reflexivity|].
  apply (splitIntoBatches_isolates_oversized_spans sixMebibytes collector Hsize
           (map (serializeSpan None) (freshSpans 2)) _ _ Hbatch);
    [left; reflexivity|reflexivity].
Defined.

Lemma buffer_shrinks_only_when_drained_witness :
  exists rt,
    step None threeMebibytes (boot (export None collector (freshSpans 1)))
      (CallExport (freshSpans 2))
    = Some rt
    /\ (forall task, CallExport (freshSpans 2) <> LockAcquired task)
    /\ exists pushed,
         buffer (exporter rt)
         = buffer (exporter (boot (export None collector (freshSpans 1))))
           ++ pushed.
Proof.
  eexists. split; [reflexivity|]. split; [discriminate|].
  apply (buffer_shrinks_only_when_drained None threeMebibytes
           (boot (export None collector (freshSpans 1)))
           (CallExport (freshSpans 2)));
    [reflexivity|discriminate].
Defined.

(** ** Export, deliver, export again *)

Section RoundTripExtras.

Variable env : option string.
Variable blobSize : SerializableSpan.t -> Z.
Variable network : nat -> FetchOutcome.

(** What [addToBuffer] accepts depends on the exporter only through the
    tracked keys, the number of buffered spans and the limit. *)
Lemma addToBufferLoop_congr spans : forall a b locals,
  bufferSpanKeys a = bufferSpanKeys b ->
  length (buffer a) = length (buffer b) ->
  maxBufferSpans a = maxBufferSpans b ->
  snd (addToBufferLoop env a locals spans)
  = snd (addToBufferLoop env b locals spans)
  /\ bufferSpanKeys (fst (addToBufferLoop env a locals spans))
     = bufferSpanKeys (fst (addToBufferLoop env b locals spans)).
Proof.
  induction spans as [|span rest IH]; intros a b locals Hk Hl Hm.
  - split; [reflexivity|exact Hk].
  - cbn [addToBufferLoop]. cbv zeta. rewrite Hk, Hl, Hm.
    destruct (maxBufferSpans b <=? Z.of_nat (length (buffer b)))%Z;
      [apply IH; assumption|].
    destruct (negb _); apply IH; cbn [bufferSpanKeys buffer maxBufferSpans
                                        withBufferSpanKeys];
      try assumption; reflexivity.
Qed.

(** X29. Delivery gives the keys back: when an exporter that holds
    nothing is given spans, delivers all of them in a flush the server
    accepts, and is given the same spans again, it buffers and tracks
    them as it did the first time. *)
Theorem export_again_after_delivery this spans :
  buffer this = [] ->
  bufferSpanKeys this = ∅ ->
  serverUrl this <> "" ->
  allAccepted network
    (length (splitIntoBatches blobSize (export env this spans)
               (buffer (export env this spans)))) ->
  buffer (export env
            (fst (flush env blobSize network quiet (export env this spans)))
            spans)
  = buffer (export env this spans)
  /\ bufferSpanKeys
       (export env
          (fst (flush env blobSize network quiet (export env this spans)))
          spans)
     = bufferSpanKeys (export env this spans).
Proof.
  intros Hb Hk Hurl Hacc.
  destruct (extends_export env this spans) as [Hs _].
  assert (Hurl1 : serverUrl (export env this spans) <> "").
  { rewrite (settings_serverUrl _ _ Hs). exact Hurl. }
  destruct (flush_accepted env blobSize network (export env this spans)
              Hurl1 Hacc) as (Hb2 & Hk2 & _).
  pose proof (settings_flush env blobSize network quiet
                (export env this spans)) as Hs2.
  set (delivered := fst (flush env blobSize network quiet
                           (export env this spans))) in *.
  assert (Hk3 : bufferSpanKeys delivered = bufferSpanKeys this).
  { rewrite Hk2, Hk.
    destruct (export_ledger env this spans) as (accepted & Hba & Hka & _).
    rewrite Hba, Hka, Hb, Hk. cbn [app]. set_solver. }
  assert (Hm : maxBufferSpans delivered = maxBufferSpans this).
  { rewrite Hs in Hs2. unfold settings in Hs2. congruence. }
  destruct (addToBufferLoop_congr spans delivered this Add.init Hk3)
    as [Hsnd Hkeys]; [rewrite Hb2, Hb; reflexivity|exact Hm|].
  split.
  - rewrite !export_buffer. unfold addToBufferCounts.
    rewrite Hsnd, Hb2, Hb. reflexivity.
  - rewrite !export_bufferSpanKeys. exact Hkeys.
Qed.

End RoundTripExtras.

Lemma export_again_after_delivery_witness :
  buffer collector = []
  /\ bufferSpanKeys collector = ∅
  /\ serverUrl collector <> ""
  /\ allAccepted (fun _ => accepted)
       (length (splitIntoBatches threeMebibytes
                  (export None collector (freshSpans 3))
                  (buffer (export None collector (freshSpans 3)))))
  /\ buffer (export None
               (fst (flush None threeMebibytes (fun _ => accepted) quiet
                       (export None collector (freshSpans 3))))
               (freshSpans 3))
     = buffer (export None collector (freshSpans 3))
  /\ bufferSpanKeys
       (export None
          (fst (flush None threeMebibytes (fun _ => accepted) quiet
                  (export None collector (freshSpans 3))))
          (freshSpans 3))
     = bufferSpanKeys (export None collector (freshSpans 3)).
Proof.
  split; [reflexivity|]. split; [reflexivity|]. split; [discriminate|].
  split; [intros k _; reflexivity|].
  apply (export_again_after_delivery None threeMebibytes (fun _ => accepted)
           collector (freshSpans 3));
    [reflexivity|reflexivity|discriminate|intros k _; reflexivity].
Defined.

(** * The batcher and the buffer, record by record *)

Section BatcherRecords.

Variable blobSize : SerializableSpan.t -> Z.
Variable this : AIQASpanExporter.

(** A batch once pushed stays. *)
Lemma splitLoop_keeps_batches spans : forall locals batch,
  In batch (Split.batches locals) ->
  In batch (Split.batches (splitLoop blobSize this locals spans)).
Proof.
  induction spans as [|span rest IH]; intros locals batch Hin; [exact Hin|].
  cbn [splitLoop]. cbv zeta.
  destruct (maxBatchSizeBytes this <? blobSize span)%Z.
  - apply IH. cbn [Split.batches]. apply in_or_app. left.
    destruct (0 <? length (Split.currentBatch locals))%nat;
      cbn [Split.batches]; [apply in_or_app; left|]; exact Hin.
  - apply IH. cbn [Split.batches].
    destruct (_ && _); cbn [Split.batches];
      [apply in_or_app; left|]; exact Hin.
Qed.

(** A span over the budget is pushed as a batch of its own. *)
Lemma splitLoop_oversized_alone spans : forall locals span,
  In span spans -> oversized blobSize this span = true ->
  In [span] (Split.batches (splitLoop blobSize this locals spans)).
Proof.
  induction spans as [|head rest IH]; intros locals span Hin Hbig;
    [contradiction|].
  destruct Hin as [->|Hin].
  - cbn [splitLoop]. cbv zeta. unfold oversized in Hbig. rewrite Hbig.
    apply splitLoop_keeps_batches. cbn [Split.batches].
    apply in_or_app. right. left. reflexivity.
  - cbn [splitLoop]. cbv zeta.
    destruct (maxBatchSizeBytes this <? blobSize head)%Z;
      apply IH; assumption.
Qed.

Lemma splitIntoBatches_oversized_alone spans span :
  In span spans -> oversized blobSize this span = true ->
  In [span] (splitIntoBatches blobSize this spans).
Proof.
  intros Hin Hbig. destruct spans as [|head rest]; [contradiction|].
  unfold splitIntoBatches, splitLocals.
  pose proof (splitLoop_oversized_alone (head :: rest) Split.init span
                Hin Hbig) as H.
  destruct (0 <? length _)%nat; [apply in_or_app; left|]; exact H.
Qed.

End BatcherRecords.

(** C6. Every batch of [splitIntoBatches] has a total serialized size of
    at most [maxBatchSizeBytes], except a batch of exactly one span whose
    own size is over the budget, for which a warning is printed.  No span
    is dropped: the batches, concatenated, are the input; and every input
    span whose own size is over the budget is emitted as a batch of its
    own, with its warning. *)
Theorem splitIntoBatches_size_bound (blobSize : SerializableSpan.t -> Z)
    (this : AIQASpanExporter) (spans : list SerializableSpan.t) :
  Forall (fun batch =>
            (batchBytes blobSize batch <= maxBatchSizeBytes this)%Z
            \/ exists span,
                 batch = [span]
                 /\ (maxBatchSizeBytes this < blobSize span)%Z
                 /\ In (oversizedWarning this span (blobSize span))
                      (splitWarnings blobSize this spans))
    (splitIntoBatches blobSize this spans)
  /\ concat (splitIntoBatches blobSize this spans) = spans
  /\ forall span,
       In span spans -> (maxBatchSizeBytes this < blobSize span)%Z ->
       In [span] (splitIntoBatches blobSize this spans)
       /\ In (oversizedWarning this span (blobSize span))
            (splitWarnings blobSize this spans).
Proof.
  pose proof (splitIntoBatches_withinBudget blobSize this spans) as Hfit.
  pose proof (splitIntoBatches_concat blobSize this spans) as Hcat.
  assert (Hwarned : forall span,
             In span spans -> oversized blobSize this span = true ->
             In (oversizedWarning this span (blobSize span))
               (splitWarnings blobSize this spans)).
  { intros span Hin Hbig.
    unfold splitWarnings, splitLocals. rewrite splitLoop_warnings.
    cbn [Split.init Split.warnings app].
    apply in_map_iff. exists span. split; [reflexivity|].
    apply filter_In. split; assumption. }
  split; [|split; [exact Hcat|]].
  - apply Forall_forall. intros batch Hbatch.
    rewrite Forall_forall in Hfit.
    destruct (Hfit batch Hbatch) as [Hle|(span & -> & Hbig)];
      [left; exact Hle|].
    right. exists span. split; [reflexivity|].
    split; [apply Z.ltb_lt; exact Hbig|].
    apply Hwarned; [|exact Hbig].
    rewrite <- Hcat. apply in_concat. exists [span].
    split; [apply list_elem_of_In; exact Hbatch|left; reflexivity].
  - intros span Hin Hbig. apply Z.ltb_lt in Hbig.
    split; [apply splitIntoBatches_oversized_alone|apply Hwarned]; assumption.
Qed.

(** C6 on three spans of which the second is over the budget: it is sent
    alone, between the other two, and flagged. *)
Lemma splitIntoBatches_size_bound_witness :
  let first := serializeSpan None (sampleSpan "trace" "0" JsNull) in
  let large := serializeSpan None (sampleSpan "trace" "1" JsNull) in
  let last := serializeSpan None (sampleSpan "trace" "2" JsNull) in
  splitIntoBatches oneLargeSpan collector [first; large; last]
  = [[first]; [large]; [last]]
  /\ (maxBatchSizeBytes collector < oneLargeSpan large)%Z
  /\ In [large] (splitIntoBatches oneLargeSpan collector [first; large; last])
  /\ In (oversizedWarning collector large (oneLargeSpan large))
       (splitWarnings oneLargeSpan collector [first; large; last]).
Proof.
  cbv zeta.
  split; [reflexivity|]. split; [reflexivity|].
  apply (splitIntoBatches_size_bound oneLargeSpan collector
           [serializeSpan None (sampleSpan "trace" "0" JsNull);
            serializeSpan None (sampleSpan "trace" "1" JsNull);
            serializeSpan None (sampleSpan "trace" "2" JsNull)]).
  - right. left. reflexivity.
  - reflexivity.
Defined.

Section BufferRecords.

Variable env : option string.



End BufferRecords.


(** * Flushes in the event loop *)

Section RunFrames.

Variable env : option string.
Variable blobSize : SerializableSpan.t -> Z.















End RunFrames.

(** * A failed send *)

(** C2, at a run the code can make.  Two spans, each in a batch of its
    own; the server refuses the first request and accepts the second.  The
    [catch] pushes back [batches.slice(i + 1)] and the loop goes on: the
    span of the failed batch is not in the buffer afterwards although its
    key stays tracked, so that exporting it again is skipped as a
    duplicate; the second span is sent in the same flush, its key is
    released, and it is left in the buffer, so that the next flush sends it
    a second time.  The same holds in the event loop, where the call of
    [flush] returns without an error. *)
Theorem failed_batch_lost_later_batch_sent_twice :
  let this := export None collector (freshSpans 2) in
  let first := serializeSpan None (sampleSpan "trace" "0" JsNull) in
  let second := serializeSpan None (sampleSpan "trace" "1" JsNull) in
  let after := fst (flush None threeMebibytes firstRefused quiet this) in
  let next := fst (flush None threeMebibytes (fun _ => accepted) quiet after) in
  splitIntoBatches threeMebibytes this (buffer this) = [[first]; [second]]
  /\ sendSpansResponse (firstRefused 0) = Threw "fetch failed"
  /\ sendSpansResponse (firstRefused 1) = Returned
  /\ fetched after = [[first]; [second]]
  /\ buffer after = [second]
  /\ bufferSpanKeys after = {[spanKey first]}
  /\ addToBufferCounts None after [sampleSpan "trace" "0" JsNull]
     = {| Add.duplicatesCount := 1; Add.droppedCount := 0;
          Add.serializedSpans := [] |}
  /\ fetched next = [[first]; [second]; [second]]
  /\ buffer next = []
  /\ bufferSpanKeys next = {[spanKey first]}
  /\ exists rt,
       run None threeMebibytes (boot collector)
         [CallExport (freshSpans 2); CallFlush; LockAcquired 0;
          SendSettled 0 refused; SendSettled 0 accepted]
       = Some rt
       /\ exporter rt = after
       /\ tasks rt = [Settled FromHost Returned].
Proof.
  cbv zeta.
  repeat match goal with
         | |- _ /\ _ => split; [vm_compute; reflexivity|]
         end.
  eexists. split; [vm_compute; reflexivity|].
  split; vm_compute; reflexivity.
Qed.



(** * How a failed flush ends *)



